(** * hivgfp_tcd_teeeivgamma: the TEEEIV model of single-cycle HIV-GFP infection

    A shallow embedding of [hivgfp_tcd_teeeivgamma.py]: the parameter class
    [_Par], the setter [setpars], the stage-count derivation [checkpars], the
    two right-hand sides [_ode_expP] and [_ode_gammaP], [getICs], the
    dispatch of [evolve] over an integrator that is left abstract, and the
    summary reducer [getsummarydata].  [gettimes], [outputdata] and the
    command line are not modelled.

    Numbers.  In the class model, Python and numpy floats are idealised as
    real numbers: every finite float operation is the exact operation on
    [R].  What floats do that reals cannot is written out where the code
    can meet it: a Python float division by zero raises
    [ZeroDivisionError], a numpy division by zero yields [nan] or an
    infinity ([np_div], [NonFinite]).  The stage counts [_nT], ..., [_nP]
    are Python integers that the program only ever sets to
    [int(max(1, ...))] or [1]; they are natural numbers here.

    Rounding.  What a second run of [checkpars] does depends on how the
    float operations round.  For that question [checkpars] is embedded a
    second time, [checkpars_fl], over the operations themselves, with IEEE
    binary64 as one arithmetic ([binary64], on the primitive floats) and
    the reals without rounding as another ([exact_arith]), on which it agrees
    with the class model. *)

From Stdlib Require Import Reals Lra Lia ZArith String Ascii Bool List.
From Stdlib Require PrimFloat SpecFloat FloatOps.
Import ListNotations.
Open Scope R_scope.

(** ** Python values and exceptions *)

Inductive pyval : Type :=
| PyStr (s : string)
| PyInt (z : Z)
| PyFloat (x : R).

Inductive pyexn : Type :=
| ZeroDivisionError
| ValueError
| IndexError
| OverflowError
| SystemExit.

(** What a call does: it returns, it raises, or (numpy only) it returns an
    array that holds [nan] or an infinity, which no list of reals describes. *)
Inductive outcome (A : Type) : Type :=
| Returned (a : A)
| Raised (e : pyexn)
| NonFinite.
Arguments Returned {A} a.
Arguments Raised {A} e.
Arguments NonFinite {A}.

(** [x == 'lit'] for a string literal on the right. *)
Definition py_eq_str (v : pyval) (lit : string) : bool :=
  match v with
  | PyStr s => String.eqb s lit
  | _ => false
  end.

(** ** The class [_Par]

    One field per class attribute that the model reads; the [_help] strings
    are left out. *)

Record _Par : Type := mk_Par {
  N : R;
  tauT : R;
  sigmaT : R;
  _nT : nat;
  s : R;
  dD : R;
  beta : R;
  V0 : R;
  c : R;
  onedaydilution : R;
  tauEE : R;
  sigmaEE : R;
  _nEE : nat;
  dEE : R;
  fEE : R;
  EFAV_time : R;
  tauER : R;
  sigmaER : R;
  _nER : nat;
  dER : R;
  fER : R;
  RALT_time : R;
  tauEI : R;
  sigmaEI : R;
  _nEI : nat;
  dEI : R;
  fEI : R;
  deathtype : pyval;
  tauP : R;
  sigmaP : R;
  _nP : nat;
  dP : R;
  tprior : R;
  tend : R;
  Nsteps : R;
  _onset_time : R
}.

(** The values of the class body (lines 18-89).  Every default pair is
    tau = 6, sigma = 3, for which the class body computes
    [int(round((6.0/3.0)**2)) = 4] stages and [sqrt(6.0**2/4) = 3.0]. *)
Definition Par0 : _Par := {|
  N := 3e5; tauT := 6; sigmaT := 3; _nT := 4; s := 0; dD := 1e-3;
  beta := 1e-2; V0 := 1e-3; c := 0.1; onedaydilution := 0;
  tauEE := 6; sigmaEE := 3; _nEE := 4; dEE := 1e-3; fEE := 1e-3;
  EFAV_time := 1e6;
  tauER := 6; sigmaER := 3; _nER := 4; dER := 1e-3; fER := 1e-3;
  RALT_time := 1e6;
  tauEI := 6; sigmaEI := 3; _nEI := 4; dEI := 1e-3; fEI := 1e-3;
  deathtype := PyStr "exp"; tauP := 6; sigmaP := 3; _nP := 4; dP := 1e-3;
  tprior := 24; tend := 7 * 24; Nsteps := 1000; _onset_time := 0.1
|}.

(** The public parameters: the attributes that carry a help string, which
    are the names the command line offers and [setpars] is documented for. *)
Module name.
Inductive t : Type :=
| N | tauT | sigmaT | s | dD | beta | V0 | c | onedaydilution
| tauEE | sigmaEE | dEE | fEE | EFAV_time
| tauER | sigmaER | dER | fER | RALT_time
| tauEI | sigmaEI | dEI | fEI
| deathtype | tauP | sigmaP | dP
| tprior | tend | Nsteps.
End name.

(** The five lifetime phases, to name the private stage counts. *)
Inductive phase : Type := phT | phEE | phER | phEI | phP.

(** [setattr(_Par, kw, x)] for a public parameter and a float [x]. *)
Definition setattr (kw : name.t) (x : R) (p : _Par) : _Par := {|
  N := match kw with name.N => x | _ => N p end;
  tauT := match kw with name.tauT => x | _ => tauT p end;
  sigmaT := match kw with name.sigmaT => x | _ => sigmaT p end;
  _nT := _nT p;
  s := match kw with name.s => x | _ => s p end;
  dD := match kw with name.dD => x | _ => dD p end;
  beta := match kw with name.beta => x | _ => beta p end;
  V0 := match kw with name.V0 => x | _ => V0 p end;
  c := match kw with name.c => x | _ => c p end;
  onedaydilution :=
    match kw with name.onedaydilution => x | _ => onedaydilution p end;
  tauEE := match kw with name.tauEE => x | _ => tauEE p end;
  sigmaEE := match kw with name.sigmaEE => x | _ => sigmaEE p end;
  _nEE := _nEE p;
  dEE := match kw with name.dEE => x | _ => dEE p end;
  fEE := match kw with name.fEE => x | _ => fEE p end;
  EFAV_time := match kw with name.EFAV_time => x | _ => EFAV_time p end;
  tauER := match kw with name.tauER => x | _ => tauER p end;
  sigmaER := match kw with name.sigmaER => x | _ => sigmaER p end;
  _nER := _nER p;
  dER := match kw with name.dER => x | _ => dER p end;
  fER := match kw with name.fER => x | _ => fER p end;
  RALT_time := match kw with name.RALT_time => x | _ => RALT_time p end;
  tauEI := match kw with name.tauEI => x | _ => tauEI p end;
  sigmaEI := match kw with name.sigmaEI => x | _ => sigmaEI p end;
  _nEI := _nEI p;
  dEI := match kw with name.dEI => x | _ => dEI p end;
  fEI := match kw with name.fEI => x | _ => fEI p end;
  deathtype := match kw with name.deathtype => PyFloat x | _ => deathtype p end;
  tauP := match kw with name.tauP => x | _ => tauP p end;
  sigmaP := match kw with name.sigmaP => x | _ => sigmaP p end;
  _nP := _nP p;
  dP := match kw with name.dP => x | _ => dP p end;
  tprior := match kw with name.tprior => x | _ => tprior p end;
  tend := match kw with name.tend => x | _ => tend p end;
  Nsteps := match kw with name.Nsteps => x | _ => Nsteps p end;
  _onset_time := _onset_time p
|}.

(** [_Par._nX = n] for the stage count of a phase. *)
Definition set_n (ph : phase) (n : nat) (p : _Par) : _Par := {|
  N := N p; tauT := tauT p; sigmaT := sigmaT p;
  _nT := match ph with phT => n | _ => _nT p end;
  s := s p; dD := dD p; beta := beta p; V0 := V0 p; c := c p;
  onedaydilution := onedaydilution p;
  tauEE := tauEE p; sigmaEE := sigmaEE p;
  _nEE := match ph with phEE => n | _ => _nEE p end;
  dEE := dEE p; fEE := fEE p; EFAV_time := EFAV_time p;
  tauER := tauER p; sigmaER := sigmaER p;
  _nER := match ph with phER => n | _ => _nER p end;
  dER := dER p; fER := fER p; RALT_time := RALT_time p;
  tauEI := tauEI p; sigmaEI := sigmaEI p;
  _nEI := match ph with phEI => n | _ => _nEI p end;
  dEI := dEI p; fEI := fEI p;
  deathtype := deathtype p; tauP := tauP p; sigmaP := sigmaP p;
  _nP := match ph with phP => n | _ => _nP p end;
  dP := dP p; tprior := tprior p; tend := tend p; Nsteps := Nsteps p;
  _onset_time := _onset_time p
|}.

(** ** A state and exception monad over the class

    The class is process-wide mutable state; a function that reads or
    writes it is a state transformer that may raise. *)

Definition M (A : Type) : Type := _Par -> _Par * outcome A.

Definition ret {A} (a : A) : M A := fun p => (p, Returned a).

Definition bind {A B} (m : M A) (k : A -> M B) : M B :=
  fun p =>
    match m p with
    | (p', Returned a) => k a p'
    | (p', Raised e) => (p', Raised e)
    | (p', NonFinite) => (p', NonFinite)
    end.

Definition raise {A} (e : pyexn) : M A := fun p => (p, Raised e).
Definition get : M _Par := fun p => (p, Returned p).
Definition gets {A} (f : _Par -> A) : M A := fun p => (p, Returned (f p)).
Definition modify (f : _Par -> _Par) : M unit := fun p => (f p, Returned tt).

Notation "x <- m ;; k" := (bind m (fun x => k))
  (at level 61, m at next level, right associativity).
Notation "m ;;; k" := (bind m (fun _ => k))
  (at level 61, right associativity).

(** ** Python arithmetic used by [checkpars] *)

(** Float division [x / y]: raises on a zero divisor. *)
Definition fdiv (x y : R) : M R :=
  if Req_dec_T y 0 then raise ZeroDivisionError else ret (x / y).

(** [math.sqrt]: a domain error on a negative argument. *)
Definition math_sqrt (x : R) : M R :=
  if Rlt_dec x 0 then raise ValueError else ret (sqrt x).

(** [round] of Python 2 (the file is Python 2: [print_function] is imported
    and [dict.items()] is sorted in place): to the nearest integer, a tie
    away from zero.  [int] of the result is that integer. *)
Definition py_round (x : R) : Z :=
  if Rle_dec 0 x then Int_part (x + / 2) else (- Int_part (- x + / 2))%Z.

(** [float(v)]: a number is converted, a string goes through Python's
    float-literal parser.  The parser is not part of the program; what is
    fixed here is that a literal, after leading white space, starts with a
    sign, a digit, a point, or the first letter of [inf] or [nan].  The rest
    is left to [literal]. *)
Definition float_start (ch : ascii) : bool :=
  existsb (Ascii.eqb ch)
    (list_ascii_of_string "+-.0123456789iInN").

Definition py_space (ch : ascii) : bool :=
  existsb (Ascii.eqb ch)
    [" "%char; "009"%char; "010"%char; "011"%char; "012"%char; "013"%char].

Fixpoint lstrip (st : string) : string :=
  match st with
  | String ch rest => if py_space ch then lstrip rest else st
  | EmptyString => st
  end.

Definition float_of_str (literal : string -> option R) (st : string)
  : option R :=
  match lstrip st with
  | String ch _ => if float_start ch then literal st else None
  | EmptyString => None
  end.

Definition py_float (literal : string -> option R) (v : pyval) : M R :=
  match v with
  | PyFloat x => ret x
  | PyInt z => ret (IZR z)
  | PyStr st =>
      match float_of_str literal st with
      | Some x => ret x
      | None => raise ValueError
      end
  end.

(** ** [checkpars] (lines 97-120) *)

Definition checkpars : M unit :=
  (* tauT *)
  q <- (p <- get ;; fdiv (tauT p) (sigmaT p)) ;;
  modify (set_n phT (Z.to_nat (Z.max 1 (py_round (q ^ 2))))) ;;;
  v <- (p <- get ;; fdiv (tauT p ^ 2) (INR (_nT p))) ;;
  r <- math_sqrt v ;;
  modify (setattr name.sigmaT r) ;;;
  (* tauEE *)
  q <- (p <- get ;; fdiv (tauEE p) (sigmaEE p)) ;;
  modify (set_n phEE (Z.to_nat (Z.max 1 (py_round (q ^ 2))))) ;;;
  v <- (p <- get ;; fdiv (tauEE p ^ 2) (INR (_nEE p))) ;;
  r <- math_sqrt v ;;
  modify (setattr name.sigmaEE r) ;;;
  (* tauER *)
  q <- (p <- get ;; fdiv (tauER p) (sigmaER p)) ;;
  modify (set_n phER (Z.to_nat (Z.max 1 (py_round (q ^ 2))))) ;;;
  v <- (p <- get ;; fdiv (tauER p ^ 2) (INR (_nER p))) ;;
  r <- math_sqrt v ;;
  modify (setattr name.sigmaER r) ;;;
  (* tauEI *)
  q <- (p <- get ;; fdiv (tauEI p) (sigmaEI p)) ;;
  modify (set_n phEI (Z.to_nat (Z.max 1 (py_round (q ^ 2))))) ;;;
  v <- (p <- get ;; fdiv (tauEI p ^ 2) (INR (_nEI p))) ;;
  r <- math_sqrt v ;;
  modify (setattr name.sigmaEI r) ;;;
  (* tauP *)
  dt <- gets deathtype ;;
  if py_eq_str dt "exp" then
    modify (set_n phP 1) ;;;
    tP <- gets tauP ;;
    modify (setattr name.sigmaP tP)
  else if py_eq_str dt "gamma" then
    q <- (p <- get ;; fdiv (tauP p) (sigmaP p)) ;;
    modify (set_n phP (Z.to_nat (Z.max 1 (py_round (q ^ 2))))) ;;;
    v <- (p <- get ;; fdiv (tauP p ^ 2) (INR (_nP p))) ;;
    r <- math_sqrt v ;;
    modify (setattr name.sigmaP r)
  else
    raise SystemExit.

(** ** [setpars] (lines 91-95)

    [kwdargs] is the sequence of (keyword, value) pairs in the order in
    which [kwdargs.keys()] yields them. *)

Fixpoint setpars_loop (literal : string -> option R)
    (kwdargs : list (name.t * pyval)) : M unit :=
  match kwdargs with
  | [] => ret tt
  | (kw, v) :: rest =>
      x <- py_float literal v ;;
      modify (setattr kw x) ;;;
      setpars_loop literal rest
  end.

Definition setpars (literal : string -> option R)
    (kwdargs : list (name.t * pyval)) : M unit :=
  setpars_loop literal kwdargs ;;;
  checkpars.

(** ** Arrays

    A numpy vector is a list; the two-dimensional [live] array is the list
    of its rows. *)

Definition Rsum (l : list R) : R := fold_right Rplus 0 l.

(** [l[a:b]] for [0 <= a], [0 <= b]. *)
Definition slice {A} (a b : nat) (l : list A) : list A := skipn a (firstn b l).

(** [l[k] = v] for an index in range (the program writes no other). *)
Fixpoint upd {A} (k : nat) (v : A) (l : list A) : list A :=
  match l, k with
  | [], _ => []
  | _ :: l', O => v :: l'
  | x :: l', S k' => x :: upd k' v l'
  end.

(** [np.reshape(l, (nrow, ncol))], row-major. *)
Fixpoint reshape (nrow ncol : nat) (l : list R) : list (list R) :=
  match nrow with
  | O => []
  | S k => firstn ncol l :: reshape k ncol (skipn ncol l)
  end.

(** [for i in idx: body] threading the array that the body writes. *)
Definition for_ {S} (idx : list nat) (body : nat -> S -> S) (st : S) : S :=
  fold_left (fun st i => body i st) idx st.

(** [X[X<0] = 0]: the callers' buffer after the call. *)
Definition clamp (X : list R) : list R :=
  map (fun x => if Rlt_dec x 0 then 0 else x) X.

(** [live[i,j]], [live[i]]. *)
Definition row (live : list (list R)) (i : nat) : list R := nth i live [].
Definition at_ (live : list (list R)) (i j : nat) : R := nth j (row live i) 0.

(** [np.sum(live[1:,a:b])] and [np.sum(live[1:,k])]. *)
Definition sum_block (live : list (list R)) (a b : nat) : R :=
  Rsum (concat (map (slice a b) (tl live))).
Definition sum_col (live : list (list R)) (k : nat) : R :=
  Rsum (map (fun r => nth k r 0) (tl live)).

(** The virus concentration at time [t] (lines 142-154 and 244-256). *)
Definition virus_at (t : R) : M R :=
  p <- get ;;
  if Rlt_dec t 0 then
    e <- fdiv (- t * t) (2 * _onset_time p ^ 2) ;;
    ret (V0 p * exp e)
  else if Rlt_dec t 24 then
    ret (V0 p * exp (- c p * t))
  else
    if Req_dec_T (onedaydilution p) 0
    then ret (V0 p * exp (- c p * t))
    else ret (0.25 * V0 p * exp (- c p * t)).

(** The live array of a call (lines 156-164 and 258-266): the clamped state
    without its last two entries, reshaped, under a row of zeros. *)
Definition live_of (nT ncolL : nat) (X : list R) : M (list (list R)) :=
  let flat := firstn (length X - 2) (clamp X) in
  if Nat.eqb (length flat) (nT * ncolL)
  then ret (repeat 0 ncolL :: reshape nT ncolL flat)
  else raise ValueError.

(** [X[-2]] and [X[-1]] of the clamped state. *)
Definition dead_entry (X : list R) (k : nat) : M R :=
  if Nat.ltb (length X) k then raise IndexError
  else ret (nth (length X - k) (clamp X) 0).

(** The division by [_Par.N] inside the loop is numpy's: with [N = 0] the
    first entry of every row is [nan] or an infinity. *)
Definition np_finite_rows (nT : nat) : M unit :=
  p <- get ;;
  if Req_dec_T (N p) 0
  then (if Nat.ltb 0 nT then (fun p => (p, NonFinite)) else ret tt)
  else ret tt.

(** ** [_ode_expP] (lines 122-230) *)

(** The body of [for i in range(nT)] in [_ode_expP] (lines 173-219): the
    writes into [dXdt] for segment [i]. *)
Definition expP_body (p : _Par) (deltaT deltaEE deltaER deltaEI Virus : R)
    (live : list (list R)) (i : nat) (dXdt : list R) : list R :=
  let nEE := _nEE p in let nER := _nER p in let nEI := _nEI p in
  let L := at_ live in
  let ncolL := (nEE + nER + nEI + 2)%nat in
  (* uninfected *)
  let dXdt := upd (ncolL * i + 0)
    (- beta p * L (i+1)%nat O * Virus / N p
     + s p * L (i+1)%nat O + deltaT * (L i O - L (i+1)%nat O)
     + fEE p * Rsum (slice 1 (nEE+1) (row live (i+1)))
     + fER p * Rsum (slice (nEE+1) (nEE+nER+1) (row live (i+1)))
     + fEI p * Rsum (slice (nEE+nER+1) (nEE+nER+nEI+1) (row live (i+1))))
    dXdt in
  (* eclipse entered (EE) *)
  let dXdt := upd (ncolL * i + 1)
    (beta p * L (i+1)%nat O * Virus / N p
     + deltaT * (L i 1%nat - L (i+1)%nat 1%nat)
     - deltaEE * L (i+1)%nat 1%nat
     + (s p - fEE p) * L (i+1)%nat 1%nat
     - dEE p * L (i+1)%nat 1%nat)
    dXdt in
  let dXdt :=
    for_ (seq 2 (nEE - 1)) (fun j dXdt =>
      upd (ncolL * i + j)
        (deltaT * (L i j - L (i+1)%nat j)
         + deltaEE * (L (i+1)%nat (j-1)%nat - L (i+1)%nat j)
         + (s p - fEE p) * L (i+1)%nat j
         - dEE p * L (i+1)%nat j)
        dXdt) dXdt in
  (* eclipse RTed (ER) *)
  let j := (nEE + 1)%nat in
  let dXdt := upd (ncolL * i + j)
    (deltaEE * L (i+1)%nat (j-1)%nat
     + deltaT * (L i j - L (i+1)%nat j)
     - deltaER * L (i+1)%nat j
     + (s p - fER p) * L (i+1)%nat j
     - dER p * L (i+1)%nat j)
    dXdt in
  let dXdt :=
    for_ (seq (nEE + 2) (nER - 1)) (fun j dXdt =>
      upd (ncolL * i + j)
        (deltaT * (L i j - L (i+1)%nat j)
         + deltaER * (L (i+1)%nat (j-1)%nat - L (i+1)%nat j)
         + (s p - fER p) * L (i+1)%nat j
         - dER p * L (i+1)%nat j)
        dXdt) dXdt in
  (* eclipse INTed (EI) *)
  let j := (nEE + nER + 1)%nat in
  let dXdt := upd (ncolL * i + j)
    (deltaER * L (i+1)%nat (j-1)%nat
     + deltaT * (L i j - L (i+1)%nat j)
     - deltaEI * L (i+1)%nat j
     + (s p - fEI p) * L (i+1)%nat j
     - dEI p * L (i+1)%nat j)
    dXdt in
  let dXdt :=
    for_ (seq (nEE + nER + 2) (nEI - 1)) (fun j dXdt =>
      upd (ncolL * i + j)
        (deltaT * (L i j - L (i+1)%nat j)
         + deltaEI * (L (i+1)%nat (j-1)%nat - L (i+1)%nat j)
         + (s p - fEI p) * L (i+1)%nat j
         - dEI p * L (i+1)%nat j)
        dXdt) dXdt in
  (* viral productive cells (P) *)
  let j := (nEE + nER + nEI + 1)%nat in
  upd (ncolL * i + j)
    (deltaEI * L (i+1)%nat (j-1)%nat
     + deltaT * (L i j - L (i+1)%nat j)
     + s p * L (i+1)%nat j
     - dP p * L (i+1)%nat j)
    dXdt.

Definition _ode_expP (X : list R) (t : R) : M (list R) :=
  p <- get ;;
  deltaT <- fdiv (INR (_nT p)) (tauT p) ;;
  deltaEI <- fdiv (INR (_nEI p)) (tauEI p) ;;
  let nT := _nT p in let nEE := _nEE p in
  let nER := _nER p in let nEI := _nEI p in
  deltaEE <-
    (if Rlt_dec t (EFAV_time p) then
       fdiv (INR (_nEE p)) (tauEE p)
     else
       r <- fdiv (INR (_nEE p)) (tauEE p) ;;
       e <- fdiv (- (t - EFAV_time p) ^ 2) (2 * _onset_time p ^ 2) ;;
       ret (r * exp e)) ;;
  deltaER <-
    (if Rlt_dec t (RALT_time p) then
       fdiv (INR (_nER p)) (tauER p)
     else
       r <- fdiv (INR (_nER p)) (tauER p) ;;
       e <- fdiv (- (t - RALT_time p) ^ 2) (2 * _onset_time p ^ 2) ;;
       ret (r * exp e)) ;;
  Virus <- virus_at t ;;
  live <- live_of nT (nEE + nER + nEI + 2) X ;;
  let L := at_ live in
  let dXdt := repeat 0 (nT * (nEE + nER + nEI + 2) + 2)%nat in
  let ncolL := (nEE + nER + nEI + 2)%nat in
  np_finite_rows nT ;;;
  let dXdt :=
    for_ (seq 0 nT)
      (expP_body p deltaT deltaEE deltaER deltaEI Virus live) dXdt in
  (* uninfected dead cells *)
  Xm2 <- dead_entry X 2 ;;
  let dXdt := upd (length dXdt - 2)
    (dEE p * sum_block live 1 (nEE+1)
     + dER p * sum_block live (nEE+1) (nEE+nER+1)
     + dEI p * sum_block live (nEE+nER+1) (nEE+nER+nEI+1)
     + deltaT * Rsum (slice 0 (nEE+nER+nEI+1) (row live nT))
     - dD p * Xm2)
    dXdt in
  (* infected dead cells *)
  Xm1 <- dead_entry X 1 ;;
  let dXdt := upd (length dXdt - 1)
    (dP p * sum_col live (nEE+nER+nEI+1)
     + deltaT * L nT (nEE+nER+nEI+1)%nat
     - dD p * Xm1)
    dXdt in
  ret dXdt.

(** ** [_ode_gammaP] (lines 232-339) *)

(** The body of [for i in range(nT)] in [_ode_gammaP] (lines 275-327). *)
Definition gammaP_body (p : _Par) (deltaT deltaEE deltaER deltaEI deltaP Virus : R)
    (live : list (list R)) (i : nat) (dXdt : list R) : list R :=
  let nEE := _nEE p in let nER := _nER p in let nEI := _nEI p in
  let nP := _nP p in
  let L := at_ live in
  let ncolL := (1 + nEE + nER + nEI + nP)%nat in
  (* uninfected *)
  let dXdt := upd (ncolL * i + 0)
    (- beta p * L (i+1)%nat O * Virus / N p
     + s p * L (i+1)%nat O + deltaT * (L i O - L (i+1)%nat O)
     + fEE p * Rsum (slice 1 (nEE+1) (row live (i+1)))
     + fER p * Rsum (slice (nEE+1) (nEE+nER+1) (row live (i+1)))
     + fEI p * Rsum (slice (nEE+nER+1) (nEE+nER+nEI+1) (row live (i+1))))
    dXdt in
  (* eclipse entered (EE) *)
  let dXdt := upd (ncolL * i + 1)
    (beta p * L (i+1)%nat O * Virus / N p
     + deltaT * (L i 1%nat - L (i+1)%nat 1%nat)
     - deltaEE * L (i+1)%nat 1%nat
     + (s p - fEE p) * L (i+1)%nat 1%nat
     - dEE p * L (i+1)%nat 1%nat)
    dXdt in
  let dXdt :=
    for_ (seq 2 (nEE - 1)) (fun j dXdt =>
      upd (ncolL * i + j)
        (deltaT * (L i j - L (i+1)%nat j)
         + deltaEE * (L (i+1)%nat (j-1)%nat - L (i+1)%nat j)
         + (s p - fEE p) * L (i+1)%nat j
         - dEE p * L (i+1)%nat j)
        dXdt) dXdt in
  (* eclipse RTed (ER) *)
  let j := (nEE + 1)%nat in
  let dXdt := upd (ncolL * i + j)
    (deltaEE * L (i+1)%nat (j-1)%nat
     + deltaT * (L i j - L (i+1)%nat j)
     - deltaER * L (i+1)%nat j
     + (s p - fER p) * L (i+1)%nat j
     - dER p * L (i+1)%nat j)
    dXdt in
  let dXdt :=
    for_ (seq (nEE + 2) (nER - 1)) (fun j dXdt =>
      upd (ncolL * i + j)
        (deltaT * (L i j - L (i+1)%nat j)
         + deltaER * (L (i+1)%nat (j-1)%nat - L (i+1)%nat j)
         + (s p - fER p) * L (i+1)%nat j
         - dER p * L (i+1)%nat j)
        dXdt) dXdt in
  (* eclipse INTed (EI) *)
  let j := (nEE + nER + 1)%nat in
  let dXdt := upd (ncolL * i + j)
    (deltaER * L (i+1)%nat (j-1)%nat
     + deltaT * (L i j - L (i+1)%nat j)
     - deltaEI * L (i+1)%nat j
     + (s p - fEI p) * L (i+1)%nat j
     - dEI p * L (i+1)%nat j)
    dXdt in
  let dXdt :=
    for_ (seq (nEE + nER + 2) (nEI - 1)) (fun j dXdt =>
      upd (ncolL * i + j)
        (deltaT * (L i j - L (i+1)%nat j)
         + deltaEI * (L (i+1)%nat (j-1)%nat - L (i+1)%nat j)
         + (s p - fEI p) * L (i+1)%nat j
         - dEI p * L (i+1)%nat j)
        dXdt) dXdt in
  (* viral productive cells (P) *)
  let j := (nEE + nER + nEI + 1)%nat in
  let dXdt := upd (ncolL * i + j)
    (deltaEI * L (i+1)%nat (j-1)%nat
     + deltaT * (L i j - L (i+1)%nat j)
     - deltaP * L (i+1)%nat j
     + s p * L (i+1)%nat j
     - dP p * L (i+1)%nat j)
    dXdt in
  for_ (seq (nEE + nER + nEI + 2) (nP - 1)) (fun j dXdt =>
    upd (ncolL * i + j)
      (deltaT * (L i j - L (i+1)%nat j)
       + deltaP * (L (i+1)%nat (j-1)%nat - L (i+1)%nat j)
       + s p * L (i+1)%nat j
       - dP p * L (i+1)%nat j)
      dXdt) dXdt.

Definition _ode_gammaP (X : list R) (t : R) : M (list R) :=
  p <- get ;;
  deltaT <- fdiv (INR (_nT p)) (tauT p) ;;
  deltaEE <- fdiv (INR (_nEE p)) (tauEE p) ;;
  deltaER <- fdiv (INR (_nER p)) (tauER p) ;;
  deltaEI <- fdiv (INR (_nEI p)) (tauEI p) ;;
  deltaP <- fdiv (INR (_nP p)) (tauP p) ;;
  let nT := _nT p in
  let nEE := _nEE p in let nER := _nER p in let nEI := _nEI p in
  let nP := _nP p in
  Virus <- virus_at t ;;
  live <- live_of nT (1 + nEE + nER + nEI + nP) X ;;
  let L := at_ live in
  let dXdt := repeat 0 (nT * (1 + nEE + nER + nEI + nP) + 2)%nat in
  let ncolL := (1 + nEE + nER + nEI + nP)%nat in
  np_finite_rows nT ;;;
  let dXdt :=
    for_ (seq 0 nT)
      (gammaP_body p deltaT deltaEE deltaER deltaEI deltaP Virus live) dXdt in
  (* uninfected dead cells *)
  Xm2 <- dead_entry X 2 ;;
  let dXdt := upd (length dXdt - 2)
    (dEE p * sum_block live 1 (nEE+1)
     + dER p * sum_block live (nEE+1) (nEE+nER+1)
     + dEI p * sum_block live (nEE+nER+1) (nEE+nER+nEI+1)
     + deltaT * Rsum (slice 0 (nEE+nER+nEI+1) (row live nT))
     - dD p * Xm2)
    dXdt in
  (* infected dead cells *)
  Xm1 <- dead_entry X 1 ;;
  let dXdt := upd (length dXdt - 1)
    (dP p * sum_block live (nEE+nER+nEI+1) (nEE+nER+nEI+nP+1)
     + deltaT * Rsum (slice (nEE+nER+nEI+1) (nEE+nER+nEI+nP+1) (row live nT))
     + deltaP * sum_col live (nEE+nER+nEI+nP)
     - dD p * Xm1)
    dXdt in
  ret dXdt.

(** ** [getICs] (lines 341-353) *)

Definition getICs : M (list R) :=
  p <- get ;;
  if py_eq_str (deathtype p) "gamma" then
    let nlive := (1 + _nEE p + _nER p + _nEI p + _nP p)%nat in
    let x := repeat 0 (_nT p * nlive + 2)%nat in
    ret (upd 0 (N p) x)
  else
    let nlive := (1 + _nEE p + _nER p + _nEI p + 1)%nat in
    let x := repeat 0 (_nT p * nlive + 2)%nat in
    ret (upd 0 (N p) x).

(** ** [getsummarydata] (lines 376-401)

    An entry of the result is a numpy float: a real, or what a numpy
    division by zero leaves. *)

Inductive npfloat : Type :=
| Fin (x : R)
| NaN
| PosInf
| NegInf.

(** numpy's [x / y] on finite floats: no exception, a warning at most. *)
Definition np_div (x y : R) : npfloat :=
  if Req_dec_T y 0 then
    (if Req_dec_T x 0 then NaN
     else if Rlt_dec 0 x then PosInf else NegInf)
  else Fin (x / y).

(** [x.clip(0)] *)
Definition clip0 (x : R) : R := if Rlt_dec x 0 then 0 else x.

(** One pass of the loop over the time points: the row [XX[i,:]]. *)
Definition summary_row (p : _Par) (Xi : list R) : list npfloat :=
  let nT := _nT p in
  let nEE := _nEE p in let nER := _nER p in let nEI := _nEI p in
  let nP := if py_eq_str (deathtype p) "gamma" then _nP p else 1%nat in
  let ncolL := (1 + nEE + nER + nEI + nP)%nat in
  let ncolE := (nEE + nER + nEI)%nat in
  let XX0 := clip0 (Rsum Xi) in
  let XX1 := clip0 (Rsum (skipn (length Xi - 2) Xi)) in
  let deadinf := clip0 (nth (length Xi - 1) Xi 0) in
  let liveinf := 0 in
  let liveinf :=
    for_ (seq 0 nT) (fun j liveinf =>
      liveinf
      + Rsum (slice (j * ncolL + (1 + ncolE)) (j * ncolL + (1 + ncolE + nP)) Xi))
      liveinf in
  let XX2 := np_div (deadinf + liveinf) XX0 in
  let XX3 :=
    if Rlt_dec 0 (liveinf + deadinf)
    then deadinf / (liveinf + deadinf)
    else 0 in
  [Fin XX0; Fin XX1; XX2; Fin XX3].

(** [X[i,:]] needs row [i] and [X[i,-1]] needs a column. *)
Fixpoint summary_rows (p : _Par) (ntimes : nat) (X : list (list R))
  : outcome (list (list npfloat)) :=
  match ntimes with
  | O => Returned []
  | S k =>
      match X with
      | [] => Raised IndexError
      | Xi :: X' =>
          match Xi with
          | [] => Raised IndexError
          | _ =>
              match summary_rows p k X' with
              | Returned rows => Returned (summary_row p Xi :: rows)
              | other => other
              end
          end
      end
  end.

Definition getsummarydata (times : list R) (X : list (list R))
  : M (list (list npfloat)) :=
  fun p => (p, summary_rows p (length times) X).

(** ** The stage-count derivation, as the specification words it *)

Definition stage_count (tau sigma : R) : nat :=
  Z.to_nat (Z.max 1 (py_round ((tau / sigma) ^ 2))).

Definition moment_sigma (tau : R) (n : nat) : R := sqrt (tau ^ 2 / INR n).

(** ** [checkpars] in closed form *)

Definition after_T (p : _Par) : _Par :=
  let n := stage_count (tauT p) (sigmaT p) in
  setattr name.sigmaT (moment_sigma (tauT p) n) (set_n phT n p).

Definition after_EE (p : _Par) : _Par :=
  let n := stage_count (tauEE p) (sigmaEE p) in
  setattr name.sigmaEE (moment_sigma (tauEE p) n) (set_n phEE n p).

Definition after_ER (p : _Par) : _Par :=
  let n := stage_count (tauER p) (sigmaER p) in
  setattr name.sigmaER (moment_sigma (tauER p) n) (set_n phER n p).

Definition after_EI (p : _Par) : _Par :=
  let n := stage_count (tauEI p) (sigmaEI p) in
  setattr name.sigmaEI (moment_sigma (tauEI p) n) (set_n phEI n p).

Definition after_P (p : _Par) : _Par :=
  let n := stage_count (tauP p) (sigmaP p) in
  setattr name.sigmaP (moment_sigma (tauP p) n) (set_n phP n p).

Definition after_four (p : _Par) : _Par :=
  after_EI (after_ER (after_EE (after_T p))).

Definition checked (p : _Par) : _Par * outcome unit :=
  let p4 := after_four p in
  if py_eq_str (deathtype p) "exp" then
    (setattr name.sigmaP (tauP p) (set_n phP 1 p4), Returned tt)
  else if py_eq_str (deathtype p) "gamma" then
    (if Req_dec_T (sigmaP p) 0 then (p4, Raised ZeroDivisionError)
     else (after_P p4, Returned tt))
  else (p4, Raised SystemExit).


(** ** The script body (lines 451-459)

    [rest] stands for what follows [checkpars()]: [getICs], [gettimes],
    [evolve] (the integration) and [outputdata]. *)

Definition run_once {A} (rest : M A) : M A :=
  checkpars ;;;
  rest.

(** ** The right-hand sides in closed form

    What the loops write, entry by entry, as lists.  [A] is the row of the
    segment before ([live[i,:]]) and [B] the row of the segment
    ([live[i+1,:]]). *)

(** [sum over j in [a, a+n)] of [f j]. *)
Definition Sig (f : nat -> R) (a n : nat) : R := Rsum (map f (seq a n)).

(** The first column of a chain: inflow, exchange, progression, growth less
    failure, death. *)
Definition chain_first (inflow deltaT delta f d sp A B : R) : R :=
  inflow + deltaT * (A - B) - delta * B + (sp - f) * B - d * B.

(** A later column of a chain, fed by the column before. *)
Definition chain_next (deltaT delta f d sp A Bprev B : R) : R :=
  deltaT * (A - B) + delta * (Bprev - B) + (sp - f) * B - d * B.

(** The columns that both variants share: uninfected, EE, ER and EI. *)
Definition front_row (p : _Par) (deltaT deltaEE deltaER deltaEI Virus : R)
    (live : list (list R)) (i : nat) : list R :=
  let nEE := _nEE p in let nER := _nER p in let nEI := _nEI p in
  let A := at_ live i in let B := at_ live (i+1) in
  let r := row live (i+1) in
  [ - beta p * B O * Virus / N p
    + s p * B O + deltaT * (A O - B O)
    + fEE p * Rsum (slice 1 (nEE+1) r)
    + fER p * Rsum (slice (nEE+1) (nEE+nER+1) r)
    + fEI p * Rsum (slice (nEE+nER+1) (nEE+nER+nEI+1) r) ]
  ++ [ chain_first (beta p * B O * Virus / N p)
         deltaT deltaEE (fEE p) (dEE p) (s p) (A 1%nat) (B 1%nat) ]
  ++ map (fun j => chain_next deltaT deltaEE (fEE p) (dEE p) (s p)
                     (A j) (B (j-1)%nat) (B j))
       (seq 2 (nEE - 1))
  ++ [ chain_first (deltaEE * B (nEE+1-1)%nat)
         deltaT deltaER (fER p) (dER p) (s p)
         (A (nEE+1)%nat) (B (nEE+1)%nat) ]
  ++ map (fun j => chain_next deltaT deltaER (fER p) (dER p) (s p)
                     (A j) (B (j-1)%nat) (B j))
       (seq (nEE + 2) (nER - 1))
  ++ [ chain_first (deltaER * B (nEE+nER+1-1)%nat)
         deltaT deltaEI (fEI p) (dEI p) (s p)
         (A (nEE+nER+1)%nat) (B (nEE+nER+1)%nat) ]
  ++ map (fun j => chain_next deltaT deltaEI (fEI p) (dEI p) (s p)
                     (A j) (B (j-1)%nat) (B j))
       (seq (nEE + nER + 2) (nEI - 1)).

Definition expP_row (p : _Par) (deltaT deltaEE deltaER deltaEI Virus : R)
    (live : list (list R)) (i : nat) : list R :=
  let nEE := _nEE p in let nER := _nER p in let nEI := _nEI p in
  let A := at_ live i in let B := at_ live (i+1) in
  let j := (nEE + nER + nEI + 1)%nat in
  front_row p deltaT deltaEE deltaER deltaEI Virus live i
  ++ [ deltaEI * B (j-1)%nat + deltaT * (A j - B j)
       + s p * B j - dP p * B j ].

Definition gammaP_row (p : _Par)
    (deltaT deltaEE deltaER deltaEI deltaP Virus : R)
    (live : list (list R)) (i : nat) : list R :=
  let nEE := _nEE p in let nER := _nER p in let nEI := _nEI p in
  let nP := _nP p in
  let A := at_ live i in let B := at_ live (i+1) in
  let j := (nEE + nER + nEI + 1)%nat in
  front_row p deltaT deltaEE deltaER deltaEI Virus live i
  ++ [ deltaEI * B (j-1)%nat + deltaT * (A j - B j)
       - deltaP * B j + s p * B j - dP p * B j ]
  ++ map (fun j => deltaT * (A j - B j) + deltaP * (B (j-1)%nat - B j)
                   + s p * B j - dP p * B j)
       (seq (nEE + nER + nEI + 2) (nP - 1)).

(** The progression rate under a drug that acts from [action] on. *)
Definition drug_rate (n : nat) (tau t action onset : R) : R :=
  if Rlt_dec t action then INR n / tau
  else INR n / tau * exp (- (t - action) ^ 2 / (2 * onset ^ 2)).

Definition virus (p : _Par) (t : R) : R :=
  if Rlt_dec t 0 then V0 p * exp (- t * t / (2 * _onset_time p ^ 2))
  else if Rlt_dec t 24 then V0 p * exp (- c p * t)
  else if Req_dec_T (onedaydilution p) 0 then V0 p * exp (- c p * t)
  else 0.25 * V0 p * exp (- c p * t).

Definition live_array (nT ncolL : nat) (X : list R) : list (list R) :=
  repeat 0 ncolL :: reshape nT ncolL (firstn (length X - 2) (clamp X)).

(** [_ode_expP] with the rates passed in. *)
Definition expP_with (p : _Par) (deltaT deltaEE deltaER deltaEI Virus : R)
    (X : list R) : list R :=
  let nT := _nT p in
  let nEE := _nEE p in let nER := _nER p in let nEI := _nEI p in
  let live := live_array nT (nEE + nER + nEI + 2) X in
  concat (map (expP_row p deltaT deltaEE deltaER deltaEI Virus live)
            (seq 0 nT))
  ++ [ dEE p * sum_block live 1 (nEE+1)
       + dER p * sum_block live (nEE+1) (nEE+nER+1)
       + dEI p * sum_block live (nEE+nER+1) (nEE+nER+nEI+1)
       + deltaT * Rsum (slice 0 (nEE+nER+nEI+1) (row live nT))
       - dD p * nth (length X - 2) (clamp X) 0;
       dP p * sum_col live (nEE+nER+nEI+1)
       + deltaT * at_ live nT (nEE+nER+nEI+1)%nat
       - dD p * nth (length X - 1) (clamp X) 0 ].

Definition expP_closed (p : _Par) (X : list R) (t : R) : list R :=
  expP_with p (INR (_nT p) / tauT p)
    (drug_rate (_nEE p) (tauEE p) t (EFAV_time p) (_onset_time p))
    (drug_rate (_nER p) (tauER p) t (RALT_time p) (_onset_time p))
    (INR (_nEI p) / tauEI p)
    (virus p t) X.

(** [_ode_gammaP] with the rates passed in. *)
Definition gammaP_with (p : _Par)
    (deltaT deltaEE deltaER deltaEI deltaP Virus : R) (X : list R) : list R :=
  let nT := _nT p in
  let nEE := _nEE p in let nER := _nER p in let nEI := _nEI p in
  let nP := _nP p in
  let live := live_array nT (1 + nEE + nER + nEI + nP) X in
  concat (map (gammaP_row p deltaT deltaEE deltaER deltaEI deltaP Virus live)
            (seq 0 nT))
  ++ [ dEE p * sum_block live 1 (nEE+1)
       + dER p * sum_block live (nEE+1) (nEE+nER+1)
       + dEI p * sum_block live (nEE+nER+1) (nEE+nER+nEI+1)
       + deltaT * Rsum (slice 0 (nEE+nER+nEI+1) (row live nT))
       - dD p * nth (length X - 2) (clamp X) 0;
       dP p * sum_block live (nEE+nER+nEI+1) (nEE+nER+nEI+nP+1)
       + deltaT * Rsum (slice (nEE+nER+nEI+1) (nEE+nER+nEI+nP+1)
                          (row live nT))
       + deltaP * sum_col live (nEE+nER+nEI+nP)
       - dD p * nth (length X - 1) (clamp X) 0 ].

Definition gammaP_closed (p : _Par) (X : list R) (t : R) : list R :=
  gammaP_with p (INR (_nT p) / tauT p)
    (INR (_nEE p) / tauEE p) (INR (_nER p) / tauER p)
    (INR (_nEI p) / tauEI p) (INR (_nP p) / tauP p)
    (virus p t) X.

(** ** Well-formed parameters and layouts

    What [checkpars] and the parameter domain give: stage counts of at
    least 1, non-zero mean lifetimes, a non-zero population scale and a
    non-zero onset width. *)

Definition stages_ok (p : _Par) : Prop :=
  (1 <= _nT p)%nat /\ (1 <= _nEE p)%nat /\ (1 <= _nER p)%nat
  /\ (1 <= _nEI p)%nat /\ (1 <= _nP p)%nat.

Definition scales_ok (p : _Par) : Prop :=
  tauT p <> 0 /\ tauEE p <> 0 /\ tauER p <> 0 /\ tauEI p <> 0
  /\ tauP p <> 0 /\ N p <> 0 /\ _onset_time p <> 0.

(** The state vector of the exponential variant and of the gamma variant. *)
Definition layout_exp (p : _Par) (X : list R) : Prop :=
  length X = (_nT p * (_nEE p + _nER p + _nEI p + 2) + 2)%nat.

Definition layout_gamma (p : _Par) (X : list R) : Prop :=
  length X = (_nT p * (1 + _nEE p + _nER p + _nEI p + _nP p) + 2)%nat.

Definition nonneg (X : list R) : Prop := Forall (fun x => 0 <= x) X.

(** Parameters with one stage in every phase: every tau and sigma is 1. *)
Definition Par1 : _Par := {|
  N := 1; tauT := 1; sigmaT := 1; _nT := 1; s := 0; dD := 1;
  beta := 1; V0 := 1; c := 1; onedaydilution := 0;
  tauEE := 1; sigmaEE := 1; _nEE := 1; dEE := 1; fEE := 1;
  EFAV_time := 0;
  tauER := 1; sigmaER := 1; _nER := 1; dER := 1; fER := 1;
  RALT_time := 0;
  tauEI := 1; sigmaEI := 1; _nEI := 1; dEI := 1; fEI := 1;
  deathtype := PyStr "gamma"; tauP := 1; sigmaP := 1; _nP := 1; dP := 1;
  tprior := 24; tend := 7 * 24; Nsteps := 1000; _onset_time := 1
|}.

(** ** [evolve] (lines 364-374)

    [odeint] is scipy's integrator, which is not part of the program: it is
    handed the right-hand side, the initial state and the times.  The
    exponential branch also passes [mxstep=500000], a step budget of the
    integrator that the model does not look into. *)

Definition evolve {T : Type}
    (odeint : (list R -> R -> M (list R)) -> list R -> list R -> M T)
    (times X0 : list R) : M T :=
  p <- get ;;
  if py_eq_str (deathtype p) "gamma"
  then odeint _ode_gammaP X0 times
  else odeint _ode_expP X0 times.

(** ** [checkpars] over rounded arithmetic

    Whether a second run of [checkpars] changes anything is decided by the
    rounding of the float operations, which the idealisation above leaves
    out.  Lines 97-120 are therefore embedded a second time, over the
    operations themselves: [arith F] is what the derivation asks of the
    floats of the platform, carried by [F]. *)

Record arith (F : Type) : Type := mk_arith {
  a_div : F -> F -> outcome F;   (* x / y, ZeroDivisionError on a zero y *)
  a_sq : F -> outcome F;         (* x ** 2, OverflowError past the range *)
  a_sqrt : F -> outcome F;       (* math.sqrt(x) *)
  a_round : F -> F;              (* round(x) *)
  a_gt_one : F -> bool;          (* x > 1 *)
  a_int : F -> outcome Z;        (* int(x) *)
  a_of_int : Z -> F              (* the float an int operand is converted to *)
}.
Arguments a_div {F} _ _ _.
Arguments a_sq {F} _ _.
Arguments a_sqrt {F} _ _.
Arguments a_round {F} _ _.
Arguments a_gt_one {F} _ _.
Arguments a_int {F} _ _.
Arguments a_of_int {F} _ _.

Definition and_then {A B} (o : outcome A) (k : A -> outcome B) : outcome B :=
  match o with
  | Returned a => k a
  | Raised e => Raised e
  | NonFinite => NonFinite
  end.

(** One lifetime: the mean [tauX], the standard deviation [sigmaX] and the
    stage count [_nX] of a phase X. *)
Record lifetime (F : Type) : Type := mk_lifetime {
  tau : F;
  sigma : F;
  stages : Z
}.
Arguments mk_lifetime {F} _ _ _.
Arguments tau {F} _.
Arguments sigma {F} _.
Arguments stages {F} _.

(** The attributes of [_Par] that [checkpars] reads or writes. *)
Record lifetimes (F : Type) : Type := mk_lifetimes {
  lifeT : lifetime F;
  lifeEE : lifetime F;
  lifeER : lifetime F;
  lifeEI : lifetime F;
  lifeP : lifetime F;
  mode : pyval
}.
Arguments mk_lifetimes {F} _ _ _ _ _ _.
Arguments lifeT {F} _.
Arguments lifeEE {F} _.
Arguments lifeER {F} _.
Arguments lifeEI {F} _.
Arguments lifeP {F} _.
Arguments mode {F} _.

Definition life {F} (ph : phase) (p : lifetimes F) : lifetime F :=
  match ph with
  | phT => lifeT p | phEE => lifeEE p | phER => lifeER p
  | phEI => lifeEI p | phP => lifeP p
  end.

Definition set_life {F} (ph : phase) (l : lifetime F) (p : lifetimes F)
  : lifetimes F :=
  match ph with
  | phT => mk_lifetimes l (lifeEE p) (lifeER p) (lifeEI p) (lifeP p) (mode p)
  | phEE => mk_lifetimes (lifeT p) l (lifeER p) (lifeEI p) (lifeP p) (mode p)
  | phER => mk_lifetimes (lifeT p) (lifeEE p) l (lifeEI p) (lifeP p) (mode p)
  | phEI => mk_lifetimes (lifeT p) (lifeEE p) (lifeER p) l (lifeP p) (mode p)
  | phP => mk_lifetimes (lifeT p) (lifeEE p) (lifeER p) (lifeEI p) l (mode p)
  end.

(** [int(max(1, round(w)))]: [max] keeps its first argument unless the
    second is greater. *)
Definition stage_of {F} (A : arith F) (w : F) : outcome Z :=
  let r := a_round A w in
  if a_gt_one A r then a_int A r else Returned 1%Z.

(** The right-hand side of line 101, [int(max(1, round((tau/sigma)**2)))]. *)
Definition stage_count_fl {F} (A : arith F) (t sg : F) : outcome Z :=
  and_then (a_div A t sg) (fun q => and_then (a_sq A q) (stage_of A)).

(** The right-hand side of line 102, [math.sqrt(tau**2/n)]; the count [n]
    is a Python integer, converted for the division. *)
Definition moment_sigma_fl {F} (A : arith F) (t : F) (n : Z) : outcome F :=
  and_then (a_sq A t) (fun t2 =>
  and_then (a_div A t2 (a_of_int A n)) (a_sqrt A)).

(** The two lines of a phase (101-102 for T).  The count is assigned before
    the second line is evaluated, so it stays when that line raises. *)
Definition derive {F} (A : arith F) (l : lifetime F)
  : lifetime F * outcome unit :=
  match stage_count_fl A (tau l) (sigma l) with
  | Returned n =>
      match moment_sigma_fl A (tau l) n with
      | Returned sg => (mk_lifetime (tau l) sg n, Returned tt)
      | Raised e => (mk_lifetime (tau l) (sigma l) n, Raised e)
      | NonFinite => (mk_lifetime (tau l) (sigma l) n, NonFinite)
      end
  | Raised e => (l, Raised e)
  | NonFinite => (l, NonFinite)
  end.

Definition on_phase {F} (ph : phase)
    (f : lifetime F -> lifetime F * outcome unit) (p : lifetimes F)
  : lifetimes F * outcome unit :=
  let (l, o) := f (life ph p) in (set_life ph l p, o).

Definition then_ {S} (m k : S -> S * outcome unit) : S -> S * outcome unit :=
  fun p =>
    match m p with
    | (p', Returned _) => k p'
    | other => other
    end.

Definition checkpars_fl {F} (A : arith F)
  : lifetimes F -> lifetimes F * outcome unit :=
  then_ (on_phase phT (derive A))
  (then_ (on_phase phEE (derive A))
  (then_ (on_phase phER (derive A))
  (then_ (on_phase phEI (derive A))
  (fun p =>
     if py_eq_str (mode p) "exp" then
       (set_life phP (mk_lifetime (tau (lifeP p)) (tau (lifeP p)) 1) p,
        Returned tt)
     else if py_eq_str (mode p) "gamma" then
       on_phase phP (derive A) p
     else (p, Raised SystemExit))))).

(** *** IEEE binary64

    The floats of CPython are C doubles.  Division and [math.sqrt] are the
    correctly rounded operations of the processor; [x ** 2] is the C
    library's [pow(x, 2.0)], taken here as the correctly rounded product. *)

Definition b64_of_Z (z : Z) : PrimFloat.float :=
  FloatOps.SF2Prim (SpecFloat.binary_normalize 53 1024 z 0 false).

(** [round] of Python 2 on a double: a float at or above 2^52 in magnitude
    is a whole number; below, the mantissa is cut at the binary point and a
    half or more goes away from zero. *)
Definition b64_round (x : PrimFloat.float) : PrimFloat.float :=
  match FloatOps.Prim2SF x with
  | SpecFloat.S754_finite sgn m e =>
      if (0 <=? e)%Z then x
      else
        let d := (2 ^ (- e))%Z in
        let k := (if (d <=? 2 * (Zpos m mod d))%Z
                  then Zpos m / d + 1 else Zpos m / d)%Z in
        if sgn then PrimFloat.opp (b64_of_Z k) else b64_of_Z k
  | _ => x
  end.

(** [int] of a double: towards zero; not a number and the infinities have
    no integer. *)
Definition b64_int (x : PrimFloat.float) : outcome Z :=
  match FloatOps.Prim2SF x with
  | SpecFloat.S754_zero _ => Returned 0%Z
  | SpecFloat.S754_finite sgn m e =>
      let k := (if (0 <=? e)%Z then Zpos m * 2 ^ e
                else Zpos m / 2 ^ (- e))%Z in
      Returned (if sgn then (- k)%Z else k)
  | SpecFloat.S754_infinity _ => Raised OverflowError
  | SpecFloat.S754_nan => Raised ValueError
  end.

Definition binary64 : arith PrimFloat.float := {|
  a_div := fun x y =>
    if PrimFloat.eqb y PrimFloat.zero then Raised ZeroDivisionError
    else Returned (PrimFloat.div x y);
  a_sq := fun x =>
    let y := PrimFloat.mul x x in
    if PrimFloat.is_infinity y && negb (PrimFloat.is_infinity x)
    then Raised OverflowError else Returned y;
  a_sqrt := fun x =>
    if PrimFloat.ltb x PrimFloat.zero then Raised ValueError
    else Returned (PrimFloat.sqrt x);
  a_round := b64_round;
  a_gt_one := fun x => PrimFloat.ltb PrimFloat.one x;
  a_int := b64_int;
  a_of_int := b64_of_Z
|}.

(** The double [m * 2^e], for [m] below 2^53 in magnitude. *)
Definition b64 (m e : Z) : PrimFloat.float :=
  FloatOps.SF2Prim (SpecFloat.binary_normalize 53 1024 m e false).

(** *** The standard model of rounded arithmetic

    [val x] is the real number a float stands for (0 for what is not a
    finite number).  On positive numbers, a rounded operation whose exact
    result lies in the normal range returns, within one unit in the last
    place of that result: a relative error of at most 2^-52.  [round],
    [max], [int] and the conversion of a count are exact. *)

Definition eps : R := / 2 ^ 52.

Definition normal (x : R) : Prop := / 2 ^ 1022 <= Rabs x <= 2 ^ 1023.

Definition accurate {F} (val : F -> R) (o : outcome F) (x : R) : Prop :=
  exists y, o = Returned y /\ Rabs (val y - x) <= eps * Rabs x.

Record standard_model {F} (A : arith F) (val : F -> R) : Prop := {
  sm_div : forall x y, 0 < val x -> 0 < val y -> normal (val x / val y) ->
           accurate val (a_div A x y) (val x / val y);
  sm_sq : forall x, 0 < val x -> normal (val x ^ 2) ->
          accurate val (a_sq A x) (val x ^ 2);
  sm_sqrt : forall x, 0 < val x -> normal (sqrt (val x)) ->
            accurate val (a_sqrt A x) (sqrt (val x));
  sm_stage : forall x, 0 < val x -> normal (val x) ->
             stage_of A x = Returned (Z.max 1 (py_round (val x)));
  sm_of_int : forall n, (1 <= n <= 2 ^ 53)%Z -> val (a_of_int A n) = IZR n
}.

(** A lifetime that [checkpars] derives without leaving the normal range:
    mean and deviation between 2^-200 and 2^200, and a ratio tau/sigma of
    at most 2^23, that is at most 2^46 stages before rounding. *)
Definition in_range {F} (val : F -> R) (l : lifetime F) : Prop :=
  (/ 2 ^ 200 <= val (tau l) <= 2 ^ 200)
  /\ (/ 2 ^ 200 <= val (sigma l) <= 2 ^ 200)
  /\ val (tau l) <= 2 ^ 23 * val (sigma l).

(** *** Arithmetic on the reals, rounded to 53 binary digits

    The arithmetic of binary64 with the exponent range left unbounded:
    a result [x > 0] is rounded to the nearest multiple of
    [2^(e-52)], where [2^e <= x < 2^(e+1)] (a tie goes away from zero here,
    to the even neighbour in IEEE 754; no bound below depends on it). *)

Definition ilog2 (x : R) : Z := Int_part (ln x / ln 2).

Definition ulp53 (x : R) : R := Rpower 2 (IZR (ilog2 x - 52)).

Definition rnd53 (x : R) : R := IZR (py_round (x / ulp53 x)) * ulp53 x.

(** [int] of a real: towards zero. *)
Definition py_int (x : R) : Z :=
  if Rle_dec 0 x then Int_part x else (- Int_part (- x))%Z.

(** The operations of [checkpars] on reals, with the results of division,
    square and square root passed through [rnd]. *)
Definition real_arith (rnd : R -> R) : arith R := {|
  a_div := fun x y =>
    if Req_dec_T y 0 then Raised ZeroDivisionError
    else Returned (rnd (x / y));
  a_sq := fun x => Returned (rnd (x ^ 2));
  a_sqrt := fun x =>
    if Rlt_dec x 0 then Raised ValueError else Returned (rnd (sqrt x));
  a_round := fun x => IZR (py_round x);
  a_gt_one := fun x => if Rlt_dec 1 x then true else false;
  a_int := fun x => Returned (py_int x);
  a_of_int := IZR
|}.

Definition rounded53 : arith R := real_arith rnd53.

(** The lifetimes of the class body (lines 20-79): tau = 6.0, sigma = 3.0
    and four stages for every phase. *)
Definition class_lifetimes {F} (of_int : Z -> F) (dt : pyval) : lifetimes F :=
  let l := mk_lifetime (of_int 6%Z) (of_int 3%Z) 4%Z in
  mk_lifetimes l l l l l dt.

(** The lifetimes of a class state, and arithmetic without rounding: what
    the class model above computes with. *)
Definition lifetimes_of (p : _Par) : lifetimes R :=
  mk_lifetimes
    (mk_lifetime (tauT p) (sigmaT p) (Z.of_nat (_nT p)))
    (mk_lifetime (tauEE p) (sigmaEE p) (Z.of_nat (_nEE p)))
    (mk_lifetime (tauER p) (sigmaER p) (Z.of_nat (_nER p)))
    (mk_lifetime (tauEI p) (sigmaEI p) (Z.of_nat (_nEI p)))
    (mk_lifetime (tauP p) (sigmaP p) (Z.of_nat (_nP p)))
    (deathtype p).

Definition exact_arith : arith R := real_arith (fun x => x).
(** * Properties *)

(** ** Running the monad *)

Lemma bind_returned {A B} (m : M A) (k : A -> M B) p p1 a r :
  m p = (p1, Returned a) -> k a p1 = r -> bind m k p = r.
Proof. intros Hm Hk. unfold bind. rewrite Hm. exact Hk. Qed.

Lemma bind_raised {A B} (m : M A) (k : A -> M B) p p1 e :
  m p = (p1, Raised e) -> bind m k p = (p1, Raised e).
Proof. intros Hm. unfold bind. rewrite Hm. reflexivity. Qed.

Lemma bind_nonfinite {A B} (m : M A) (k : A -> M B) p p1 :
  m p = (p1, NonFinite) -> bind m k p = (p1, NonFinite).
Proof. intros Hm. unfold bind. rewrite Hm. reflexivity. Qed.

Lemma fdiv_ok x y p : y <> 0 -> fdiv x y p = (p, Returned (x / y)).
Proof.
  intros H. unfold fdiv.
  destruct (Req_dec_T y 0); [contradiction | reflexivity].
Qed.

Lemma fdiv_zero x p : fdiv x 0 p = (p, Raised ZeroDivisionError).
Proof.
  unfold fdiv. destruct (Req_dec_T 0 0) as [_ | H]; [reflexivity | ].
  exfalso; apply H; reflexivity.
Qed.

Lemma math_sqrt_ok x p : 0 <= x -> math_sqrt x p = (p, Returned (sqrt x)).
Proof.
  intros H. unfold math_sqrt. destruct (Rlt_dec x 0); [lra | reflexivity].
Qed.

(** Fields of an updated class. *)
Ltac fields :=
  cbn [N tauT sigmaT _nT s dD beta V0 c onedaydilution
       tauEE sigmaEE _nEE dEE fEE EFAV_time
       tauER sigmaER _nER dER fER RALT_time
       tauEI sigmaEI _nEI dEI fEI
       deathtype tauP sigmaP _nP dP tprior tend Nsteps _onset_time
       setattr set_n fst snd] in *.

(** ** The stage-count derivation *)

Lemma stage_count_pos tau sigma : (1 <= stage_count tau sigma)%nat.
Proof. unfold stage_count. lia. Qed.

Lemma INR_stage_neq n : (1 <= n)%nat -> INR n <> 0.
Proof. intros H. apply not_0_INR. lia. Qed.

Lemma sq_over_n_nonneg tau n : (1 <= n)%nat -> 0 <= tau ^ 2 / INR n.
Proof.
  intros H. apply Rmult_le_pos.
  - apply pow2_ge_0.
  - left. apply Rinv_0_lt_compat, lt_0_INR. lia.
Qed.

Lemma py_round_INR n : py_round (INR n) = Z.of_nat n.
Proof.
  unfold py_round. pose proof (pos_INR n) as Hn.
  destruct (Rle_dec 0 (INR n)) as [_ | H]; [ | contradiction].
  symmetry. apply Int_part_spec. rewrite <- INR_IZR_INZ. lra.
Qed.

Lemma moment_sigma_pos tau n : tau <> 0 -> (1 <= n)%nat -> 0 < moment_sigma tau n.
Proof.
  intros Ht Hn. unfold moment_sigma. apply sqrt_lt_R0.
  apply Rmult_lt_0_compat.
  - assert (0 < tau * tau) by (apply Rsqr_pos_lt; exact Ht). simpl; lra.
  - apply Rinv_0_lt_compat, lt_0_INR. lia.
Qed.

(** The adjusted sigma is a fixed point of the derivation. *)
Lemma stage_count_fixed tau n :
  tau <> 0 -> (1 <= n)%nat -> stage_count tau (moment_sigma tau n) = n.
Proof.
  intros Ht Hn. unfold stage_count.
  assert (Hq : (tau / moment_sigma tau n) ^ 2 = INR n).
  { pose proof (moment_sigma_pos tau n Ht Hn) as Hpos.
    assert (Hsq : moment_sigma tau n ^ 2 = tau ^ 2 / INR n).
    { unfold moment_sigma. apply pow2_sqrt, sq_over_n_nonneg, Hn. }
    pose proof (INR_stage_neq n Hn) as Hn0.
    replace ((tau / moment_sigma tau n) ^ 2)
      with (tau ^ 2 / moment_sigma tau n ^ 2) by (field; lra).
    rewrite Hsq. field. split; assumption. }
  rewrite Hq, py_round_INR. lia.
Qed.

(** Evaluate a monadic computation whose divisions and roots are defined. *)
Ltac mside :=
  fields;
  first [ assumption
        | apply INR_stage_neq, stage_count_pos
        | apply sq_over_n_nonneg, stage_count_pos ].

Ltac mrun :=
  cbv beta;
  lazymatch goal with
  | |- bind _ _ _ = _ => eapply bind_returned; [ mrun | mrun ]
  | |- fdiv _ _ _ = _ => apply fdiv_ok; mside
  | |- math_sqrt _ _ = _ => apply math_sqrt_ok; mside
  | |- _ => reflexivity
  end.

Lemma checkpars_checked (p : _Par) :
  sigmaT p <> 0 -> sigmaEE p <> 0 -> sigmaER p <> 0 -> sigmaEI p <> 0 ->
  checkpars p = checked p.
Proof.
  intros HT HEE HER HEI. unfold checkpars.
  do 21 (eapply bind_returned; [ solve [mrun] | cbv beta ]).
  unfold checked, after_four, after_P, after_EI, after_ER, after_EE, after_T,
    stage_count, moment_sigma.
  fields.
  destruct (py_eq_str (deathtype p) "exp").
  - mrun.
  - destruct (py_eq_str (deathtype p) "gamma"); [ | reflexivity].
    destruct (Req_dec_T (sigmaP p) 0) as [E | E].
    + eapply bind_raised. eapply bind_returned; [mrun | ].
      cbv beta. fields. rewrite E. apply fdiv_zero.
    + mrun.
Qed.

(** A zero sigma in one of the four pairs stops the derivation there. *)
Lemma checkpars_zero_sigma (p : _Par) :
  sigmaT p = 0 \/ sigmaEE p = 0 \/ sigmaER p = 0 \/ sigmaEI p = 0 ->
  exists p', checkpars p = (p', Raised ZeroDivisionError)
             /\ deathtype p' = deathtype p.
Proof.
  intros H. unfold checkpars.
  destruct (Req_dec_T (sigmaT p) 0) as [ET | HT].
  { eexists; split.
    - eapply bind_raised. eapply bind_returned; [mrun | ].
      cbv beta. rewrite ET. apply fdiv_zero.
    - reflexivity. }
  destruct (Req_dec_T (sigmaEE p) 0) as [EEE | HEE].
  { eexists; split.
    - do 5 (eapply bind_returned; [ solve [mrun] | cbv beta ]).
      eapply bind_raised. eapply bind_returned; [mrun | ].
      cbv beta. fields. rewrite EEE. apply fdiv_zero.
    - reflexivity. }
  destruct (Req_dec_T (sigmaER p) 0) as [EER | HER].
  { eexists; split.
    - do 10 (eapply bind_returned; [ solve [mrun] | cbv beta ]).
      eapply bind_raised. eapply bind_returned; [mrun | ].
      cbv beta. fields. rewrite EER. apply fdiv_zero.
    - reflexivity. }
  destruct (Req_dec_T (sigmaEI p) 0) as [EEI | HEI].
  { eexists; split.
    - do 15 (eapply bind_returned; [ solve [mrun] | cbv beta ]).
      eapply bind_raised. eapply bind_returned; [mrun | ].
      cbv beta. fields. rewrite EEI. apply fdiv_zero.
    - reflexivity. }
  exfalso. tauto.
Qed.

Lemma py_eq_str_false v lit : v <> PyStr lit -> py_eq_str v lit = false.
Proof.
  intros H. destruct v as [st | z | x]; try reflexivity.
  simpl. apply String.eqb_neq. intros E. apply H. rewrite E. reflexivity.
Qed.

Lemma py_eq_str_true v lit : py_eq_str v lit = true -> v = PyStr lit.
Proof.
  destruct v as [st | z | x]; simpl; try discriminate.
  intros H. apply String.eqb_eq in H. rewrite H. reflexivity.
Qed.

Lemma checked_deathtype p : deathtype (fst (checked p)) = deathtype p.
Proof.
  unfold checked.
  destruct (py_eq_str (deathtype p) "exp"); [reflexivity | ].
  destruct (py_eq_str (deathtype p) "gamma"); [ | reflexivity].
  destruct (Req_dec_T (sigmaP p) 0); reflexivity.
Qed.

(** [checkpars] never touches [deathtype], whatever happens. *)
Lemma checkpars_deathtype p : deathtype (fst (checkpars p)) = deathtype p.
Proof.
  destruct (Req_dec_T (sigmaT p) 0) as [ET | HT];
    [ destruct (checkpars_zero_sigma p) as (p' & E & Hd);
      [tauto | rewrite E; exact Hd] | ].
  destruct (Req_dec_T (sigmaEE p) 0) as [EEE | HEE];
    [ destruct (checkpars_zero_sigma p) as (p' & E & Hd);
      [tauto | rewrite E; exact Hd] | ].
  destruct (Req_dec_T (sigmaER p) 0) as [EER | HER];
    [ destruct (checkpars_zero_sigma p) as (p' & E & Hd);
      [tauto | rewrite E; exact Hd] | ].
  destruct (Req_dec_T (sigmaEI p) 0) as [EEI | HEI];
    [ destruct (checkpars_zero_sigma p) as (p' & E & Hd);
      [tauto | rewrite E; exact Hd] | ].
  rewrite checkpars_checked by assumption. apply checked_deathtype.
Qed.

(** With a mode that is neither string, [checkpars] does not return. *)
Lemma checkpars_invalid_mode p :
  py_eq_str (deathtype p) "exp" = false ->
  py_eq_str (deathtype p) "gamma" = false ->
  exists p' e, checkpars p = (p', Raised e)
               /\ (e = SystemExit \/ e = ZeroDivisionError).
Proof.
  intros Hexp Hgam.
  destruct (Req_dec_T (sigmaT p) 0) as [ET | HT];
    [ destruct (checkpars_zero_sigma p) as (p' & E & _);
      [tauto | exists p', ZeroDivisionError; tauto] | ].
  destruct (Req_dec_T (sigmaEE p) 0) as [EEE | HEE];
    [ destruct (checkpars_zero_sigma p) as (p' & E & _);
      [tauto | exists p', ZeroDivisionError; tauto] | ].
  destruct (Req_dec_T (sigmaER p) 0) as [EER | HER];
    [ destruct (checkpars_zero_sigma p) as (p' & E & _);
      [tauto | exists p', ZeroDivisionError; tauto] | ].
  destruct (Req_dec_T (sigmaEI p) 0) as [EEI | HEI];
    [ destruct (checkpars_zero_sigma p) as (p' & E & _);
      [tauto | exists p', ZeroDivisionError; tauto] | ].
  exists (after_four p), SystemExit. split; [ | tauto].
  rewrite checkpars_checked by assumption.
  unfold checked. rewrite Hexp, Hgam. reflexivity.
Qed.

(** Two classes with the same attributes are the same class. *)
Lemma Par_ext (p q : _Par) :
  N p = N q ->
  tauT p = tauT q ->
  sigmaT p = sigmaT q ->
  _nT p = _nT q ->
  s p = s q ->
  dD p = dD q ->
  beta p = beta q ->
  V0 p = V0 q ->
  c p = c q ->
  onedaydilution p = onedaydilution q ->
  tauEE p = tauEE q ->
  sigmaEE p = sigmaEE q ->
  _nEE p = _nEE q ->
  dEE p = dEE q ->
  fEE p = fEE q ->
  EFAV_time p = EFAV_time q ->
  tauER p = tauER q ->
  sigmaER p = sigmaER q ->
  _nER p = _nER q ->
  dER p = dER q ->
  fER p = fER q ->
  RALT_time p = RALT_time q ->
  tauEI p = tauEI q ->
  sigmaEI p = sigmaEI q ->
  _nEI p = _nEI q ->
  dEI p = dEI q ->
  fEI p = fEI q ->
  deathtype p = deathtype q ->
  tauP p = tauP q ->
  sigmaP p = sigmaP q ->
  _nP p = _nP q ->
  dP p = dP q ->
  tprior p = tprior q ->
  tend p = tend q ->
  Nsteps p = Nsteps q ->
  _onset_time p = _onset_time q ->
  p = q.
Proof.
  destruct p, q. simpl. intros. subst. reflexivity.
Qed.

Ltac unfold_after :=
  unfold after_four, after_P, after_EI, after_ER, after_EE, after_T.

(** Fields of an updated class, in the goal only. *)
Ltac gfields :=
  cbn [N tauT sigmaT _nT s dD beta V0 c onedaydilution
       tauEE sigmaEE _nEE dEE fEE EFAV_time
       tauER sigmaER _nER dER fER RALT_time
       tauEI sigmaEI _nEI dEI fEI
       deathtype tauP sigmaP _nP dP tprior tend Nsteps _onset_time
       setattr set_n fst snd].

Lemma moment_sigma_fixed tau n sg :
  tau <> 0 -> (1 <= n)%nat -> sg = moment_sigma tau n ->
  stage_count tau sg = n /\ moment_sigma tau (stage_count tau sg) = sg.
Proof.
  intros Ht Hn ->. rewrite stage_count_fixed by assumption.
  split; reflexivity.
Qed.

(** A state whose four pairs are already derived is left as it is. *)
Lemma after_four_stable q :
  tauT q <> 0 -> (1 <= _nT q)%nat ->
  sigmaT q = moment_sigma (tauT q) (_nT q) ->
  tauEE q <> 0 -> (1 <= _nEE q)%nat ->
  sigmaEE q = moment_sigma (tauEE q) (_nEE q) ->
  tauER q <> 0 -> (1 <= _nER q)%nat ->
  sigmaER q = moment_sigma (tauER q) (_nER q) ->
  tauEI q <> 0 -> (1 <= _nEI q)%nat ->
  sigmaEI q = moment_sigma (tauEI q) (_nEI q) ->
  after_four q = q.
Proof.
  intros HtT HnT HsT HtEE HnEE HsEE HtER HnER HsER HtEI HnEI HsEI.
  destruct (moment_sigma_fixed _ _ _ HtT HnT HsT) as [T1 T2].
  destruct (moment_sigma_fixed _ _ _ HtEE HnEE HsEE) as [EE1 EE2].
  destruct (moment_sigma_fixed _ _ _ HtER HnER HsER) as [ER1 ER2].
  destruct (moment_sigma_fixed _ _ _ HtEI HnEI HsEI) as [EI1 EI2].
  apply Par_ext; unfold after_four, after_EI, after_ER, after_EE, after_T;
    gfields;
    solve [ reflexivity | assumption ].
Qed.

Lemma after_P_stable q :
  tauP q <> 0 -> (1 <= _nP q)%nat ->
  sigmaP q = moment_sigma (tauP q) (_nP q) ->
  after_P q = q.
Proof.
  intros Ht Hn Hs.
  destruct (moment_sigma_fixed _ _ _ Ht Hn Hs) as [P1 P2].
  apply Par_ext; unfold after_P;
    gfields;
    solve [ reflexivity | assumption ].
Qed.

Lemma exp_P_stable q :
  _nP q = 1%nat -> sigmaP q = tauP q ->
  setattr name.sigmaP (tauP q) (set_n phP 1 q) = q.
Proof.
  intros Hn Hs.
  apply Par_ext;
    gfields;
    solve [ reflexivity | symmetry; assumption ].
Qed.

(** The state that one run leaves is a fixed point of the next run. *)
Lemma checked_fixed p :
  tauT p <> 0 -> sigmaT p <> 0 -> tauEE p <> 0 -> sigmaEE p <> 0 ->
  tauER p <> 0 -> sigmaER p <> 0 -> tauEI p <> 0 -> sigmaEI p <> 0 ->
  tauP p <> 0 -> sigmaP p <> 0 ->
  checkpars (fst (checked p)) = checked p.
Proof.
  intros HtT HsT HtEE HsEE HtER HsER HtEI HsEI HtP HsP.
  assert (Hnz : forall t sg, t <> 0 -> moment_sigma t (stage_count t sg) <> 0).
  { intros t sg Ht. apply Rgt_not_eq, Rlt_gt, moment_sigma_pos;
      [exact Ht | apply stage_count_pos]. }
  pose proof stage_count_pos as Hpos.
  destruct (checked p) as [q o] eqn:Hq. cbn [fst].
  assert (Hfour : after_four q = q).
  { unfold checked in Hq.
    destruct (py_eq_str (deathtype p) "exp");
      [ | destruct (py_eq_str (deathtype p) "gamma");
          [ destruct (Req_dec_T (sigmaP p) 0) | ] ];
      injection Hq as Hq1 _; rewrite <- Hq1;
      apply after_four_stable; unfold_after; gfields;
      solve [ assumption | apply Hpos | reflexivity ]. }
  assert (Hsig : sigmaT q <> 0 /\ sigmaEE q <> 0 /\ sigmaER q <> 0
                 /\ sigmaEI q <> 0).
  { clear Hfour. unfold checked in Hq.
    destruct (py_eq_str (deathtype p) "exp");
      [ | destruct (py_eq_str (deathtype p) "gamma");
          [ destruct (Req_dec_T (sigmaP p) 0) | ] ];
      injection Hq as Hq1 _; rewrite <- Hq1;
      unfold_after; gfields; repeat split; auto. }
  destruct Hsig as (H1 & H2 & H3 & H4).
  assert (Hd : deathtype q = deathtype p).
  { pose proof (checked_deathtype p) as H. rewrite Hq in H. exact H. }
  rewrite checkpars_checked by assumption.
  unfold checked in Hq |- *. rewrite Hfour, Hd.
  destruct (py_eq_str (deathtype p) "exp").
  { injection Hq as Hq1 Ho. subst o. f_equal.
    apply exp_P_stable; rewrite <- Hq1; reflexivity. }
  destruct (py_eq_str (deathtype p) "gamma").
  2:{ injection Hq as Hq1 Ho. subst o. reflexivity. }
  destruct (Req_dec_T (sigmaP p) 0) as [E | _]; [contradiction | ].
  injection Hq as Hq1 Ho. subst o.
  assert (HP : sigmaP q <> 0)
    by (rewrite <- Hq1; unfold_after; gfields; auto).
  destruct (Req_dec_T (sigmaP q) 0) as [E | _]; [contradiction | ].
  f_equal. apply after_P_stable; rewrite <- Hq1; unfold_after; gfields;
    solve [ assumption | apply Hpos | reflexivity ].
Qed.

(** Over the reals, where no operation rounds, the derivation is
    idempotent: with every tau and every sigma positive, a second run of
    [checkpars] from the state the first run left gives the same state and
    the same outcome; and with [deathtype] one of 'exp' and 'gamma' the run
    returns.  What the rounding of the float operations changes is settled
    further down, over rounded arithmetic. *)
Lemma checkpars_exact_idempotent (p : _Par) :
  0 < tauT p -> 0 < sigmaT p -> 0 < tauEE p -> 0 < sigmaEE p ->
  0 < tauER p -> 0 < sigmaER p -> 0 < tauEI p -> 0 < sigmaEI p ->
  0 < tauP p -> 0 < sigmaP p ->
  checkpars (fst (checkpars p)) = checkpars p
  /\ (deathtype p = PyStr "exp" \/ deathtype p = PyStr "gamma" ->
      snd (checkpars p) = Returned tt).
Proof.
  intros HtT HsT HtEE HsEE HtER HsER HtEI HsEI HtP HsP.
  assert (Hc : checkpars p = checked p) by (apply checkpars_checked; lra).
  split.
  - rewrite Hc. apply checked_fixed; lra.
  - intros Hd. rewrite Hc. unfold checked.
    destruct Hd as [Hd | Hd]; rewrite Hd; simpl; [reflexivity | ].
    destruct (Req_dec_T (sigmaP p) 0); [lra | reflexivity].
Qed.

(** C6.  For each of the four lifetime pairs (T, EE, ER, EI), with tau > 0
    and sigma > 0, [checkpars] sets the stage count to
    max(1, round((tau/sigma)^2)) and then overwrites sigma with
    sqrt(tau^2/n); each pair is derived from its own tau and sigma only, and
    no tau is changed. *)
Theorem checkpars_four_pairs (p : _Par) :
  0 < tauT p -> 0 < sigmaT p -> 0 < tauEE p -> 0 < sigmaEE p ->
  0 < tauER p -> 0 < sigmaER p -> 0 < tauEI p -> 0 < sigmaEI p ->
  let p' := fst (checkpars p) in
  (_nT p' = stage_count (tauT p) (sigmaT p)
   /\ sigmaT p' = moment_sigma (tauT p) (_nT p') /\ tauT p' = tauT p)
  /\ (_nEE p' = stage_count (tauEE p) (sigmaEE p)
      /\ sigmaEE p' = moment_sigma (tauEE p) (_nEE p') /\ tauEE p' = tauEE p)
  /\ (_nER p' = stage_count (tauER p) (sigmaER p)
      /\ sigmaER p' = moment_sigma (tauER p) (_nER p') /\ tauER p' = tauER p)
  /\ (_nEI p' = stage_count (tauEI p) (sigmaEI p)
      /\ sigmaEI p' = moment_sigma (tauEI p) (_nEI p') /\ tauEI p' = tauEI p).
Proof.
  intros HtT HsT HtEE HsEE HtER HsER HtEI HsEI p'. subst p'.
  rewrite checkpars_checked by lra.
  unfold checked.
  destruct (py_eq_str (deathtype p) "exp");
    [ | destruct (py_eq_str (deathtype p) "gamma");
        [ destruct (Req_dec_T (sigmaP p) 0) | ] ];
    unfold_after; fields; repeat split; reflexivity.
Qed.

Lemma checkpars_four_pairs_witness :
  let p' := fst (checkpars Par0) in
  (_nT p' = stage_count (tauT Par0) (sigmaT Par0)
   /\ sigmaT p' = moment_sigma (tauT Par0) (_nT p') /\ tauT p' = tauT Par0)
  /\ (_nEE p' = stage_count (tauEE Par0) (sigmaEE Par0)
      /\ sigmaEE p' = moment_sigma (tauEE Par0) (_nEE p')
      /\ tauEE p' = tauEE Par0)
  /\ (_nER p' = stage_count (tauER Par0) (sigmaER Par0)
      /\ sigmaER p' = moment_sigma (tauER Par0) (_nER p')
      /\ tauER p' = tauER Par0)
  /\ (_nEI p' = stage_count (tauEI Par0) (sigmaEI Par0)
      /\ sigmaEI p' = moment_sigma (tauEI Par0) (_nEI p')
      /\ tauEI p' = tauEI Par0).
Proof. apply (checkpars_four_pairs Par0); simpl; lra. Defined.

(** The default pair tau = 6, sigma = 3 gives four stages and sigma 3. *)
Lemma stage_count_6_3 : stage_count 6 3 = 4%nat.
Proof.
  unfold stage_count.
  replace ((6 / 3) ^ 2) with (INR 4) by (simpl; field).
  rewrite py_round_INR. reflexivity.
Qed.

Lemma moment_sigma_6_4 : moment_sigma 6 4 = 3.
Proof.
  unfold moment_sigma.
  replace (6 ^ 2 / INR 4) with (3 ^ 2) by (simpl; field).
  apply sqrt_pow2. lra.
Qed.

(** C7.  With [deathtype] 'exp', [checkpars] returns with the
    productive-phase stage count exactly 1 and sigmaP exactly tauP, whatever
    sigmaP was configured (the four sigmas read before must be non-zero for
    the derivation to reach the productive phase). *)
Theorem checkpars_exp_mode (p : _Par) :
  deathtype p = PyStr "exp" ->
  sigmaT p <> 0 -> sigmaEE p <> 0 -> sigmaER p <> 0 -> sigmaEI p <> 0 ->
  snd (checkpars p) = Returned tt
  /\ _nP (fst (checkpars p)) = 1%nat
  /\ sigmaP (fst (checkpars p)) = tauP p
  /\ tauP (fst (checkpars p)) = tauP p.
Proof.
  intros Hd HT HEE HER HEI.
  rewrite checkpars_checked by assumption.
  unfold checked. rewrite Hd. simpl py_eq_str. cbv iota.
  unfold_after. fields. repeat split; reflexivity.
Qed.

Lemma checkpars_exp_mode_witness :
  snd (checkpars (setattr name.sigmaP 0 Par0)) = Returned tt
  /\ _nP (fst (checkpars (setattr name.sigmaP 0 Par0))) = 1%nat
  /\ sigmaP (fst (checkpars (setattr name.sigmaP 0 Par0)))
     = tauP (setattr name.sigmaP 0 Par0)
  /\ tauP (fst (checkpars (setattr name.sigmaP 0 Par0)))
     = tauP (setattr name.sigmaP 0 Par0).
Proof.
  apply (checkpars_exp_mode (setattr name.sigmaP 0 Par0));
    simpl; try reflexivity; lra.
Defined.

Lemma deathtype_invalid v :
  v <> PyStr "exp" -> v <> PyStr "gamma" ->
  py_eq_str v "exp" = false /\ py_eq_str v "gamma" = false.
Proof. intros H1 H2. split; apply py_eq_str_false; assumption. Qed.

(** C8.  For every [deathtype] other than 'exp' and 'gamma', [checkpars]
    does not return: it raises, [SystemExit] from [sys.exit()] whenever the
    four derivations before it went through (non-zero sigmas), and the script
    body stops there, whatever follows [checkpars()] (the integration
    included) is not run. *)
Theorem checkpars_invalid_deathtype (p : _Par) :
  deathtype p <> PyStr "exp" -> deathtype p <> PyStr "gamma" ->
  (exists p' e, checkpars p = (p', Raised e)
                /\ (e = SystemExit \/ e = ZeroDivisionError)
                /\ forall (A : Type) (rest : M A),
                     run_once rest p = (p', Raised e))
  /\ (sigmaT p <> 0 -> sigmaEE p <> 0 -> sigmaER p <> 0 -> sigmaEI p <> 0 ->
      snd (checkpars p) = Raised SystemExit).
Proof.
  intros H1 H2.
  destruct (deathtype_invalid _ H1 H2) as [Hexp Hgam].
  split.
  - destruct (checkpars_invalid_mode p Hexp Hgam) as (p' & e & E & He).
    exists p', e. repeat split; try assumption.
    intros A rest. unfold run_once. apply bind_raised. exact E.
  - intros HT HEE HER HEI. rewrite checkpars_checked by assumption.
    unfold checked. rewrite Hexp, Hgam. reflexivity.
Qed.

Lemma checkpars_invalid_deathtype_witness :
  (exists p' e,
      checkpars (setattr name.deathtype 1 Par0) = (p', Raised e)
      /\ (e = SystemExit \/ e = ZeroDivisionError)
      /\ forall (A : Type) (rest : M A),
           run_once rest (setattr name.deathtype 1 Par0) = (p', Raised e))
  /\ (sigmaT (setattr name.deathtype 1 Par0) <> 0 ->
      sigmaEE (setattr name.deathtype 1 Par0) <> 0 ->
      sigmaER (setattr name.deathtype 1 Par0) <> 0 ->
      sigmaEI (setattr name.deathtype 1 Par0) <> 0 ->
      snd (checkpars (setattr name.deathtype 1 Par0)) = Raised SystemExit).
Proof.
  apply (checkpars_invalid_deathtype (setattr name.deathtype 1 Par0));
    simpl; discriminate.
Defined.

(** ** [setpars] *)

Lemma py_float_cases literal v p :
  (exists x, py_float literal v p = (p, Returned x))
  \/ (py_float literal v p = (p, Raised ValueError)
      /\ exists st, v = PyStr st /\ float_of_str literal st = None).
Proof.
  destruct v as [st | z | x]; simpl.
  - destruct (float_of_str literal st) as [x | ] eqn:E.
    + left. exists x. reflexivity.
    + right. split; [reflexivity | ]. exists st. split; [reflexivity | exact E].
  - left. exists (IZR z). reflexivity.
  - left. exists x. reflexivity.
Qed.

Lemma py_float_str_none literal st p :
  float_of_str literal st = None ->
  py_float literal (PyStr st) p = (p, Raised ValueError).
Proof. intros E. simpl. rewrite E. reflexivity. Qed.

(** The loop of [setpars] either returns or raises [ValueError]. *)
Lemma setpars_loop_outcome literal kwdargs p :
  snd (setpars_loop literal kwdargs p) = Returned tt
  \/ snd (setpars_loop literal kwdargs p) = Raised ValueError.
Proof.
  revert p. induction kwdargs as [ | [kw v] rest IH]; intros p.
  - left. reflexivity.
  - simpl. destruct (py_float_cases literal v p) as [[x E] | [E _]].
    + rewrite (bind_returned _ _ _ _ _ _ E eq_refl).
      rewrite (bind_returned _ _ _ _ _ _ (eq_refl : modify _ _ = _) eq_refl).
      apply IH.
    + rewrite (bind_raised _ _ _ _ _ E). right. reflexivity.
Qed.

(** A value that [float] rejects makes the loop raise. *)
Lemma setpars_loop_reject literal kwdargs p kw st :
  In (kw, PyStr st) kwdargs -> float_of_str literal st = None ->
  snd (setpars_loop literal kwdargs p) = Raised ValueError.
Proof.
  intros Hin Hnone. revert p.
  induction kwdargs as [ | [kw' v] rest IH]; intros p; [contradiction | ].
  simpl. destruct (py_float_cases literal v p) as [[x E] | [E _]].
  - rewrite (bind_returned _ _ _ _ _ _ E eq_refl).
    rewrite (bind_returned _ _ _ _ _ _ (eq_refl : modify _ _ = _) eq_refl).
    destruct Hin as [Heq | Hin].
    + inversion Heq; subst. rewrite py_float_str_none in E by assumption.
      discriminate.
    + apply IH, Hin.
  - rewrite (bind_raised _ _ _ _ _ E). reflexivity.
Qed.

(** What the loop can leave in [deathtype]: what was there, or a float. *)
Lemma setpars_loop_deathtype literal kwdargs p :
  deathtype (fst (setpars_loop literal kwdargs p)) = deathtype p
  \/ exists x, deathtype (fst (setpars_loop literal kwdargs p)) = PyFloat x.
Proof.
  revert p. induction kwdargs as [ | [kw v] rest IH]; intros p.
  - left. reflexivity.
  - simpl. destruct (py_float_cases literal v p) as [[x E] | [E _]].
    + rewrite (bind_returned _ _ _ _ _ _ E eq_refl).
      rewrite (bind_returned _ _ _ _ _ _ (eq_refl : modify _ _ = _) eq_refl).
      destruct (IH (setattr kw x p)) as [H | H]; [ | right; exact H].
      rewrite H. destruct kw; try (left; reflexivity).
      right. exists x. reflexivity.
    + rewrite (bind_raised _ _ _ _ _ E). left. reflexivity.
Qed.

(** A completed loop over keywords that name [deathtype] leaves a float. *)
Lemma setpars_loop_sets_float literal kwdargs p v :
  In (name.deathtype, v) kwdargs ->
  snd (setpars_loop literal kwdargs p) = Returned tt ->
  exists x, deathtype (fst (setpars_loop literal kwdargs p)) = PyFloat x.
Proof.
  intros Hin. revert p.
  induction kwdargs as [ | [kw v'] rest IH]; intros p; [contradiction | ].
  simpl. destruct (py_float_cases literal v' p) as [[x E] | [E _]].
  - rewrite (bind_returned _ _ _ _ _ _ E eq_refl).
    rewrite (bind_returned _ _ _ _ _ _ (eq_refl : modify _ _ = _) eq_refl).
    intros Hret. destruct Hin as [Heq | Hin].
    + inversion Heq; subst.
      destruct (setpars_loop_deathtype literal rest (setattr name.deathtype x p))
        as [H | H]; [ | exact H].
      exists x. rewrite H. reflexivity.
    + apply (IH Hin). exact Hret.
  - rewrite (bind_raised _ _ _ _ _ E). discriminate.
Qed.

Lemma float_of_str_gamma literal : float_of_str literal "gamma" = None.
Proof. reflexivity. Qed.

(** [setpars] can only leave in [deathtype] what was there, or a float. *)
Lemma setpars_deathtype_kept literal kwdargs p :
  deathtype (fst (setpars literal kwdargs p)) = deathtype p
  \/ exists x, deathtype (fst (setpars literal kwdargs p)) = PyFloat x.
Proof.
  unfold setpars, bind.
  pose proof (setpars_loop_deathtype literal kwdargs p) as H.
  destruct (setpars_loop literal kwdargs p) as [p1 [[] | e | ]]; fields;
    try exact H.
  rewrite checkpars_deathtype. exact H.
Qed.

(** C10.  [setpars] passes every value through [float] before it assigns.
    So a call that names [deathtype] never returns: with a string that
    [float] rejects ('gamma' is one, whatever the literal parser accepts) it
    raises [ValueError]; with a value that converts, [deathtype] becomes a
    float and [checkpars] refuses it ([SystemExit] once the four derivations
    before the mode test went through).  After any call [deathtype] is
    'gamma' only if it was 'gamma' before: the gamma variant is selected by
    assigning the attribute, not through the setter. *)
Theorem setpars_deathtype (literal : string -> option R)
    (kwdargs : list (name.t * pyval)) (p : _Par) (v : pyval) :
  In (name.deathtype, v) kwdargs ->
  (exists p' e, setpars literal kwdargs p = (p', Raised e)
                /\ (e = ValueError \/ e = SystemExit \/ e = ZeroDivisionError))
  /\ (forall st, v = PyStr st -> float_of_str literal st = None ->
        snd (setpars literal kwdargs p) = Raised ValueError)
  /\ float_of_str literal "gamma" = None
  /\ (snd (setpars_loop literal kwdargs p) = Returned tt ->
      let p1 := fst (setpars_loop literal kwdargs p) in
      (exists x, deathtype p1 = PyFloat x)
      /\ (sigmaT p1 <> 0 -> sigmaEE p1 <> 0 -> sigmaER p1 <> 0 ->
          sigmaEI p1 <> 0 ->
          snd (setpars literal kwdargs p) = Raised SystemExit))
  /\ (deathtype (fst (setpars literal kwdargs p)) = PyStr "gamma" ->
      deathtype p = PyStr "gamma").
Proof.
  intros Hin.
  assert (Hfloat : snd (setpars_loop literal kwdargs p) = Returned tt ->
            exists x, deathtype (fst (setpars_loop literal kwdargs p)) = PyFloat x)
    by (apply setpars_loop_sets_float with (v := v); exact Hin).
  repeat split.
  - pose proof (setpars_loop_outcome literal kwdargs p) as Ho.
    unfold setpars.
    destruct (setpars_loop literal kwdargs p) as [p1 o] eqn:E. fields.
    destruct Ho as [Ho | Ho]; subst o.
    + destruct (Hfloat eq_refl) as [x Hx].
      destruct (checkpars_invalid_mode p1) as (p' & e & Ec & He);
        try (rewrite Hx; reflexivity).
      exists p', e. split; [ | tauto].
      apply (bind_returned _ _ _ _ _ _ E). exact Ec.
    + exists p1, ValueError. split; [ | tauto].
      apply (bind_raised _ _ _ _ _ E).
  - intros st Hv Hnone. subst v.
    pose proof (setpars_loop_reject literal kwdargs p _ _ Hin Hnone) as Ho.
    unfold setpars.
    destruct (setpars_loop literal kwdargs p) as [p1 o] eqn:E. fields.
    subst o. rewrite (bind_raised _ _ _ _ _ E). reflexivity.
  - apply Hfloat. assumption.
  - intros HT HEE HER HEI.
    destruct (Hfloat H) as [x Hx].
    unfold setpars.
    destruct (setpars_loop literal kwdargs p) as [p1 o] eqn:E. fields.
    subst o. rewrite (bind_returned _ _ _ _ _ _ E eq_refl).
    rewrite checkpars_checked by assumption.
    unfold checked. rewrite Hx. reflexivity.
  - intros Hg.
    destruct (setpars_deathtype_kept literal kwdargs p) as [H | [x H]].
    + rewrite <- H. exact Hg.
    + rewrite H in Hg. discriminate.
Qed.

Lemma setpars_deathtype_witness :
  snd (setpars (fun _ => None) [(name.deathtype, PyStr "gamma")] Par0)
  = Raised ValueError
  /\ deathtype (fst (setpars (fun _ => None)
                       [(name.deathtype, PyStr "gamma")] Par0))
     = PyStr "exp".
Proof.
  destruct (setpars_deathtype (fun _ => None)
              [(name.deathtype, PyStr "gamma")] Par0 (PyStr "gamma"))
    as (_ & Hrej & _).
  - left. reflexivity.
  - split.
    + apply (Hrej "gamma"%string); reflexivity.
    + reflexivity.
Defined.

(** ** [getsummarydata] *)

Lemma Rsum_zeros l : Forall (fun x => x = 0) l -> Rsum l = 0.
Proof.
  induction 1 as [ | x l Hx _ IH]; simpl; [reflexivity | ].
  rewrite Hx, IH. lra.
Qed.

Lemma Forall_firstn {A} (P : A -> Prop) k l :
  Forall P l -> Forall P (firstn k l).
Proof.
  intros H. revert k. induction H as [ | x l Hx _ IH]; intros [ | k]; simpl;
    constructor; auto.
Qed.

Lemma Forall_skipn {A} (P : A -> Prop) k l :
  Forall P l -> Forall P (skipn k l).
Proof.
  intros H. revert k. induction H as [ | x l Hx Hl IH]; intros [ | k]; simpl;
    auto.
Qed.

Lemma Forall_slice {A} (P : A -> Prop) a b l :
  Forall P l -> Forall P (slice a b l).
Proof. intros H. apply Forall_skipn, Forall_firstn, H. Qed.

Lemma zeros_Forall k : Forall (fun x => x = 0) (repeat 0 k).
Proof. induction k; simpl; constructor; auto. Qed.

Lemma clip0_zero : clip0 0 = 0.
Proof. unfold clip0. destruct (Rlt_dec 0 0); reflexivity. Qed.

Lemma liveinf_zeros l idx (f g : nat -> nat) :
  Forall (fun x => x = 0) l ->
  for_ idx (fun j acc => acc + Rsum (slice (f j) (g j) l)) 0 = 0.
Proof.
  intros Hl. unfold for_.
  assert (H : forall acc, acc = 0 ->
            fold_left (fun st i => st + Rsum (slice (f i) (g i) l)) idx acc = 0).
  { induction idx as [ | i idx IH]; intros acc Hacc; simpl; [exact Hacc | ].
    apply IH. rewrite Hacc, (Rsum_zeros (slice (f i) (g i) l)); [lra | ].
    apply Forall_slice, Hl. }
  apply H. reflexivity.
Qed.

(** C4, evaluated.  On a time point whose state is all zeros the reducer
    returns total 0, dead 0 and dead-fraction-of-infected 0, but the infected
    fraction is numpy's 0.0/0.0, which is [nan]: the division by the total is
    not guarded as the division by the infected count is. *)
Theorem getsummarydata_zero_state (p : _Par) (t : R) (n : nat) :
  getsummarydata [t] [repeat 0 (S n)] p
  = (p, Returned [[Fin 0; Fin 0; NaN; Fin 0]]).
Proof.
  unfold getsummarydata. cbn [length summary_rows repeat].
  change (0 :: repeat 0 n) with (repeat 0 (S n)).
  unfold summary_row.
  pose proof (zeros_Forall (S n)) as Hz.
  rewrite (Rsum_zeros _ Hz).
  rewrite (Rsum_zeros _ (Forall_skipn _ (length (repeat 0 (S n)) - 2) _ Hz)).
  rewrite liveinf_zeros by exact Hz.
  assert (Hlast : nth (length (repeat 0 (S n)) - 1) (repeat 0 (S n)) 0 = 0).
  { rewrite nth_repeat. reflexivity. }
  rewrite Hlast, clip0_zero.
  unfold np_div.
  replace (0 + 0) with 0 by lra.
  destruct (Req_dec_T 0 0) as [_ | H]; [ | exfalso; apply H; reflexivity].
  destruct (Rlt_dec 0 0) as [H | _]; [lra | ].
  reflexivity.
Qed.

(** ** Arrays: writes in index order fill the array from the left *)

Lemma upd_cursor {A} (done : list A) k v x rest :
  k = length done -> upd k v (done ++ x :: rest) = (done ++ [v]) ++ rest.
Proof.
  intros ->. induction done as [ | y done IH]; simpl; [reflexivity | ].
  rewrite IH. reflexivity.
Qed.

Lemma for_fill {A} (f : nat -> A) (x : A) base n : forall a done rest,
  length done = (base + a)%nat ->
  for_ (seq a n) (fun j d => upd (base + j) (f j) d)
    (done ++ repeat x n ++ rest)
  = (done ++ map f (seq a n)) ++ rest.
Proof.
  unfold for_. induction n as [ | n IH]; intros a done rest Hlen; simpl.
  - rewrite app_nil_r. reflexivity.
  - rewrite upd_cursor by (symmetry; exact Hlen).
    rewrite IH by (rewrite length_app; simpl; lia).
    rewrite <- !app_assoc. reflexivity.
Qed.

(** The outer loop: segment after segment. *)
Lemma for_rows (body : nat -> list R -> list R) (rowf : nat -> list R)
    (ncolL : nat) :
  (forall i done rest, length done = (ncolL * i)%nat ->
     body i (done ++ repeat 0 ncolL ++ rest) = done ++ rowf i ++ rest) ->
  (forall i, length (rowf i) = ncolL) ->
  forall n a done rest,
  length done = (ncolL * a)%nat ->
  for_ (seq a n) body (done ++ repeat 0 (n * ncolL) ++ rest)
  = done ++ concat (map rowf (seq a n)) ++ rest.
Proof.
  intros Hbody Hlen. unfold for_.
  induction n as [ | n IH]; intros a done rest Hd; simpl; [reflexivity | ].
  rewrite repeat_app, <- app_assoc.
  rewrite Hbody by exact Hd.
  rewrite app_assoc.
  rewrite IH by (rewrite length_app, Hlen; lia).
  rewrite <- !app_assoc. reflexivity.
Qed.

Lemma front_row_length p deltaT deltaEE deltaER deltaEI Virus live i :
  (1 <= _nEE p)%nat -> (1 <= _nER p)%nat -> (1 <= _nEI p)%nat ->
  length (front_row p deltaT deltaEE deltaER deltaEI Virus live i)
  = (1 + _nEE p + _nER p + _nEI p)%nat.
Proof.
  intros H1 H2 H3. unfold front_row. cbv zeta.
  repeat (rewrite length_app || rewrite length_map || rewrite length_seq).
  simpl. lia.
Qed.

Lemma expP_row_length p deltaT deltaEE deltaER deltaEI Virus live i :
  (1 <= _nEE p)%nat -> (1 <= _nER p)%nat -> (1 <= _nEI p)%nat ->
  length (expP_row p deltaT deltaEE deltaER deltaEI Virus live i)
  = (_nEE p + _nER p + _nEI p + 2)%nat.
Proof.
  intros H1 H2 H3. unfold expP_row. cbv zeta.
  rewrite length_app, front_row_length by assumption. simpl. lia.
Qed.

Lemma gammaP_row_length p deltaT deltaEE deltaER deltaEI deltaP Virus live i :
  (1 <= _nEE p)%nat -> (1 <= _nER p)%nat -> (1 <= _nEI p)%nat ->
  (1 <= _nP p)%nat ->
  length (gammaP_row p deltaT deltaEE deltaER deltaEI deltaP Virus live i)
  = (1 + _nEE p + _nER p + _nEI p + _nP p)%nat.
Proof.
  intros H1 H2 H3 H4. unfold gammaP_row. cbv zeta.
  rewrite !length_app, front_row_length by assumption.
  rewrite length_map, length_seq. simpl. lia.
Qed.
Lemma zeros_split_exp nEE nER nEI (rest : list R) :
  (1 <= nEE)%nat -> (1 <= nER)%nat -> (1 <= nEI)%nat ->
  repeat 0 (nEE + nER + nEI + 2) ++ rest
  = 0 :: 0 :: repeat 0 (nEE - 1) ++ 0 :: repeat 0 (nER - 1)
      ++ 0 :: repeat 0 (nEI - 1) ++ 0 :: rest.
Proof.
  intros H1 H2 H3.
  replace (nEE + nER + nEI + 2)%nat
    with (2 + ((nEE - 1) + (1 + ((nER - 1) + (1 + ((nEI - 1) + 1))))))%nat
    by lia.
  rewrite !repeat_app. cbn [repeat app].
  repeat (rewrite <- !app_assoc; cbn [app]). reflexivity.
Qed.

Lemma zeros_split_gamma nEE nER nEI nP (rest : list R) :
  (1 <= nEE)%nat -> (1 <= nER)%nat -> (1 <= nEI)%nat -> (1 <= nP)%nat ->
  repeat 0 (1 + nEE + nER + nEI + nP) ++ rest
  = 0 :: 0 :: repeat 0 (nEE - 1) ++ 0 :: repeat 0 (nER - 1)
      ++ 0 :: repeat 0 (nEI - 1) ++ 0 :: repeat 0 (nP - 1) ++ rest.
Proof.
  intros H1 H2 H3 H4.
  replace (1 + nEE + nER + nEI + nP)%nat
    with (2 + ((nEE - 1) + (1 + ((nER - 1) + (1 + ((nEI - 1)
               + (1 + (nP - 1))))))))%nat
    by lia.
  rewrite !repeat_app. cbn [repeat app].
  repeat (rewrite <- !app_assoc; cbn [app]). reflexivity.
Qed.

Ltac fill_len :=
  repeat (rewrite length_app || rewrite length_map || rewrite length_seq);
  cbn [length]; lia.

Lemma expP_body_fill p deltaT deltaEE deltaER deltaEI Virus live i done rest :
  (1 <= _nEE p)%nat -> (1 <= _nER p)%nat -> (1 <= _nEI p)%nat ->
  length done = ((_nEE p + _nER p + _nEI p + 2) * i)%nat ->
  expP_body p deltaT deltaEE deltaER deltaEI Virus live i
    (done ++ repeat 0 (_nEE p + _nER p + _nEI p + 2) ++ rest)
  = done ++ expP_row p deltaT deltaEE deltaER deltaEI Virus live i ++ rest.
Proof.
  intros H1 H2 H3 Hlen.
  unfold expP_body. cbv zeta.
  rewrite zeros_split_exp by assumption.
  rewrite upd_cursor by fill_len.
  rewrite upd_cursor by fill_len.
  rewrite for_fill by fill_len.
  rewrite upd_cursor by fill_len.
  rewrite for_fill by fill_len.
  rewrite upd_cursor by fill_len.
  rewrite for_fill by fill_len.
  rewrite upd_cursor by fill_len.
  unfold expP_row, front_row, chain_first, chain_next. cbv zeta.
  rewrite <- !app_assoc. reflexivity.
Qed.

Lemma gammaP_body_fill p deltaT deltaEE deltaER deltaEI deltaP Virus live i
    done rest :
  (1 <= _nEE p)%nat -> (1 <= _nER p)%nat -> (1 <= _nEI p)%nat ->
  (1 <= _nP p)%nat ->
  length done = ((1 + _nEE p + _nER p + _nEI p + _nP p) * i)%nat ->
  gammaP_body p deltaT deltaEE deltaER deltaEI deltaP Virus live i
    (done ++ repeat 0 (1 + _nEE p + _nER p + _nEI p + _nP p) ++ rest)
  = done ++ gammaP_row p deltaT deltaEE deltaER deltaEI deltaP Virus live i
      ++ rest.
Proof.
  intros H1 H2 H3 H4 Hlen.
  unfold gammaP_body. cbv zeta.
  rewrite zeros_split_gamma by assumption.
  rewrite upd_cursor by fill_len.
  rewrite upd_cursor by fill_len.
  rewrite for_fill by fill_len.
  rewrite upd_cursor by fill_len.
  rewrite for_fill by fill_len.
  rewrite upd_cursor by fill_len.
  rewrite for_fill by fill_len.
  rewrite upd_cursor by fill_len.
  rewrite for_fill by fill_len.
  unfold gammaP_row, front_row, chain_first, chain_next. cbv zeta.
  rewrite <- !app_assoc. reflexivity.
Qed.
(** ** The right-hand sides evaluate to their closed forms *)

Lemma live_of_ok nT ncolL X p :
  length X = (nT * ncolL + 2)%nat ->
  live_of nT ncolL X p = (p, Returned (live_array nT ncolL X)).
Proof.
  intros Hlen. unfold live_of.
  assert (H : length (firstn (length X - 2) (clamp X)) = (nT * ncolL)%nat).
  { rewrite length_firstn. unfold clamp. rewrite length_map. lia. }
  rewrite H, Nat.eqb_refl. reflexivity.
Qed.

Lemma np_finite_rows_ok nT p :
  N p <> 0 -> np_finite_rows nT p = (p, Returned tt).
Proof.
  intros H. unfold np_finite_rows, bind, get.
  destruct (Req_dec_T (N p) 0); [contradiction | reflexivity].
Qed.

Lemma dead_entry_ok X k p :
  (k <= length X)%nat ->
  dead_entry X k p = (p, Returned (nth (length X - k) (clamp X) 0)).
Proof.
  intros H. unfold dead_entry.
  destruct (Nat.ltb_spec (length X) k); [lia | reflexivity].
Qed.

Lemma virus_at_ok t p :
  _onset_time p <> 0 -> virus_at t p = (p, Returned (virus p t)).
Proof.
  intros H. unfold virus_at, virus.
  eapply bind_returned; [reflexivity | cbv beta].
  destruct (Rlt_dec t 0).
  - eapply bind_returned; [apply fdiv_ok | reflexivity].
    apply Rmult_integral_contrapositive_currified; [lra | ].
    apply pow_nonzero, H.
  - destruct (Rlt_dec t 24); [reflexivity | ].
    destruct (Req_dec_T (onedaydilution p) 0); reflexivity.
Qed.

Lemma drug_rate_ok n tau t action p :
  tau <> 0 -> _onset_time p <> 0 ->
  (if Rlt_dec t action then fdiv (INR n) tau
   else r <- fdiv (INR n) tau ;;
        e <- fdiv (- (t - action) ^ 2) (2 * _onset_time p ^ 2) ;;
        ret (r * exp e)) p
  = (p, Returned (drug_rate n tau t action (_onset_time p))).
Proof.
  intros Ht Ho. unfold drug_rate.
  destruct (Rlt_dec t action).
  - apply fdiv_ok, Ht.
  - eapply bind_returned; [apply fdiv_ok, Ht | cbv beta].
    eapply bind_returned; [apply fdiv_ok | reflexivity].
    apply Rmult_integral_contrapositive_currified; [lra | ].
    apply pow_nonzero, Ho.
Qed.

Lemma rows_then_dead (rows : list R) v w :
  upd (length (upd (length (rows ++ [0; 0]) - 2) v (rows ++ [0; 0])) - 1) w
    (upd (length (rows ++ [0; 0]) - 2) v (rows ++ [0; 0]))
  = rows ++ [v; w].
Proof.
  assert (H1 : upd (length (rows ++ [0; 0]) - 2) v (rows ++ [0; 0])
               = (rows ++ [v]) ++ [0]).
  { apply upd_cursor. rewrite length_app. simpl. lia. }
  rewrite H1.
  rewrite upd_cursor by (rewrite !length_app; simpl; lia).
  rewrite <- !app_assoc. reflexivity.
Qed.

Lemma expP_loop p deltaT deltaEE deltaER deltaEI Virus live :
  (1 <= _nEE p)%nat -> (1 <= _nER p)%nat -> (1 <= _nEI p)%nat ->
  for_ (seq 0 (_nT p))
    (expP_body p deltaT deltaEE deltaER deltaEI Virus live)
    (repeat 0 (_nT p * (_nEE p + _nER p + _nEI p + 2) + 2))
  = concat (map (expP_row p deltaT deltaEE deltaER deltaEI Virus live)
              (seq 0 (_nT p))) ++ [0; 0].
Proof.
  intros H1 H2 H3.
  rewrite repeat_app.
  change (for_ (seq 0 (_nT p))
            (expP_body p deltaT deltaEE deltaER deltaEI Virus live)
            ([] ++ repeat 0 (_nT p * (_nEE p + _nER p + _nEI p + 2))
                ++ repeat 0 2)
          = [] ++ concat (map (expP_row p deltaT deltaEE deltaER deltaEI
                                 Virus live) (seq 0 (_nT p))) ++ [0; 0]).
  apply for_rows.
  - intros i done rest Hd. apply expP_body_fill; assumption.
  - intros i. apply expP_row_length; assumption.
  - simpl. lia.
Qed.

Lemma gammaP_loop p deltaT deltaEE deltaER deltaEI deltaP Virus live :
  (1 <= _nEE p)%nat -> (1 <= _nER p)%nat -> (1 <= _nEI p)%nat ->
  (1 <= _nP p)%nat ->
  for_ (seq 0 (_nT p))
    (gammaP_body p deltaT deltaEE deltaER deltaEI deltaP Virus live)
    (repeat 0 (_nT p * (1 + _nEE p + _nER p + _nEI p + _nP p) + 2))
  = concat (map (gammaP_row p deltaT deltaEE deltaER deltaEI deltaP
                   Virus live) (seq 0 (_nT p))) ++ [0; 0].
Proof.
  intros H1 H2 H3 H4.
  rewrite repeat_app.
  change (for_ (seq 0 (_nT p))
            (gammaP_body p deltaT deltaEE deltaER deltaEI deltaP Virus live)
            ([] ++ repeat 0 (_nT p * (1 + _nEE p + _nER p + _nEI p + _nP p))
                ++ repeat 0 2)
          = [] ++ concat (map (gammaP_row p deltaT deltaEE deltaER deltaEI
                                 deltaP Virus live) (seq 0 (_nT p)))
               ++ [0; 0]).
  apply for_rows.
  - intros i done rest Hd. apply gammaP_body_fill; assumption.
  - intros i. apply gammaP_row_length; assumption.
  - simpl. lia.
Qed.

(** [_ode_expP] returns, leaves the class alone, and its value is the
    closed form. *)
Lemma _ode_expP_closed p X t :
  stages_ok p -> scales_ok p -> layout_exp p X ->
  _ode_expP X t p = (p, Returned (expP_closed p X t)).
Proof.
  intros (HnT & HnEE & HnER & HnEI & HnP)
         (HtT & HtEE & HtER & HtEI & HtP & HN & Hon) Hlay.
  unfold layout_exp in Hlay.
  unfold _ode_expP.
  eapply bind_returned; [reflexivity | cbv beta].
  eapply bind_returned; [apply fdiv_ok, HtT | cbv beta].
  eapply bind_returned; [apply fdiv_ok, HtEI | cbv beta].
  cbv zeta.
  eapply bind_returned; [apply drug_rate_ok; assumption | cbv beta].
  eapply bind_returned; [apply drug_rate_ok; assumption | cbv beta].
  eapply bind_returned; [apply virus_at_ok; assumption | cbv beta].
  eapply bind_returned; [apply live_of_ok; exact Hlay | cbv beta].
  eapply bind_returned; [apply np_finite_rows_ok; assumption | cbv beta].
  eapply bind_returned; [apply dead_entry_ok; lia | cbv beta].
  eapply bind_returned; [apply dead_entry_ok; lia | cbv beta].
  unfold ret. f_equal. f_equal.
  rewrite expP_loop by assumption.
  rewrite rows_then_dead. reflexivity.
Qed.

Lemma _ode_gammaP_closed p X t :
  stages_ok p -> scales_ok p -> layout_gamma p X ->
  _ode_gammaP X t p = (p, Returned (gammaP_closed p X t)).
Proof.
  intros (HnT & HnEE & HnER & HnEI & HnP)
         (HtT & HtEE & HtER & HtEI & HtP & HN & Hon) Hlay.
  unfold layout_gamma in Hlay.
  unfold _ode_gammaP.
  eapply bind_returned; [reflexivity | cbv beta].
  eapply bind_returned; [apply fdiv_ok, HtT | cbv beta].
  eapply bind_returned; [apply fdiv_ok, HtEE | cbv beta].
  eapply bind_returned; [apply fdiv_ok, HtER | cbv beta].
  eapply bind_returned; [apply fdiv_ok, HtEI | cbv beta].
  eapply bind_returned; [apply fdiv_ok, HtP | cbv beta].
  cbv zeta.
  eapply bind_returned; [apply virus_at_ok; assumption | cbv beta].
  eapply bind_returned; [apply live_of_ok; exact Hlay | cbv beta].
  eapply bind_returned; [apply np_finite_rows_ok; assumption | cbv beta].
  eapply bind_returned; [apply dead_entry_ok; lia | cbv beta].
  eapply bind_returned; [apply dead_entry_ok; lia | cbv beta].
  unfold ret. f_equal. f_equal.
  rewrite gammaP_loop by assumption.
  rewrite rows_then_dead. reflexivity.
Qed.
(** ** Sums *)

Lemma Rsum_app l1 l2 : Rsum (l1 ++ l2) = Rsum l1 + Rsum l2.
Proof.
  induction l1 as [ | x l1 IH]; simpl; [lra | ]. rewrite IH. lra.
Qed.

Lemma Rsum_concat ll : Rsum (concat ll) = Rsum (map Rsum ll).
Proof.
  induction ll as [ | l ll IH]; simpl; [reflexivity | ].
  rewrite Rsum_app, IH. reflexivity.
Qed.

Lemma Sig_0 f a : Sig f a 0 = 0.
Proof. reflexivity. Qed.

Lemma Sig_S f a n : Sig f a (S n) = f a + Sig f (S a) n.
Proof. reflexivity. Qed.

Lemma Sig_snoc f a n : Sig f a (S n) = Sig f a n + f (a + n)%nat.
Proof.
  unfold Sig. rewrite seq_S, map_app, Rsum_app. simpl. lra.
Qed.

Lemma Sig_app f a n m : Sig f a (n + m) = Sig f a n + Sig f (a + n) m.
Proof.
  unfold Sig. rewrite seq_app, map_app, Rsum_app. reflexivity.
Qed.

Lemma Sig_ext f g a n :
  (forall j, (a <= j < a + n)%nat -> f j = g j) -> Sig f a n = Sig g a n.
Proof.
  revert a. induction n as [ | n IH]; intros a H; [reflexivity | ].
  rewrite !Sig_S. rewrite (H a) by lia. rewrite (IH (S a)); [reflexivity | ].
  intros j Hj. apply H. lia.
Qed.

Lemma Sig_plus f g a n :
  Sig (fun j => f j + g j) a n = Sig f a n + Sig g a n.
Proof.
  revert a. induction n as [ | n IH]; intros a; [rewrite !Sig_0; lra | ].
  rewrite !Sig_S, IH. lra.
Qed.

Lemma Sig_scal k f a n : Sig (fun j => k * f j) a n = k * Sig f a n.
Proof.
  revert a. induction n as [ | n IH]; intros a; [rewrite !Sig_0; lra | ].
  rewrite !Sig_S, IH. lra.
Qed.

Lemma Sig_nonneg f a n :
  (forall j, (a <= j < a + n)%nat -> 0 <= f j) -> 0 <= Sig f a n.
Proof.
  revert a. induction n as [ | n IH]; intros a H; [rewrite Sig_0; lra | ].
  rewrite Sig_S.
  assert (0 <= f a) by (apply H; lia).
  assert (0 <= Sig f (S a) n) by (apply IH; intros j Hj; apply H; lia).
  lra.
Qed.

(** Differences of neighbours telescope. *)
Lemma Sig_telescope (T : nat -> R) a n :
  Sig (fun i => T i - T (i + 1)%nat) a n = T a - T (a + n)%nat.
Proof.
  induction n as [ | n IH].
  - rewrite Sig_0, Nat.add_0_r. lra.
  - rewrite Sig_snoc, IH.
    replace (a + n + 1)%nat with (a + S n)%nat by lia. lra.
Qed.

(** A chain of [n] columns starting at column [a]: what flows in, the
    exchange between segments, what leaves the last column, and growth less
    failure and death. *)
Lemma chain_block_sum inflow deltaT delta f d sp (A B : nat -> R) a n :
  chain_first inflow deltaT delta f d sp (A a) (B a)
  + Sig (fun j => chain_next deltaT delta f d sp (A j) (B (j-1)%nat) (B j))
      (a + 1) n
  = inflow + deltaT * (Sig A a (S n) - Sig B a (S n))
    - delta * B (a + n)%nat + (sp - f - d) * Sig B a (S n).
Proof.
  induction n as [ | n IH].
  - rewrite Sig_0, !Sig_S, !Sig_0, Nat.add_0_r. unfold chain_first. ring.
  - rewrite Sig_snoc, <- Rplus_assoc, IH.
    rewrite (Sig_snoc A a (S n)), (Sig_snoc B a (S n)).
    replace (a + 1 + n - 1)%nat with (a + n)%nat by lia.
    replace (a + 1 + n)%nat with (a + S n)%nat by lia.
    unfold chain_next. ring.
Qed.

(** The same for the productive chain of the gamma variant, which has no
    failure term. *)
Lemma prod_block_sum inflow deltaT deltaP d sp (A B : nat -> R) a n :
  (inflow + deltaT * (A a - B a) - deltaP * B a + sp * B a - d * B a)
  + Sig (fun j => deltaT * (A j - B j) + deltaP * (B (j-1)%nat - B j)
                  + sp * B j - d * B j)
      (a + 1) n
  = inflow + deltaT * (Sig A a (S n) - Sig B a (S n))
    - deltaP * B (a + n)%nat + (sp - d) * Sig B a (S n).
Proof.
  induction n as [ | n IH].
  - rewrite Sig_0, !Sig_S, !Sig_0, Nat.add_0_r. ring.
  - rewrite Sig_snoc, <- Rplus_assoc, IH.
    rewrite (Sig_snoc A a (S n)), (Sig_snoc B a (S n)).
    replace (a + 1 + n - 1)%nat with (a + n)%nat by lia.
    replace (a + 1 + n)%nat with (a + S n)%nat by lia.
    ring.
Qed.

(** A slice of a row, summed, in index form. *)
Lemma Rsum_firstn_Sig (r : list R) b :
  (b <= length r)%nat -> Rsum (firstn b r) = Sig (fun j => nth j r 0) 0 b.
Proof.
  revert b. induction r as [ | x r IH]; intros b Hb.
  - simpl in Hb. assert (b = 0%nat) by lia. subst b. reflexivity.
  - destruct b as [ | b]; [reflexivity | ].
    simpl firstn. simpl Rsum. rewrite IH by (simpl in Hb; lia).
    rewrite Sig_S. simpl nth. f_equal.
    unfold Sig. rewrite <- seq_shift, map_map. reflexivity.
Qed.

Lemma Rsum_slice_Sig (r : list R) a n :
  (a + n <= length r)%nat ->
  Rsum (slice a (a + n) r) = Sig (fun j => nth j r 0) a n.
Proof.
  intros H. unfold slice.
  assert (Hs : Rsum (firstn (a + n) r)
               = Rsum (firstn a (firstn (a + n) r))
                 + Rsum (skipn a (firstn (a + n) r))).
  { rewrite <- Rsum_app, firstn_skipn. reflexivity. }
  rewrite firstn_firstn, Nat.min_l in Hs by lia.
  rewrite !Rsum_firstn_Sig in Hs by lia.
  rewrite Sig_app in Hs. simpl in Hs. lra.
Qed.
Lemma Rsum_one x : Rsum [x] = x.
Proof. simpl. lra. Qed.

Lemma Rsum_cons x l : Rsum (x :: l) = x + Rsum l.
Proof. reflexivity. Qed.

Lemma front_row_sum p deltaT deltaEE deltaER deltaEI Virus live i :
  (1 <= _nEE p)%nat -> (1 <= _nER p)%nat -> (1 <= _nEI p)%nat ->
  (1 + _nEE p + _nER p + _nEI p <= length (row live (i+1)))%nat ->
  let A := at_ live i in let B := at_ live (i+1) in
  let m := (1 + _nEE p + _nER p + _nEI p)%nat in
  Rsum (front_row p deltaT deltaEE deltaER deltaEI Virus live i)
  = deltaT * (Sig A 0 m - Sig B 0 m) + s p * Sig B 0 m
    - dEE p * Sig B 1 (_nEE p)
    - dER p * Sig B (_nEE p + 1) (_nER p)
    - dEI p * Sig B (_nEE p + _nER p + 1) (_nEI p)
    - deltaEI * B (_nEE p + _nER p + _nEI p)%nat.
Proof.
  intros H1 H2 H3 Hlen A B m. subst m.
  unfold front_row. cbv zeta. fold A B.
  replace (_nEE p + 1)%nat with (1 + _nEE p)%nat by lia.
  replace (_nEE p + _nER p + 1)%nat with (1 + _nEE p + _nER p)%nat by lia.
  replace (_nEE p + _nER p + _nEI p + 1)%nat
    with (1 + _nEE p + _nER p + _nEI p)%nat by lia.
  replace (_nEE p + 2)%nat with (1 + _nEE p + 1)%nat by lia.
  replace (_nEE p + _nER p + 2)%nat with (1 + _nEE p + _nER p + 1)%nat by lia.
  rewrite (Rsum_slice_Sig _ 1 (_nEE p)) by lia.
  replace (1 + _nEE p + _nER p)%nat with ((1 + _nEE p) + _nER p)%nat by lia.
  rewrite (Rsum_slice_Sig _ (1 + _nEE p) (_nER p)) by lia.
  replace (1 + _nEE p + _nER p + _nEI p)%nat
    with ((1 + _nEE p + _nER p) + _nEI p)%nat by lia.
  rewrite (Rsum_slice_Sig _ (1 + _nEE p + _nER p) (_nEI p)) by lia.
  change (fun j => nth j (row live (i + 1)) 0) with B.
  destruct (_nEE p) as [ | e]; [lia | ].
  destruct (_nER p) as [ | r]; [lia | ].
  destruct (_nEI p) as [ | q]; [lia | ].
  rewrite !Nat.sub_succ, !Nat.sub_0_r.
  repeat (rewrite Rsum_app || rewrite Rsum_one).
  change (Rsum (map ?f (seq ?a ?n))) with (Sig f a n).
  pose proof (chain_block_sum (beta p * B 0%nat * Virus / N p) deltaT deltaEE
                (fEE p) (dEE p) (s p) A B 1 e) as E1.
  pose proof (chain_block_sum (deltaEE * B (S e)) deltaT deltaER
                (fER p) (dER p) (s p) A B (1 + S e) r) as E2.
  pose proof (chain_block_sum (deltaER * B (1 + S e + S r - 1)%nat) deltaT
                deltaEI (fEI p) (dEI p) (s p) A B (1 + S e + S r) q) as E3.
  rewrite !(Sig_app _ 0 (1 + S e + S r) (S q)).
  rewrite !(Sig_app _ 0 (1 + S e) (S r)).
  rewrite !(Sig_app _ 0 1 (S e)).
  rewrite !(Sig_S _ 0 0), !Sig_0.
  cbn [Nat.add Nat.sub] in *. rewrite ?Nat.add_succ_r in *.
  cbn [Nat.add Nat.sub] in *.
  lra.
Qed.

Lemma expP_row_sum p deltaT deltaEE deltaER deltaEI Virus live i :
  (1 <= _nEE p)%nat -> (1 <= _nER p)%nat -> (1 <= _nEI p)%nat ->
  (_nEE p + _nER p + _nEI p + 2 <= length (row live (i+1)))%nat ->
  let A := at_ live i in let B := at_ live (i+1) in
  let m := (_nEE p + _nER p + _nEI p + 2)%nat in
  Rsum (expP_row p deltaT deltaEE deltaER deltaEI Virus live i)
  = deltaT * (Sig A 0 m - Sig B 0 m) + s p * Sig B 0 m
    - dEE p * Sig B 1 (_nEE p)
    - dER p * Sig B (_nEE p + 1) (_nER p)
    - dEI p * Sig B (_nEE p + _nER p + 1) (_nEI p)
    - dP p * B (_nEE p + _nER p + _nEI p + 1)%nat.
Proof.
  intros H1 H2 H3 Hlen A B m. subst m.
  unfold expP_row. cbv zeta. fold A B.
  rewrite Rsum_app, Rsum_one.
  rewrite front_row_sum by (assumption || lia). cbv zeta. fold A B.
  replace (_nEE p + _nER p + _nEI p + 2)%nat
    with (1 + _nEE p + _nER p + _nEI p + 1)%nat by lia.
  rewrite !(Sig_app _ 0 (1 + _nEE p + _nER p + _nEI p) 1).
  rewrite !(Sig_S _ _ 0), !Sig_0.
  replace (_nEE p + _nER p + _nEI p + 1 - 1)%nat
    with (_nEE p + _nER p + _nEI p)%nat by lia.
  replace (0 + (1 + _nEE p + _nER p + _nEI p))%nat
    with (_nEE p + _nER p + _nEI p + 1)%nat by lia.
  lra.
Qed.

Lemma gammaP_row_sum p deltaT deltaEE deltaER deltaEI deltaP Virus live i :
  (1 <= _nEE p)%nat -> (1 <= _nER p)%nat -> (1 <= _nEI p)%nat ->
  (1 <= _nP p)%nat ->
  (1 + _nEE p + _nER p + _nEI p + _nP p <= length (row live (i+1)))%nat ->
  let A := at_ live i in let B := at_ live (i+1) in
  let m := (1 + _nEE p + _nER p + _nEI p + _nP p)%nat in
  Rsum (gammaP_row p deltaT deltaEE deltaER deltaEI deltaP Virus live i)
  = deltaT * (Sig A 0 m - Sig B 0 m) + s p * Sig B 0 m
    - dEE p * Sig B 1 (_nEE p)
    - dER p * Sig B (_nEE p + 1) (_nER p)
    - dEI p * Sig B (_nEE p + _nER p + 1) (_nEI p)
    - dP p * Sig B (_nEE p + _nER p + _nEI p + 1) (_nP p)
    - deltaP * B (_nEE p + _nER p + _nEI p + _nP p)%nat.
Proof.
  intros H1 H2 H3 H4 Hlen A B m. subst m.
  unfold gammaP_row. cbv zeta. fold A B.
  rewrite !Rsum_app, Rsum_one.
  rewrite front_row_sum by (assumption || lia). cbv zeta. fold A B.
  change (Rsum (map ?f (seq ?a ?n))) with (Sig f a n).
  rewrite !(Sig_app _ 0 (1 + _nEE p + _nER p + _nEI p) (_nP p)).
  destruct (_nP p) as [ | w]; [lia | ].
  rewrite Nat.sub_succ, Nat.sub_0_r.
  pose proof (prod_block_sum
                (deltaEI * B (_nEE p + _nER p + _nEI p + 1 - 1)%nat)
                deltaT deltaP (dP p) (s p) A B
                (_nEE p + _nER p + _nEI p + 1) w) as E.
  replace (_nEE p + _nER p + _nEI p + 1 + 1)%nat
    with (_nEE p + _nER p + _nEI p + 2)%nat in E by lia.
  replace (_nEE p + _nER p + _nEI p + 1 - 1)%nat
    with (_nEE p + _nER p + _nEI p)%nat in * by lia.
  replace (0 + (1 + _nEE p + _nER p + _nEI p))%nat
    with (_nEE p + _nER p + _nEI p + 1)%nat by lia.
  replace (_nEE p + _nER p + _nEI p + S w)%nat
    with (_nEE p + _nER p + _nEI p + 1 + w)%nat by lia.
  lra.
Qed.
(** ** The live array, row by row *)

Lemma reshape_length nrow ncol l : length (reshape nrow ncol l) = nrow.
Proof.
  revert l. induction nrow as [ | k IH]; intros l; simpl; [reflexivity | ].
  rewrite IH. reflexivity.
Qed.

Lemma reshape_rows nrow ncol l :
  length l = (nrow * ncol)%nat ->
  Forall (fun r => length r = ncol) (reshape nrow ncol l).
Proof.
  revert l. induction nrow as [ | k IH]; intros l H; simpl; constructor.
  - rewrite length_firstn. simpl in H. lia.
  - apply IH. rewrite length_skipn. simpl in H. lia.
Qed.

Lemma reshape_concat nrow ncol l :
  length l = (nrow * ncol)%nat -> concat (reshape nrow ncol l) = l.
Proof.
  revert l. induction nrow as [ | k IH]; intros l H; simpl.
  - simpl in H. destruct l; [reflexivity | discriminate].
  - rewrite IH by (rewrite length_skipn; simpl in H; lia).
    apply firstn_skipn.
Qed.

Lemma at_succ z rows i j :
  at_ (z :: rows) (i + 1) j = nth j (nth i rows []) 0.
Proof. unfold at_, row. rewrite Nat.add_1_r. reflexivity. Qed.

Lemma row_succ z rows i : row (z :: rows) (i + 1) = nth i rows [].
Proof. unfold row. rewrite Nat.add_1_r. reflexivity. Qed.

Lemma at_zero_row ncol rows j : at_ (repeat 0 ncol :: rows) 0 j = 0.
Proof.
  unfold at_, row. simpl. rewrite nth_repeat. reflexivity.
Qed.

(** A sum over the rows, as a sum over the row index. *)
Lemma Rsum_map_rows (g : list R -> R) (rows : list (list R)) :
  Rsum (map g rows) = Sig (fun i => g (nth i rows [])) 0 (length rows).
Proof.
  induction rows as [ | r rows IH]; [reflexivity | ].
  simpl length. rewrite Sig_S. simpl map. rewrite Rsum_cons, IH.
  simpl nth at 1. f_equal.
  unfold Sig. rewrite <- seq_shift, map_map. reflexivity.
Qed.

Lemma nth_rows_length ncol (rows : list (list R)) i :
  Forall (fun r => length r = ncol) rows -> (i < length rows)%nat ->
  length (nth i rows []) = ncol.
Proof.
  intros HF Hi. rewrite Forall_forall in HF. apply HF, nth_In, Hi.
Qed.

Lemma sum_block_Sig ncol z rows a n :
  Forall (fun r => length r = ncol) rows -> (a + n <= ncol)%nat ->
  sum_block (z :: rows) a (a + n)
  = Sig (fun i => Sig (at_ (z :: rows) (i + 1)) a n) 0 (length rows).
Proof.
  intros HF Hle. unfold sum_block. simpl tl.
  rewrite Rsum_concat, map_map, Rsum_map_rows.
  apply Sig_ext. intros i Hi.
  rewrite Rsum_slice_Sig
    by (rewrite (nth_rows_length ncol) by (assumption || lia); lia).
  apply Sig_ext. intros j _. rewrite at_succ. reflexivity.
Qed.

Lemma sum_col_Sig z rows k :
  sum_col (z :: rows) k
  = Sig (fun i => at_ (z :: rows) (i + 1) k) 0 (length rows).
Proof.
  unfold sum_col. simpl tl. rewrite Rsum_map_rows.
  apply Sig_ext. intros i _. rewrite at_succ. reflexivity.
Qed.

Lemma rows_total_Sig ncol z rows :
  Forall (fun r => length r = ncol) rows ->
  Rsum (concat rows)
  = Sig (fun i => Sig (at_ (z :: rows) (i + 1)) 0 ncol) 0 (length rows).
Proof.
  intros HF. rewrite Rsum_concat, Rsum_map_rows.
  apply Sig_ext. intros i Hi.
  assert (Hl : length (nth i rows []) = ncol)
    by (apply nth_rows_length; assumption || lia).
  rewrite <- (firstn_all (nth i rows [])) at 1.
  rewrite Rsum_firstn_Sig by lia. rewrite Hl.
  apply Sig_ext. intros j _. rewrite at_succ. reflexivity.
Qed.

Lemma Rsum_rows_Sig (rowf : nat -> list R) a n :
  Rsum (concat (map rowf (seq a n))) = Sig (fun i => Rsum (rowf i)) a n.
Proof.
  rewrite Rsum_concat, map_map. reflexivity.
Qed.

Lemma clamp_nonneg X : nonneg X -> clamp X = X.
Proof.
  unfold clamp. induction 1 as [ | x l Hx _ IH]; simpl; [reflexivity | ].
  rewrite IH. destruct (Rlt_dec x 0); [lra | reflexivity].
Qed.
(** ** Mass balance *)

Lemma Sig_zero a n : Sig (fun _ => 0) a n = 0.
Proof.
  revert a. induction n as [ | n IH]; intros a; [reflexivity | ].
  rewrite Sig_S, IH. lra.
Qed.

Lemma Sig_lin6 k0 k1 k2 k3 k4 k5 (F0 F1 F2 F3 F4 F5 : nat -> R) a n :
  Sig (fun i => k0 * F0 i + k1 * F1 i - k2 * F2 i - k3 * F3 i - k4 * F4 i
                - k5 * F5 i) a n
  = k0 * Sig F0 a n + k1 * Sig F1 a n - k2 * Sig F2 a n - k3 * Sig F3 a n
    - k4 * Sig F4 a n - k5 * Sig F5 a n.
Proof.
  revert a. induction n as [ | n IH]; intros a; [rewrite !Sig_0; ring | ].
  rewrite !Sig_S, IH. ring.
Qed.

Lemma Sig_lin7 k0 k1 k2 k3 k4 k5 k6 (F0 F1 F2 F3 F4 F5 F6 : nat -> R) a n :
  Sig (fun i => k0 * F0 i + k1 * F1 i - k2 * F2 i - k3 * F3 i - k4 * F4 i
                - k5 * F5 i - k6 * F6 i) a n
  = k0 * Sig F0 a n + k1 * Sig F1 a n - k2 * Sig F2 a n - k3 * Sig F3 a n
    - k4 * Sig F4 a n - k5 * Sig F5 a n - k6 * Sig F6 a n.
Proof.
  revert a. induction n as [ | n IH]; intros a; [rewrite !Sig_0; ring | ].
  rewrite !Sig_S, IH. ring.
Qed.

Lemma live_row_length nT ncol X i :
  length X = (nT * ncol + 2)%nat -> (i <= nT)%nat ->
  length (row (live_array nT ncol X) i) = ncol.
Proof.
  intros HX Hi. unfold live_array, row.
  destruct i as [ | i]; simpl; [apply repeat_length | ].
  apply nth_rows_length.
  - apply reshape_rows. rewrite length_firstn. unfold clamp.
    rewrite length_map. lia.
  - rewrite reshape_length. lia.
Qed.

Lemma live_total nT ncol X :
  length X = (nT * ncol + 2)%nat ->
  Sig (fun i => Sig (at_ (live_array nT ncol X) (i + 1)) 0 ncol) 0 nT
  = Rsum (firstn (length X - 2) (clamp X)).
Proof.
  intros HX. unfold live_array.
  assert (Hf : length (firstn (length X - 2) (clamp X)) = (nT * ncol)%nat).
  { rewrite length_firstn. unfold clamp. rewrite length_map. lia. }
  pose proof (rows_total_Sig ncol (repeat 0 ncol) _ (reshape_rows nT ncol _ Hf))
    as E.
  rewrite reshape_concat, reshape_length in E by exact Hf.
  symmetry. exact E.
Qed.

Lemma live_block nT ncol X a n :
  length X = (nT * ncol + 2)%nat -> (a + n <= ncol)%nat ->
  sum_block (live_array nT ncol X) a (a + n)
  = Sig (fun i => Sig (at_ (live_array nT ncol X) (i + 1)) a n) 0 nT.
Proof.
  intros HX Hle. unfold live_array.
  rewrite (sum_block_Sig ncol); [rewrite reshape_length; reflexivity | | lia].
  apply reshape_rows. rewrite length_firstn. unfold clamp.
  rewrite length_map. lia.
Qed.

Lemma live_col nT ncol X k :
  sum_col (live_array nT ncol X) k
  = Sig (fun i => at_ (live_array nT ncol X) (i + 1) k) 0 nT.
Proof.
  unfold live_array. rewrite sum_col_Sig, reshape_length. reflexivity.
Qed.

Lemma live_first_row nT ncol X a n :
  Sig (at_ (live_array nT ncol X) 0) a n = 0.
Proof.
  rewrite <- (Sig_zero a n). apply Sig_ext. intros j _.
  unfold live_array. apply at_zero_row.
Qed.

Lemma live_slice nT ncol X i a n :
  length X = (nT * ncol + 2)%nat -> (i <= nT)%nat -> (a + n <= ncol)%nat ->
  Rsum (slice a (a + n) (row (live_array nT ncol X) i))
  = Sig (at_ (live_array nT ncol X) i) a n.
Proof.
  intros HX Hi Hle.
  rewrite Rsum_slice_Sig by (rewrite live_row_length by assumption; lia).
  reflexivity.
Qed.

(** The derivative of the exponential variant sums to growth less
    disintegration, whatever the rates. *)
Lemma expP_with_balance p deltaT deltaEE deltaER deltaEI Virus X :
  (1 <= _nEE p)%nat -> (1 <= _nER p)%nat -> (1 <= _nEI p)%nat ->
  layout_exp p X ->
  Rsum (expP_with p deltaT deltaEE deltaER deltaEI Virus X)
  = s p * Rsum (firstn (length X - 2) (clamp X))
    - dD p * (nth (length X - 2) (clamp X) 0
              + nth (length X - 1) (clamp X) 0).
Proof.
  intros H1 H2 H3 HX. unfold layout_exp in HX.
  unfold expP_with. cbv zeta.
  set (ncol := (_nEE p + _nER p + _nEI p + 2)%nat) in *.
  set (live := live_array (_nT p) ncol X).
  rewrite Rsum_app, Rsum_rows_Sig.
  rewrite (Sig_ext _
    (fun i => deltaT * (Sig (at_ live i) 0 ncol
                        - Sig (at_ live (i + 1)) 0 ncol)
              + s p * Sig (at_ live (i + 1)) 0 ncol
              - dEE p * Sig (at_ live (i + 1)) 1 (_nEE p)
              - dER p * Sig (at_ live (i + 1)) (_nEE p + 1) (_nER p)
              - dEI p * Sig (at_ live (i + 1)) (_nEE p + _nER p + 1) (_nEI p)
              - dP p * at_ live (i + 1) (_nEE p + _nER p + _nEI p + 1))).
  2:{ intros i Hi. apply expP_row_sum; try assumption.
      unfold live. rewrite live_row_length by (assumption || lia).
      unfold ncol. lia. }
  rewrite Sig_lin6.
  rewrite (Sig_telescope (fun i => Sig (at_ live i) 0 ncol)).
  cbv beta. simpl (0 + _nT p)%nat.
  unfold live at 1. rewrite live_first_row. fold live.
  rewrite !Rsum_cons. change (Rsum []) with 0.
  replace (_nEE p + 1)%nat with (1 + _nEE p)%nat by lia.
  replace (_nEE p + _nER p + 1)%nat with (1 + _nEE p + _nER p)%nat by lia.
  replace (_nEE p + _nER p + _nEI p + 1)%nat
    with (0 + (1 + _nEE p + _nER p + _nEI p))%nat by lia.
  unfold live.
  rewrite (live_block _ _ _ 1 (_nEE p)) by (assumption || (unfold ncol; lia)).
  rewrite (live_block _ _ _ (1 + _nEE p) (_nER p))
    by (assumption || (unfold ncol; lia)).
  rewrite (live_block _ _ _ (1 + _nEE p + _nER p) (_nEI p))
    by (assumption || (unfold ncol; lia)).
  rewrite (live_slice _ _ _ _ 0) by (assumption || (unfold ncol; lia)).
  rewrite live_col.
  rewrite live_total by assumption.
  fold live.
  assert (Hsplit : Sig (at_ live (_nT p)) 0 ncol
            = Sig (at_ live (_nT p)) 0 (1 + _nEE p + _nER p + _nEI p)
              + at_ live (_nT p) (0 + (1 + _nEE p + _nER p + _nEI p))).
  { replace ncol with ((1 + _nEE p + _nER p + _nEI p) + 1)%nat
      by (unfold ncol; lia).
    rewrite Sig_app, Sig_S, Sig_0. lra. }
  rewrite Hsplit. lra.
Qed.

Lemma gammaP_with_balance p deltaT deltaEE deltaER deltaEI deltaP Virus X :
  (1 <= _nEE p)%nat -> (1 <= _nER p)%nat -> (1 <= _nEI p)%nat ->
  (1 <= _nP p)%nat ->
  layout_gamma p X ->
  Rsum (gammaP_with p deltaT deltaEE deltaER deltaEI deltaP Virus X)
  = s p * Rsum (firstn (length X - 2) (clamp X))
    - dD p * (nth (length X - 2) (clamp X) 0
              + nth (length X - 1) (clamp X) 0).
Proof.
  intros H1 H2 H3 H4 HX. unfold layout_gamma in HX.
  unfold gammaP_with. cbv zeta.
  set (ncol := (1 + _nEE p + _nER p + _nEI p + _nP p)%nat) in *.
  set (live := live_array (_nT p) ncol X).
  rewrite Rsum_app, Rsum_rows_Sig.
  rewrite (Sig_ext _
    (fun i => deltaT * (Sig (at_ live i) 0 ncol
                        - Sig (at_ live (i + 1)) 0 ncol)
              + s p * Sig (at_ live (i + 1)) 0 ncol
              - dEE p * Sig (at_ live (i + 1)) 1 (_nEE p)
              - dER p * Sig (at_ live (i + 1)) (_nEE p + 1) (_nER p)
              - dEI p * Sig (at_ live (i + 1)) (_nEE p + _nER p + 1) (_nEI p)
              - dP p * Sig (at_ live (i + 1)) (_nEE p + _nER p + _nEI p + 1)
                         (_nP p)
              - deltaP * at_ live (i + 1)
                           (_nEE p + _nER p + _nEI p + _nP p))).
  2:{ intros i Hi. apply gammaP_row_sum; try assumption.
      unfold live. rewrite live_row_length by (assumption || lia).
      unfold ncol. lia. }
  rewrite Sig_lin7.
  rewrite (Sig_telescope (fun i => Sig (at_ live i) 0 ncol)).
  cbv beta. simpl (0 + _nT p)%nat.
  unfold live at 1. rewrite live_first_row. fold live.
  rewrite !Rsum_cons. change (Rsum []) with 0.
  replace (_nEE p + 1)%nat with (1 + _nEE p)%nat by lia.
  replace (_nEE p + _nER p + 1)%nat with (1 + _nEE p + _nER p)%nat by lia.
  replace (_nEE p + _nER p + _nEI p + _nP p + 1)%nat
    with (1 + _nEE p + _nER p + _nEI p + _nP p)%nat by lia.
  replace (_nEE p + _nER p + _nEI p + 1)%nat
    with (1 + _nEE p + _nER p + _nEI p)%nat by lia.
  unfold live.
  rewrite (live_block _ _ _ 1 (_nEE p)) by (assumption || (unfold ncol; lia)).
  rewrite (live_block _ _ _ (1 + _nEE p) (_nER p))
    by (assumption || (unfold ncol; lia)).
  rewrite (live_block _ _ _ (1 + _nEE p + _nER p) (_nEI p))
    by (assumption || (unfold ncol; lia)).
  rewrite (live_block _ _ _ (1 + _nEE p + _nER p + _nEI p) (_nP p))
    by (assumption || (unfold ncol; lia)).
  replace (1 + _nEE p + _nER p + _nEI p)%nat
    with (0 + (1 + _nEE p + _nER p + _nEI p))%nat at 1 by lia.
  rewrite (live_slice _ _ _ _ 0) by (assumption || (unfold ncol; lia)).
  rewrite (live_slice _ _ _ _ (1 + _nEE p + _nER p + _nEI p) (_nP p))
    by (assumption || (unfold ncol; lia)).
  rewrite live_col.
  rewrite live_total by assumption.
  fold live.
  assert (Hsplit : Sig (at_ live (_nT p)) 0 ncol
            = Sig (at_ live (_nT p)) 0 (1 + _nEE p + _nER p + _nEI p)
              + Sig (at_ live (_nT p)) (1 + _nEE p + _nER p + _nEI p)
                  (_nP p)).
  { unfold ncol. rewrite Sig_app. reflexivity. }
  rewrite Hsplit. lra.
Qed.
Lemma Par1_stages : stages_ok Par1.
Proof. unfold stages_ok. simpl. lia. Qed.

Lemma Par1_scales : scales_ok Par1.
Proof. unfold scales_ok. simpl. repeat split; lra. Qed.

(** C9.  Exact mass balance of the right-hand side, either variant: for a
    nonnegative state vector of the variant's layout the call returns, and
    the components of the derivative sum to s times the sum of the live-cell
    entries minus dD times the sum of the two trailing dead scalars. *)
Theorem rhs_mass_balance (p : _Par) (X : list R) (t : R) :
  stages_ok p -> scales_ok p -> nonneg X ->
  (layout_exp p X ->
   exists d, _ode_expP X t p = (p, Returned d)
             /\ Rsum d = s p * Rsum (firstn (length X - 2) X)
                         - dD p * (nth (length X - 2) X 0
                                   + nth (length X - 1) X 0))
  /\ (layout_gamma p X ->
      exists d, _ode_gammaP X t p = (p, Returned d)
                /\ Rsum d = s p * Rsum (firstn (length X - 2) X)
                            - dD p * (nth (length X - 2) X 0
                                      + nth (length X - 1) X 0)).
Proof.
  intros Hst Hsc Hnn.
  pose proof Hst as (HnT & HnEE & HnER & HnEI & HnP).
  split; intros Hlay.
  - exists (expP_closed p X t). split.
    + apply _ode_expP_closed; assumption.
    + unfold expP_closed. rewrite expP_with_balance by assumption.
      rewrite (clamp_nonneg X Hnn). reflexivity.
  - exists (gammaP_closed p X t). split.
    + apply _ode_gammaP_closed; assumption.
    + unfold gammaP_closed. rewrite gammaP_with_balance by assumption.
      rewrite (clamp_nonneg X Hnn). reflexivity.
Qed.

Lemma rhs_mass_balance_witness :
  (exists d, _ode_expP [2; 1; 0; 3; 1; 0; 4] 1 Par1 = (Par1, Returned d)
             /\ Rsum d = s Par1 * Rsum [2; 1; 0; 3; 1]
                         - dD Par1 * (0 + 4))
  /\ (exists d, _ode_gammaP [2; 1; 0; 3; 1; 0; 4] 1 Par1 = (Par1, Returned d)
                /\ Rsum d = s Par1 * Rsum [2; 1; 0; 3; 1]
                            - dD Par1 * (0 + 4)).
Proof.
  destruct (rhs_mass_balance Par1 [2; 1; 0; 3; 1; 0; 4] 1) as [He Hg].
  - exact Par1_stages.
  - exact Par1_scales.
  - unfold nonneg. repeat constructor; lra.
  - split; [apply He | apply Hg]; reflexivity.
Defined.
(** ** The two dead-cell components *)

Lemma concat_rows_length (rowf : nat -> list R) ncol a n :
  (forall i, length (rowf i) = ncol) ->
  length (concat (map rowf (seq a n))) = (n * ncol)%nat.
Proof.
  intros H. revert a. induction n as [ | n IH]; intros a; [reflexivity | ].
  simpl. rewrite length_app, H, IH. reflexivity.
Qed.

Lemma nth_dead (rows : list R) (u v : R) :
  nth (length rows) (rows ++ [u; v]) 0 = u
  /\ nth (length rows + 1) (rows ++ [u; v]) 0 = v.
Proof.
  split.
  - rewrite app_nth2 by lia. rewrite Nat.sub_diag. reflexivity.
  - rewrite app_nth2 by lia.
    replace (length rows + 1 - length rows)%nat with 1%nat by lia.
    reflexivity.
Qed.

Lemma Rsum_nonneg l : nonneg l -> 0 <= Rsum l.
Proof.
  induction 1 as [ | x l Hx _ IH]; simpl; lra.
Qed.

Lemma clamp_is_nonneg X : nonneg (clamp X).
Proof.
  unfold nonneg, clamp. induction X as [ | x X IH]; simpl; constructor.
  - destruct (Rlt_dec x 0); lra.
  - exact IH.
Qed.

Lemma nth_nonneg l k : nonneg l -> 0 <= nth k l 0.
Proof.
  intros H. revert k. induction H as [ | x l Hx _ IH]; intros [ | k]; simpl;
    auto; lra.
Qed.

Lemma reshape_nonneg nrow ncol l :
  nonneg l -> Forall nonneg (reshape nrow ncol l).
Proof.
  revert l. induction nrow as [ | k IH]; intros l H; simpl; constructor.
  - apply Forall_firstn, H.
  - apply IH, Forall_skipn, H.
Qed.

Lemma live_rows_nonneg nT ncol X : Forall nonneg (live_array nT ncol X).
Proof.
  unfold live_array. constructor.
  - unfold nonneg. induction ncol; simpl; constructor; [lra | assumption].
  - apply reshape_nonneg, Forall_firstn, clamp_is_nonneg.
Qed.

Lemma row_nonneg live i : Forall nonneg live -> nonneg (row live i).
Proof.
  intros H. unfold row. revert i.
  induction H as [ | r live Hr _ IH]; intros [ | i]; simpl; auto;
    constructor.
Qed.

Lemma at_nonneg live i j : Forall nonneg live -> 0 <= at_ live i j.
Proof. intros H. apply nth_nonneg, row_nonneg, H. Qed.

Lemma sum_block_nonneg live a b : Forall nonneg live -> 0 <= sum_block live a b.
Proof.
  intros H. unfold sum_block. apply Rsum_nonneg.
  assert (Ht : Forall nonneg (tl live))
    by (destruct H; simpl; [constructor | assumption]).
  unfold nonneg. induction Ht as [ | r rows Hr _ IH]; simpl; [constructor | ].
  apply Forall_app. split; [apply Forall_slice, Hr | exact IH].
Qed.

Lemma sum_col_nonneg live k : Forall nonneg live -> 0 <= sum_col live k.
Proof.
  intros H. unfold sum_col. apply Rsum_nonneg.
  assert (Ht : Forall nonneg (tl live))
    by (destruct H; simpl; [constructor | assumption]).
  unfold nonneg. induction Ht as [ | r rows Hr _ IH]; simpl; constructor.
  - apply nth_nonneg, Hr.
  - exact IH.
Qed.

Lemma slice_sum_nonneg live i a b :
  Forall nonneg live -> 0 <= Rsum (slice a b (row live i)).
Proof.
  intros H. apply Rsum_nonneg. apply Forall_slice, row_nonneg, H.
Qed.

(** The last two entries of the exponential closed form. *)
Lemma expP_with_dead p deltaT deltaEE deltaER deltaEI Virus X :
  (1 <= _nEE p)%nat -> (1 <= _nER p)%nat -> (1 <= _nEI p)%nat ->
  layout_exp p X ->
  let live := live_array (_nT p) (_nEE p + _nER p + _nEI p + 2) X in
  let d := expP_with p deltaT deltaEE deltaER deltaEI Virus X in
  length d = length X
  /\ nth (length X - 2) d 0
     = dEE p * sum_block live 1 (_nEE p + 1)
       + dER p * sum_block live (_nEE p + 1) (_nEE p + _nER p + 1)
       + dEI p * sum_block live (_nEE p + _nER p + 1)
                   (_nEE p + _nER p + _nEI p + 1)
       + deltaT * Rsum (slice 0 (_nEE p + _nER p + _nEI p + 1)
                          (row live (_nT p)))
       - dD p * nth (length X - 2) (clamp X) 0
  /\ nth (length X - 1) d 0
     = dP p * sum_col live (_nEE p + _nER p + _nEI p + 1)
       + deltaT * at_ live (_nT p) (_nEE p + _nER p + _nEI p + 1)
       - dD p * nth (length X - 1) (clamp X) 0.
Proof.
  intros H1 H2 H3 HX live d. unfold layout_exp in HX.
  subst d. unfold expP_with. cbv zeta. fold live.
  match goal with
  | |- context [concat (map ?f (seq 0 (_nT p)))] =>
      set (rows := concat (map f (seq 0 (_nT p))))
  end.
  assert (Hr : length rows = (length X - 2)%nat).
  { unfold rows. rewrite (concat_rows_length _ (_nEE p + _nER p + _nEI p + 2)).
    - lia.
    - intros i. apply expP_row_length; assumption. }
  rewrite <- Hr.
  replace (length X - 1)%nat with (length rows + 1)%nat by lia.
  split; [rewrite length_app; simpl; lia | ].
  apply nth_dead.
Qed.

Lemma gammaP_with_dead p deltaT deltaEE deltaER deltaEI deltaP Virus X :
  (1 <= _nEE p)%nat -> (1 <= _nER p)%nat -> (1 <= _nEI p)%nat ->
  (1 <= _nP p)%nat ->
  layout_gamma p X ->
  let live := live_array (_nT p) (1 + _nEE p + _nER p + _nEI p + _nP p) X in
  let d := gammaP_with p deltaT deltaEE deltaER deltaEI deltaP Virus X in
  length d = length X
  /\ nth (length X - 2) d 0
     = dEE p * sum_block live 1 (_nEE p + 1)
       + dER p * sum_block live (_nEE p + 1) (_nEE p + _nER p + 1)
       + dEI p * sum_block live (_nEE p + _nER p + 1)
                   (_nEE p + _nER p + _nEI p + 1)
       + deltaT * Rsum (slice 0 (_nEE p + _nER p + _nEI p + 1)
                          (row live (_nT p)))
       - dD p * nth (length X - 2) (clamp X) 0
  /\ nth (length X - 1) d 0
     = dP p * sum_block live (_nEE p + _nER p + _nEI p + 1)
                (_nEE p + _nER p + _nEI p + _nP p + 1)
       + deltaT * Rsum (slice (_nEE p + _nER p + _nEI p + 1)
                          (_nEE p + _nER p + _nEI p + _nP p + 1)
                          (row live (_nT p)))
       + deltaP * sum_col live (_nEE p + _nER p + _nEI p + _nP p)
       - dD p * nth (length X - 1) (clamp X) 0.
Proof.
  intros H1 H2 H3 H4 HX live d. unfold layout_gamma in HX.
  subst d. unfold gammaP_with. cbv zeta. fold live.
  match goal with
  | |- context [concat (map ?f (seq 0 (_nT p)))] =>
      set (rows := concat (map f (seq 0 (_nT p))))
  end.
  assert (Hr : length rows = (length X - 2)%nat).
  { unfold rows.
    rewrite (concat_rows_length _ (1 + _nEE p + _nER p + _nEI p + _nP p)).
    - lia.
    - intros i. apply gammaP_row_length; assumption. }
  rewrite <- Hr.
  replace (length X - 1)%nat with (length rows + 1)%nat by lia.
  split; [rewrite length_app; simpl; lia | ].
  apply nth_dead.
Qed.
(** C3, as amended.  For a nonnegative state vector and nonnegative death
    rates (the stage rate of the uninfected lifespan, dEE, dER, dEI, dP and,
    for the gamma variant, the stage rate of the productive phase), each of
    the two trailing components of the derivative is at least -dD times the
    dead scalar it belongs to: every accumulation term is nonnegative, and
    the only negative term is the disintegration dD * X[-2], dD * X[-1]. *)
Theorem dead_derivative_lower_bound (p : _Par) (X : list R) (t : R) :
  stages_ok p -> scales_ok p -> nonneg X ->
  0 <= INR (_nT p) / tauT p -> 0 <= dEE p -> 0 <= dER p -> 0 <= dEI p ->
  0 <= dP p -> 0 <= INR (_nP p) / tauP p ->
  (layout_exp p X ->
   exists d, _ode_expP X t p = (p, Returned d)
             /\ length d = length X
             /\ - dD p * nth (length X - 2) X 0 <= nth (length X - 2) d 0
             /\ - dD p * nth (length X - 1) X 0 <= nth (length X - 1) d 0)
  /\ (layout_gamma p X ->
      exists d, _ode_gammaP X t p = (p, Returned d)
                /\ length d = length X
                /\ - dD p * nth (length X - 2) X 0 <= nth (length X - 2) d 0
                /\ - dD p * nth (length X - 1) X 0 <= nth (length X - 1) d 0).
Proof.
  intros Hst Hsc Hnn HdT HdEE HdER HdEI HdP HdeltaP.
  pose proof Hst as (HnT & HnEE & HnER & HnEI & HnP).
  split; intros Hlay.
  - exists (expP_closed p X t).
    split; [apply _ode_expP_closed; assumption | ].
    unfold expP_closed.
    match goal with
    | |- context [expP_with p ?a ?b ?c ?e ?v X] =>
        destruct (expP_with_dead p a b c e v X HnEE HnER HnEI Hlay)
          as (Hlen & Hu & Hi)
    end.
    rewrite Hlen, Hu, Hi, (clamp_nonneg X Hnn).
    pose proof (live_rows_nonneg (_nT p) (_nEE p + _nER p + _nEI p + 2) X)
      as HL.
    split; [reflexivity | ]. split.
    + pose proof (sum_block_nonneg _ 1 (_nEE p + 1) HL).
      pose proof (sum_block_nonneg _ (_nEE p + 1) (_nEE p + _nER p + 1) HL).
      pose proof (sum_block_nonneg _ (_nEE p + _nER p + 1)
                    (_nEE p + _nER p + _nEI p + 1) HL).
      pose proof (slice_sum_nonneg _ (_nT p) 0
                    (_nEE p + _nER p + _nEI p + 1) HL).
      nra.
    + pose proof (sum_col_nonneg _ (_nEE p + _nER p + _nEI p + 1) HL).
      pose proof (at_nonneg _ (_nT p) (_nEE p + _nER p + _nEI p + 1) HL).
      nra.
  - exists (gammaP_closed p X t).
    split; [apply _ode_gammaP_closed; assumption | ].
    unfold gammaP_closed.
    match goal with
    | |- context [gammaP_with p ?a ?b ?c ?e ?f ?v X] =>
        destruct (gammaP_with_dead p a b c e f v X HnEE HnER HnEI HnP Hlay)
          as (Hlen & Hu & Hi)
    end.
    rewrite Hlen, Hu, Hi, (clamp_nonneg X Hnn).
    pose proof (live_rows_nonneg (_nT p)
                  (1 + _nEE p + _nER p + _nEI p + _nP p) X) as HL.
    split; [reflexivity | ]. split.
    + pose proof (sum_block_nonneg _ 1 (_nEE p + 1) HL).
      pose proof (sum_block_nonneg _ (_nEE p + 1) (_nEE p + _nER p + 1) HL).
      pose proof (sum_block_nonneg _ (_nEE p + _nER p + 1)
                    (_nEE p + _nER p + _nEI p + 1) HL).
      pose proof (slice_sum_nonneg _ (_nT p) 0
                    (_nEE p + _nER p + _nEI p + 1) HL).
      nra.
    + pose proof (sum_block_nonneg _ (_nEE p + _nER p + _nEI p + 1)
                    (_nEE p + _nER p + _nEI p + _nP p + 1) HL).
      pose proof (slice_sum_nonneg _ (_nT p) (_nEE p + _nER p + _nEI p + 1)
                    (_nEE p + _nER p + _nEI p + _nP p + 1) HL).
      pose proof (sum_col_nonneg _ (_nEE p + _nER p + _nEI p + _nP p) HL).
      nra.
Qed.

Lemma dead_derivative_lower_bound_witness :
  (exists d, _ode_expP [2; 1; 0; 3; 1; 5; 4] 1 Par1 = (Par1, Returned d)
             /\ length d = 7%nat
             /\ - dD Par1 * 5 <= nth 5 d 0
             /\ - dD Par1 * 4 <= nth 6 d 0)
  /\ (exists d, _ode_gammaP [2; 1; 0; 3; 1; 5; 4] 1 Par1 = (Par1, Returned d)
                /\ length d = 7%nat
                /\ - dD Par1 * 5 <= nth 5 d 0
                /\ - dD Par1 * 4 <= nth 6 d 0).
Proof.
  destruct (dead_derivative_lower_bound Par1 [2; 1; 0; 3; 1; 5; 4] 1)
    as [He Hg].
  - exact Par1_stages.
  - exact Par1_scales.
  - unfold nonneg. repeat constructor; lra.
  - simpl. lra.
  - simpl. lra.
  - simpl. lra.
  - simpl. lra.
  - simpl. lra.
  - simpl. lra.
  - split; [apply He | apply Hg]; reflexivity.
Defined.

(** A state with dead cells only. *)
Lemma clamp_dead_only : clamp [0; 0; 0; 0; 0; 1; 0] = [0; 0; 0; 0; 0; 1; 0].
Proof. apply clamp_nonneg. unfold nonneg. repeat constructor; lra. Qed.

(** C3, counterexample.  With every rate nonnegative and a nonnegative
    state that holds one dead uninfected cell and nothing else, the
    derivative of the dead-uninfected scalar is -dD < 0. *)
Lemma dead_derivative_counterexample :
  nonneg [0; 0; 0; 0; 0; 1; 0]
  /\ 0 <= INR (_nT Par1) / tauT Par1 /\ 0 <= dEE Par1 /\ 0 <= dER Par1
  /\ 0 <= dEI Par1 /\ 0 <= dP Par1 /\ 0 <= dD Par1
  /\ exists d, _ode_expP [0; 0; 0; 0; 0; 1; 0] 1 Par1 = (Par1, Returned d)
               /\ nth 5 d 0 = -1
               /\ ~ (0 <= nth 5 d 0).
Proof.
  split; [unfold nonneg; repeat constructor; lra | ].
  repeat (split; [simpl; lra | ]).
  exists (expP_closed Par1 [0; 0; 0; 0; 0; 1; 0] 1).
  split; [apply _ode_expP_closed;
          [exact Par1_stages | exact Par1_scales | reflexivity] | ].
  assert (E : nth 5 (expP_closed Par1 [0; 0; 0; 0; 0; 1; 0] 1) 0 = -1).
  { unfold expP_closed.
    match goal with
    | |- context [expP_with Par1 ?a ?b ?c ?e ?v ?X] =>
        destruct (expP_with_dead Par1 a b c e v X) as (_ & Hu & _);
          [simpl; lia | simpl; lia | simpl; lia | reflexivity | ]
    end.
    cbn [length Nat.sub] in Hu. rewrite Hu. unfold live_array.
    rewrite clamp_dead_only.
    unfold sum_block, sum_col, slice, row, at_. simpl. lra. }
  split; [exact E | rewrite E; lra].
Qed.
(** ** The gamma variant with one productive stage *)

Lemma drug_rate_before n tau t action onset :
  t < action -> drug_rate n tau t action onset = INR n / tau.
Proof.
  intros H. unfold drug_rate. destruct (Rlt_dec t action); [reflexivity | lra].
Qed.

Lemma sum_block_one_col ncol z rows j :
  Forall (fun r => length r = ncol) rows -> (j + 1 <= ncol)%nat ->
  sum_block (z :: rows) j (j + 1) = sum_col (z :: rows) j.
Proof.
  intros HF Hj. rewrite (sum_block_Sig ncol) by assumption.
  rewrite sum_col_Sig. apply Sig_ext. intros i _.
  rewrite Sig_S, Sig_0. lra.
Qed.

Lemma live_block_one_col nT ncol X j :
  length X = (nT * ncol + 2)%nat -> (j + 1 <= ncol)%nat ->
  sum_block (live_array nT ncol X) j (j + 1) = sum_col (live_array nT ncol X) j.
Proof.
  intros HX Hj. unfold live_array. apply (sum_block_one_col ncol); [ | exact Hj].
  apply reshape_rows. rewrite length_firstn. unfold clamp.
  rewrite length_map. lia.
Qed.

Lemma live_slice_one nT ncol X i j :
  length X = (nT * ncol + 2)%nat -> (i <= nT)%nat -> (j + 1 <= ncol)%nat ->
  Rsum (slice j (j + 1) (row (live_array nT ncol X) i))
  = at_ (live_array nT ncol X) i j.
Proof.
  intros HX Hi Hj. rewrite live_slice by assumption.
  rewrite Sig_S, Sig_0. lra.
Qed.

(** With one productive stage the gamma closed form is the exponential
    closed form with dP raised by the stage rate. *)
Lemma gammaP_with_one_stage p deltaT deltaEE deltaER deltaEI Virus X :
  _nP p = 1%nat -> layout_gamma p X ->
  gammaP_with p deltaT deltaEE deltaER deltaEI (INR (_nP p) / tauP p) Virus X
  = expP_with (setattr name.dP (dP p + 1 / tauP p) p)
      deltaT deltaEE deltaER deltaEI Virus X.
Proof.
  intros HnP HX. unfold layout_gamma in HX.
  unfold gammaP_with, expP_with. cbv zeta. gfields.
  rewrite HnP in *. change (INR 1) with 1.
  replace (1 + _nEE p + _nER p + _nEI p + 1)%nat
    with (_nEE p + _nER p + _nEI p + 2)%nat in * by lia.
  set (ncol := (_nEE p + _nER p + _nEI p + 2)%nat) in *.
  set (live := live_array (_nT p) ncol X).
  assert (Hrows : forall i,
    gammaP_row p deltaT deltaEE deltaER deltaEI (1 / tauP p) Virus live i
    = expP_row (setattr name.dP (dP p + 1 / tauP p) p)
        deltaT deltaEE deltaER deltaEI Virus live i).
  { intros i. unfold gammaP_row, expP_row, front_row. cbv zeta. gfields.
    rewrite HnP. cbn [Nat.sub seq map]. rewrite app_nil_r.
    apply f_equal2; [reflexivity | ].
    apply f_equal2; [ | reflexivity]. ring. }
  rewrite (map_ext _ _ Hrows).
  apply f_equal2; [reflexivity | ].
  apply f_equal2; [reflexivity | ].
  apply f_equal2; [ | reflexivity].
  replace (_nEE p + _nER p + _nEI p + 1 + 1)%nat
    with (_nEE p + _nER p + _nEI p + 1 + 1)%nat by lia.
  unfold live.
  rewrite live_block_one_col by (assumption || (unfold ncol; lia)).
  rewrite live_slice_one by (assumption || (unfold ncol; lia)).
  ring.
Qed.

(** C2, as amended.  With the productive-phase stage count 1 and a time
    before both drug-action times, the gamma right-hand side returns, for
    every state vector of the common layout, the derivative that the
    exponential right-hand side returns when dP is replaced by dP + 1/tauP:
    a productive cell of the gamma variant leaves at the stage rate nP/tauP
    on top of the hazard dP. *)
Theorem gamma_one_stage_is_exp_with_raised_dP (p : _Par) (X : list R) (t : R) :
  stages_ok p -> scales_ok p -> _nP p = 1%nat ->
  t < EFAV_time p -> t < RALT_time p ->
  layout_gamma p X ->
  let p' := setattr name.dP (dP p + 1 / tauP p) p in
  layout_exp p X
  /\ exists d, _ode_gammaP X t p = (p, Returned d)
               /\ _ode_expP X t p' = (p', Returned d).
Proof.
  intros Hst Hsc HnP HE HR Hlay p'.
  assert (Hlay' : layout_exp p X).
  { unfold layout_exp, layout_gamma in *. rewrite Hlay, HnP. f_equal. lia. }
  split; [exact Hlay' | ].
  exists (gammaP_closed p X t). split.
  - apply _ode_gammaP_closed; assumption.
  - rewrite (_ode_expP_closed p' X t);
      [ | exact Hst | exact Hsc | exact Hlay'].
    f_equal. f_equal.
    unfold gammaP_closed, expP_closed. subst p'. gfields.
    rewrite !drug_rate_before by assumption.
    symmetry. apply gammaP_with_one_stage; assumption.
Qed.

Lemma gamma_one_stage_is_exp_with_raised_dP_witness :
  layout_exp Par1 [2; 1; 0; 3; 1; 5; 4]
  /\ exists d,
       _ode_gammaP [2; 1; 0; 3; 1; 5; 4] (-1) Par1 = (Par1, Returned d)
       /\ _ode_expP [2; 1; 0; 3; 1; 5; 4] (-1)
            (setattr name.dP (dP Par1 + 1 / tauP Par1) Par1)
          = (setattr name.dP (dP Par1 + 1 / tauP Par1) Par1, Returned d).
Proof.
  apply (gamma_one_stage_is_exp_with_raised_dP Par1 [2; 1; 0; 3; 1; 5; 4] (-1)).
  - exact Par1_stages.
  - exact Par1_scales.
  - reflexivity.
  - simpl. lra.
  - simpl. lra.
  - reflexivity.
Defined.

Lemma clamp_one_productive :
  clamp [0; 0; 0; 0; 1; 0; 0] = [0; 0; 0; 0; 1; 0; 0].
Proof. apply clamp_nonneg. unfold nonneg. repeat constructor; lra. Qed.

(** C2, counterexample.  One stage in every phase (so nP = 1 and
    sigmaP = tauP), one productive cell, a time before both drug-action
    times: the productive component of the derivative is -2 in the
    exponential variant and -3 in the gamma variant. *)
Lemma gamma_one_stage_counterexample :
  _nP Par1 = 1%nat /\ sigmaP Par1 = tauP Par1
  /\ -1 < EFAV_time Par1 /\ -1 < RALT_time Par1
  /\ exists de dg,
       _ode_expP [0; 0; 0; 0; 1; 0; 0] (-1) Par1 = (Par1, Returned de)
       /\ _ode_gammaP [0; 0; 0; 0; 1; 0; 0] (-1) Par1 = (Par1, Returned dg)
       /\ nth 4 de 0 = -2 /\ nth 4 dg 0 = -3 /\ de <> dg.
Proof.
  split; [reflexivity | ]. split; [reflexivity | ].
  split; [simpl; lra | ]. split; [simpl; lra | ].
  exists (expP_closed Par1 [0; 0; 0; 0; 1; 0; 0] (-1)),
         (gammaP_closed Par1 [0; 0; 0; 0; 1; 0; 0] (-1)).
  assert (Ee : nth 4 (expP_closed Par1 [0; 0; 0; 0; 1; 0; 0] (-1)) 0 = -2).
  { unfold expP_closed, expP_with, expP_row, front_row, live_array.
    rewrite clamp_one_productive.
    unfold sum_block, sum_col, slice, row, at_. simpl. lra. }
  assert (Eg : nth 4 (gammaP_closed Par1 [0; 0; 0; 0; 1; 0; 0] (-1)) 0 = -3).
  { unfold gammaP_closed, gammaP_with, gammaP_row, front_row, live_array.
    rewrite clamp_one_productive.
    unfold sum_block, sum_col, slice, row, at_. simpl. lra. }
  split; [apply _ode_expP_closed;
          [exact Par1_stages | exact Par1_scales | reflexivity] | ].
  split; [apply _ode_gammaP_closed;
          [exact Par1_stages | exact Par1_scales | reflexivity] | ].
  split; [exact Ee | ]. split; [exact Eg | ].
  intros E. rewrite E in Ee. rewrite Ee in Eg. lra.
Qed.
(** ** Drug action *)

(** The gamma variant never reads the drug-action times: whatever they are
    set to, the call has the same outcome. *)
Lemma gammaP_ignores_drug_times (p : _Par) (X : list R) (t e r : R) :
  snd (_ode_gammaP X t (setattr name.RALT_time r (setattr name.EFAV_time e p)))
  = snd (_ode_gammaP X t p).
Proof.
  cbv beta delta [_ode_gammaP bind get fdiv virus_at live_of np_finite_rows
                    dead_entry ret raise].
  gfields.
  repeat match goal with
         | |- context [if ?cnd then _ else _] => destruct cnd; gfields
         end; reflexivity.
Qed.

Lemma clamp_eclipse :
  clamp [0; 1; 2; 0; 0; 0; 0] = [0; 1; 2; 0; 0; 0; 0].
Proof. apply clamp_nonneg. unfold nonneg. repeat constructor; lra. Qed.

Lemma drug_rate_after_lt : drug_rate 1 1 1 0 1 < 1.
Proof.
  unfold drug_rate. destruct (Rlt_dec 1 0) as [H | _]; [lra | ].
  change (INR 1) with 1.
  assert (H : exp (- (1 - 0) ^ 2 / (2 * 1 ^ 2)) < exp 0).
  { apply exp_increasing.
    replace (- (1 - 0) ^ 2 / (2 * 1 ^ 2)) with (- / 2) by field. lra. }
  rewrite exp_0 in H. lra.
Qed.

(** C1, evaluated.  One stage in every phase, both drug-action times 0, one
    EE cell and two ER cells, t = 1 (past both action times).  The
    exponential variant uses the modulated rates: its EE component is
    -3 - g and its EI component 2 g, with g the Gaussian factor, g < 1.
    The gamma variant uses the constant rates n/tau = 1: its EE component
    is -4 and its EI component 2. *)
Theorem gammaP_uses_constant_rates :
  EFAV_time Par1 <= 1 /\ RALT_time Par1 <= 1
  /\ exists de dg g,
       g = drug_rate 1 1 1 0 1 /\ g < 1
       /\ _ode_expP [0; 1; 2; 0; 0; 0; 0] 1 Par1 = (Par1, Returned de)
       /\ _ode_gammaP [0; 1; 2; 0; 0; 0; 0] 1 Par1 = (Par1, Returned dg)
       /\ nth 1 de 0 = -3 - g /\ nth 3 de 0 = 2 * g
       /\ nth 1 dg 0 = -4 /\ nth 3 dg 0 = 2.
Proof.
  split; [simpl; lra | ]. split; [simpl; lra | ].
  exists (expP_closed Par1 [0; 1; 2; 0; 0; 0; 0] 1),
         (gammaP_closed Par1 [0; 1; 2; 0; 0; 0; 0] 1),
         (drug_rate 1 1 1 0 1).
  split; [reflexivity | ]. split; [exact drug_rate_after_lt | ].
  split; [apply _ode_expP_closed;
          [exact Par1_stages | exact Par1_scales | reflexivity] | ].
  split; [apply _ode_gammaP_closed;
          [exact Par1_stages | exact Par1_scales | reflexivity] | ].
  unfold expP_closed, expP_with, expP_row, gammaP_closed, gammaP_with,
    gammaP_row, front_row, chain_first, chain_next, live_array.
  rewrite clamp_eclipse.
  unfold sum_block, sum_col, slice, row, at_. simpl.
  repeat split; lra.
Qed.
(** * Further properties *)

(** ** [getICs] *)

Lemma upd_head_zeros (x : R) k : upd 0 x (repeat 0 (k + 2)) = x :: repeat 0 (k + 1).
Proof.
  replace (k + 2)%nat with (S (k + 1)) by lia. reflexivity.
Qed.

(** The number of columns of the variant that [deathtype] selects. *)
Lemma getICs_value p :
  getICs p
  = (p, Returned
          (N p :: repeat 0
             (_nT p * (1 + _nEE p + _nER p + _nEI p
                       + (if py_eq_str (deathtype p) "gamma"
                          then _nP p else 1)) + 1))).
Proof.
  unfold getICs, bind, get, ret.
  destruct (py_eq_str (deathtype p) "gamma"); rewrite upd_head_zeros;
    reflexivity.
Qed.

Lemma getICs_has_layout p :
  exists X0,
    getICs p = (p, Returned X0)
    /\ (if py_eq_str (deathtype p) "gamma"
        then layout_gamma p X0 else layout_exp p X0).
Proof.
  eexists. split; [apply getICs_value | ].
  destruct (py_eq_str (deathtype p) "gamma");
    unfold layout_gamma, layout_exp; simpl length; rewrite repeat_length; lia.
Qed.

(** X1.  [getICs] returns a vector of the layout of the variant that
    [deathtype] selects (the gamma layout for 'gamma', the exponential layout
    for anything else): the initial population [N] in the first entry (the
    uninfected column of the first segment), zero everywhere else, so that
    its entries sum to [N]. *)
Theorem getICs_layout (p : _Par) :
  exists X0,
    getICs p = (p, Returned X0)
    /\ (if py_eq_str (deathtype p) "gamma"
        then layout_gamma p X0 else layout_exp p X0)
    /\ nth 0 X0 0 = N p
    /\ Forall (fun x => x = 0) (tl X0)
    /\ Rsum X0 = N p.
Proof.
  eexists. split; [apply getICs_value | ].
  split.
  - destruct (py_eq_str (deathtype p) "gamma");
      unfold layout_gamma, layout_exp; simpl length; rewrite repeat_length; lia.
  - split; [reflexivity | ]. split.
    + simpl. apply zeros_Forall.
    + rewrite Rsum_cons, (Rsum_zeros _ (zeros_Forall _)). lra.
Qed.

(** ** The two right-hand sides: outcome by outcome *)

Lemma clamp_length X : length (clamp X) = length X.
Proof. unfold clamp. apply length_map. Qed.

Lemma clamp_idem X : clamp (clamp X) = clamp X.
Proof. apply clamp_nonneg, clamp_is_nonneg. Qed.

(** X2.  Negative entries count as zero: on a state vector and on the same
    vector with its negative entries set to zero, each right-hand side has the
    same outcome, for every state, time and parameter set. *)
Theorem rhs_reads_clamped_state (p : _Par) (X : list R) (t : R) :
  _ode_expP (clamp X) t p = _ode_expP X t p
  /\ _ode_gammaP (clamp X) t p = _ode_gammaP X t p.
Proof.
  unfold _ode_expP, _ode_gammaP, live_of, dead_entry.
  rewrite !clamp_idem, !clamp_length. split; reflexivity.
Qed.

Lemma live_of_mismatch nT ncolL X p :
  (1 <= nT)%nat -> (2 <= ncolL)%nat ->
  length X <> (nT * ncolL + 2)%nat ->
  live_of nT ncolL X p = (p, Raised ValueError).
Proof.
  intros HnT Hc Hlen. unfold live_of.
  rewrite length_firstn, clamp_length.
  destruct (Nat.eqb_spec (Nat.min (length X - 2) (length X)) (nT * ncolL));
    [ | reflexivity].
  exfalso. assert (2 <= nT * ncolL)%nat by nia. lia.
Qed.

(** X3.  A state vector whose length is not that of the variant's layout
    makes the right-hand side raise [ValueError] (the reshape), before
    anything is written; in particular the exponential variant refuses a
    gamma-layout vector whenever the gamma variant has more than one
    productive stage. *)
Theorem rhs_layout_mismatch (p : _Par) (X : list R) (t : R) :
  stages_ok p -> scales_ok p ->
  (~ layout_exp p X -> _ode_expP X t p = (p, Raised ValueError))
  /\ (~ layout_gamma p X -> _ode_gammaP X t p = (p, Raised ValueError))
  /\ (layout_gamma p X -> _nP p <> 1%nat ->
      _ode_expP X t p = (p, Raised ValueError)).
Proof.
  intros (HnT & HnEE & HnER & HnEI & HnP)
         (HtT & HtEE & HtER & HtEI & HtP & HN & Hon).
  assert (He : ~ layout_exp p X -> _ode_expP X t p = (p, Raised ValueError)).
  { intros Hlay. unfold layout_exp in Hlay. unfold _ode_expP.
    eapply bind_returned; [reflexivity | cbv beta].
    eapply bind_returned; [apply fdiv_ok, HtT | cbv beta].
    eapply bind_returned; [apply fdiv_ok, HtEI | cbv beta].
    cbv zeta.
    eapply bind_returned; [apply drug_rate_ok; assumption | cbv beta].
    eapply bind_returned; [apply drug_rate_ok; assumption | cbv beta].
    eapply bind_returned; [apply virus_at_ok; assumption | cbv beta].
    apply bind_raised. apply live_of_mismatch; [assumption | lia | exact Hlay]. }
  split; [exact He | ]. split.
  - intros Hlay. unfold layout_gamma in Hlay. unfold _ode_gammaP.
    eapply bind_returned; [reflexivity | cbv beta].
    eapply bind_returned; [apply fdiv_ok, HtT | cbv beta].
    eapply bind_returned; [apply fdiv_ok, HtEE | cbv beta].
    eapply bind_returned; [apply fdiv_ok, HtER | cbv beta].
    eapply bind_returned; [apply fdiv_ok, HtEI | cbv beta].
    eapply bind_returned; [apply fdiv_ok, HtP | cbv beta].
    cbv zeta.
    eapply bind_returned; [apply virus_at_ok; assumption | cbv beta].
    apply bind_raised. apply live_of_mismatch; [assumption | lia | exact Hlay].
  - intros Hlay HnP1. apply He. unfold layout_exp, layout_gamma in *.
    rewrite Hlay. nia.
Qed.

Lemma rhs_layout_mismatch_witness :
  _ode_expP [1; 2; 3] 0 Par1 = (Par1, Raised ValueError)
  /\ _ode_gammaP [1; 2; 3] 0 Par1 = (Par1, Raised ValueError).
Proof.
  destruct (rhs_layout_mismatch Par1 [1; 2; 3] 0 Par1_stages Par1_scales)
    as (He & Hg & _).
  split; [apply He | apply Hg]; unfold layout_exp, layout_gamma; simpl; lia.
Defined.
Lemma fdiv_by_zero x y p : y = 0 -> fdiv x y p = (p, Raised ZeroDivisionError).
Proof. intros ->. apply fdiv_zero. Qed.

Lemma drug_rate_zero_tau n tau t action p :
  tau = 0 ->
  (if Rlt_dec t action then fdiv (INR n) tau
   else r <- fdiv (INR n) tau ;;
        e <- fdiv (- (t - action) ^ 2) (2 * _onset_time p ^ 2) ;;
        ret (r * exp e)) p
  = (p, Raised ZeroDivisionError).
Proof.
  intros Ht. destruct (Rlt_dec t action).
  - apply fdiv_by_zero, Ht.
  - apply bind_raised. apply fdiv_by_zero, Ht.
Qed.

(** What the drug-action branch can do: return the rate, or raise. *)
Lemma drug_rate_cases n tau t action p :
  (exists r,
     (if Rlt_dec t action then fdiv (INR n) tau
      else r <- fdiv (INR n) tau ;;
           e <- fdiv (- (t - action) ^ 2) (2 * _onset_time p ^ 2) ;;
           ret (r * exp e)) p = (p, Returned r))
  \/ (if Rlt_dec t action then fdiv (INR n) tau
      else r <- fdiv (INR n) tau ;;
           e <- fdiv (- (t - action) ^ 2) (2 * _onset_time p ^ 2) ;;
           ret (r * exp e)) p = (p, Raised ZeroDivisionError).
Proof.
  destruct (Rlt_dec t action).
  - unfold fdiv. destruct (Req_dec_T tau 0);
      [right; reflexivity | left; eexists; reflexivity].
  - unfold bind, fdiv, ret, raise.
    destruct (Req_dec_T tau 0); [right; reflexivity | ].
    destruct (Req_dec_T (2 * _onset_time p ^ 2) 0);
      [right; reflexivity | left; eexists; reflexivity].
Qed.

(** X4.  A mean lifetime of zero makes the right-hand side raise
    [ZeroDivisionError] when it converts the lifetimes to rates: any of tauT,
    tauEE, tauER, tauEI for the exponential variant (which never reads tauP),
    any of the five for the gamma variant. *)
Theorem rhs_zero_lifetime (p : _Par) (X : list R) (t : R) :
  (tauT p = 0 \/ tauEE p = 0 \/ tauER p = 0 \/ tauEI p = 0 ->
   _ode_expP X t p = (p, Raised ZeroDivisionError))
  /\ (tauT p = 0 \/ tauEE p = 0 \/ tauER p = 0 \/ tauEI p = 0 \/ tauP p = 0 ->
      _ode_gammaP X t p = (p, Raised ZeroDivisionError)).
Proof.
  split; intros H.
  - unfold _ode_expP.
    eapply bind_returned; [reflexivity | cbv beta].
    destruct (Req_dec_T (tauT p) 0) as [ET | HT];
      [apply bind_raised, fdiv_by_zero, ET | ].
    eapply bind_returned; [apply fdiv_ok, HT | cbv beta].
    destruct (Req_dec_T (tauEI p) 0) as [EEI | HEI];
      [apply bind_raised, fdiv_by_zero, EEI | ].
    eapply bind_returned; [apply fdiv_ok, HEI | cbv beta]. cbv zeta.
    destruct (Req_dec_T (tauEE p) 0) as [EEE | HEE];
      [apply bind_raised, drug_rate_zero_tau, EEE | ].
    destruct (drug_rate_cases (_nEE p) (tauEE p) t (EFAV_time p) p)
      as [[r Hr] | Hr]; [ | apply bind_raised, Hr].
    eapply bind_returned; [exact Hr | cbv beta].
    apply bind_raised, drug_rate_zero_tau. tauto.
  - unfold _ode_gammaP.
    eapply bind_returned; [reflexivity | cbv beta].
    destruct (Req_dec_T (tauT p) 0) as [ET | HT];
      [apply bind_raised, fdiv_by_zero, ET | ].
    eapply bind_returned; [apply fdiv_ok, HT | cbv beta].
    destruct (Req_dec_T (tauEE p) 0) as [EEE | HEE];
      [apply bind_raised, fdiv_by_zero, EEE | ].
    eapply bind_returned; [apply fdiv_ok, HEE | cbv beta].
    destruct (Req_dec_T (tauER p) 0) as [EER | HER];
      [apply bind_raised, fdiv_by_zero, EER | ].
    eapply bind_returned; [apply fdiv_ok, HER | cbv beta].
    destruct (Req_dec_T (tauEI p) 0) as [EEI | HEI];
      [apply bind_raised, fdiv_by_zero, EEI | ].
    eapply bind_returned; [apply fdiv_ok, HEI | cbv beta].
    apply bind_raised, fdiv_by_zero. tauto.
Qed.

Lemma np_finite_rows_zero nT p :
  N p = 0 -> (1 <= nT)%nat -> np_finite_rows nT p = (p, NonFinite).
Proof.
  intros HN HnT. unfold np_finite_rows, bind, get.
  destruct (Req_dec_T (N p) 0); [ | contradiction].
  destruct (Nat.ltb_spec 0 nT); [reflexivity | lia].
Qed.

(** X5.  With the population scale [N] equal to 0 the right-hand side does
    not raise: the infection term divides numpy floats by zero, and on a
    vector of the right layout the call hands back non-finite entries. *)
Theorem rhs_zero_population_scale (p : _Par) (X : list R) (t : R) :
  stages_ok p ->
  tauT p <> 0 -> tauEE p <> 0 -> tauER p <> 0 -> tauEI p <> 0 ->
  tauP p <> 0 -> _onset_time p <> 0 ->
  N p = 0 ->
  (layout_exp p X -> _ode_expP X t p = (p, NonFinite))
  /\ (layout_gamma p X -> _ode_gammaP X t p = (p, NonFinite)).
Proof.
  intros (HnT & HnEE & HnER & HnEI & HnP) HtT HtEE HtER HtEI HtP Hon HN.
  split; intros Hlay.
  - unfold layout_exp in Hlay. unfold _ode_expP.
    eapply bind_returned; [reflexivity | cbv beta].
    eapply bind_returned; [apply fdiv_ok, HtT | cbv beta].
    eapply bind_returned; [apply fdiv_ok, HtEI | cbv beta].
    cbv zeta.
    eapply bind_returned; [apply drug_rate_ok; assumption | cbv beta].
    eapply bind_returned; [apply drug_rate_ok; assumption | cbv beta].
    eapply bind_returned; [apply virus_at_ok; assumption | cbv beta].
    eapply bind_returned; [apply live_of_ok; exact Hlay | cbv beta].
    apply bind_nonfinite. apply np_finite_rows_zero; assumption.
  - unfold layout_gamma in Hlay. unfold _ode_gammaP.
    eapply bind_returned; [reflexivity | cbv beta].
    eapply bind_returned; [apply fdiv_ok, HtT | cbv beta].
    eapply bind_returned; [apply fdiv_ok, HtEE | cbv beta].
    eapply bind_returned; [apply fdiv_ok, HtER | cbv beta].
    eapply bind_returned; [apply fdiv_ok, HtEI | cbv beta].
    eapply bind_returned; [apply fdiv_ok, HtP | cbv beta].
    cbv zeta.
    eapply bind_returned; [apply virus_at_ok; assumption | cbv beta].
    eapply bind_returned; [apply live_of_ok; exact Hlay | cbv beta].
    apply bind_nonfinite. apply np_finite_rows_zero; assumption.
Qed.

Lemma rhs_zero_population_scale_witness :
  _ode_expP [0; 0; 0; 0; 0; 0; 0] 0 (setattr name.N 0 Par1)
  = (setattr name.N 0 Par1, NonFinite)
  /\ _ode_gammaP [0; 0; 0; 0; 0; 0; 0] 0 (setattr name.N 0 Par1)
     = (setattr name.N 0 Par1, NonFinite).
Proof.
  destruct (rhs_zero_population_scale (setattr name.N 0 Par1)
              [0; 0; 0; 0; 0; 0; 0] 0) as [He Hg];
    try (simpl; lra).
  - unfold stages_ok. simpl. lia.
  - split; [apply He | apply Hg]; reflexivity.
Defined.

Lemma rhs_zero_lifetime_witness :
  _ode_expP [] 0 (setattr name.tauT 0 Par1)
  = (setattr name.tauT 0 Par1, Raised ZeroDivisionError)
  /\ _ode_gammaP [] 0 (setattr name.tauP 0 Par1)
     = (setattr name.tauP 0 Par1, Raised ZeroDivisionError).
Proof.
  split.
  - apply (rhs_zero_lifetime (setattr name.tauT 0 Par1) [] 0).
    left. reflexivity.
  - apply (rhs_zero_lifetime (setattr name.tauP 0 Par1) [] 0).
    right. right. right. right. reflexivity.
Defined.

(** ** [getICs], [evolve] and the right-hand sides together *)

Lemma expP_returns_same_length p X t :
  stages_ok p -> scales_ok p -> layout_exp p X ->
  exists d, _ode_expP X t p = (p, Returned d) /\ length d = length X.
Proof.
  intros Hst Hsc Hlay. pose proof Hst as (HnT & HnEE & HnER & HnEI & HnP).
  exists (expP_closed p X t). split; [apply _ode_expP_closed; assumption | ].
  unfold expP_closed.
  match goal with
  | |- context [expP_with p ?a ?b ?c ?e ?v X] =>
      destruct (expP_with_dead p a b c e v X HnEE HnER HnEI Hlay) as (Hlen & _)
  end.
  exact Hlen.
Qed.

Lemma gammaP_returns_same_length p X t :
  stages_ok p -> scales_ok p -> layout_gamma p X ->
  exists d, _ode_gammaP X t p = (p, Returned d) /\ length d = length X.
Proof.
  intros Hst Hsc Hlay. pose proof Hst as (HnT & HnEE & HnER & HnEI & HnP).
  exists (gammaP_closed p X t). split; [apply _ode_gammaP_closed; assumption | ].
  unfold gammaP_closed.
  match goal with
  | |- context [gammaP_with p ?a ?b ?c ?e ?f ?v X] =>
      destruct (gammaP_with_dead p a b c e f v X HnEE HnER HnEI HnP Hlay)
        as (Hlen & _)
  end.
  exact Hlen.
Qed.

(** X6.  The initial state fits the right-hand side that [evolve] hands to
    the integrator: for every mode, the function passed to [odeint], called
    on the vector of [getICs] at any time, returns a derivative of the same
    length and leaves the parameters as they are; no layout error can come
    from the pair [getICs], [evolve]. *)
Theorem evolve_accepts_getICs (p : _Par) :
  stages_ok p -> scales_ok p ->
  exists X0 f,
    getICs p = (p, Returned X0)
    /\ (forall (T : Type)
               (odeint : (list R -> R -> M (list R)) -> list R -> list R -> M T)
               (times : list R),
          evolve odeint times X0 p = odeint f X0 times p)
    /\ forall t, exists d, f X0 t p = (p, Returned d) /\ length d = length X0.
Proof.
  intros Hst Hsc.
  destruct (getICs_has_layout p) as (X0 & Hget & Hlay).
  destruct (py_eq_str (deathtype p) "gamma") eqn:Hmode.
  - exists X0, _ode_gammaP. split; [exact Hget | ]. split.
    + intros T odeint times. unfold evolve, bind, get. rewrite Hmode.
      reflexivity.
    + intros t. apply gammaP_returns_same_length; assumption.
  - exists X0, _ode_expP. split; [exact Hget | ]. split.
    + intros T odeint times. unfold evolve, bind, get. rewrite Hmode.
      reflexivity.
    + intros t. apply expP_returns_same_length; assumption.
Qed.

Lemma evolve_accepts_getICs_witness :
  exists X0 f,
    getICs Par1 = (Par1, Returned X0)
    /\ (forall (T : Type)
               (odeint : (list R -> R -> M (list R)) -> list R -> list R -> M T)
               (times : list R),
          evolve odeint times X0 Par1 = odeint f X0 times Par1)
    /\ forall t, exists d, f X0 t Par1 = (Par1, Returned d)
                           /\ length d = length X0.
Proof.
  apply (evolve_accepts_getICs Par1); [exact Par1_stages | exact Par1_scales].
Defined.
(** ** The empty culture is an equilibrium *)

Lemma all_zero_repeat (l : list R) :
  Forall (fun x => x = 0) l -> l = repeat 0 (length l).
Proof.
  induction 1 as [ | x l Hx _ IH]; simpl; [reflexivity | ].
  rewrite Hx, <- IH. reflexivity.
Qed.

Lemma reshape_zeros nrow ncol l :
  Forall (fun x => x = 0) l ->
  Forall (Forall (fun x => x = 0)) (reshape nrow ncol l).
Proof.
  revert l. induction nrow as [ | k IH]; intros l H; simpl; constructor.
  - apply Forall_firstn, H.
  - apply IH, Forall_skipn, H.
Qed.

Lemma clamp_zeros k : clamp (repeat 0 k) = repeat 0 k.
Proof.
  apply clamp_nonneg. unfold nonneg.
  induction k; simpl; constructor; [lra | assumption].
Qed.

Lemma live_zeros nT ncol k :
  Forall (Forall (fun x => x = 0)) (live_array nT ncol (repeat 0 k)).
Proof.
  unfold live_array. constructor; [apply zeros_Forall | ].
  apply reshape_zeros. rewrite clamp_zeros. apply Forall_firstn, zeros_Forall.
Qed.

Lemma row_zeros live i :
  Forall (Forall (fun x => x = 0)) live ->
  Forall (fun x => x = 0) (row live i).
Proof.
  intros H. unfold row. revert i.
  induction H as [ | r live Hr _ IH]; intros [ | i]; simpl; auto;
    constructor.
Qed.

Lemma nth_zeros (l : list R) k : Forall (fun x => x = 0) l -> nth k l 0 = 0.
Proof.
  intros H. revert k. induction H as [ | x l Hx _ IH]; intros [ | k]; simpl;
    auto.
Qed.

Lemma at_zeros live i j :
  Forall (Forall (fun x => x = 0)) live -> at_ live i j = 0.
Proof. intros H. apply nth_zeros, row_zeros, H. Qed.

Lemma slice_sum_zeros live i a b :
  Forall (Forall (fun x => x = 0)) live -> Rsum (slice a b (row live i)) = 0.
Proof. intros H. apply Rsum_zeros, Forall_slice, row_zeros, H. Qed.

Lemma sum_block_zeros live a b :
  Forall (Forall (fun x => x = 0)) live -> sum_block live a b = 0.
Proof.
  intros H. unfold sum_block. apply Rsum_zeros.
  assert (Ht : Forall (Forall (fun x => x = 0)) (tl live))
    by (destruct H; simpl; [constructor | assumption]).
  induction Ht as [ | r rows Hr _ IH]; simpl; [constructor | ].
  apply Forall_app. split; [apply Forall_slice, Hr | exact IH].
Qed.

Lemma sum_col_zeros live k :
  Forall (Forall (fun x => x = 0)) live -> sum_col live k = 0.
Proof.
  intros H. unfold sum_col. apply Rsum_zeros.
  assert (Ht : Forall (Forall (fun x => x = 0)) (tl live))
    by (destruct H; simpl; [constructor | assumption]).
  induction Ht as [ | r rows Hr _ IH]; simpl; constructor.
  - apply nth_zeros, Hr.
  - exact IH.
Qed.

Lemma Forall_map_seq (f : nat -> R) a n :
  (forall j, f j = 0) -> Forall (fun x => x = 0) (map f (seq a n)).
Proof.
  intros H. revert a. induction n as [ | n IH]; intros a; simpl; constructor.
  - apply H.
  - apply IH.
Qed.

Lemma front_row_zeros p deltaT deltaEE deltaER deltaEI Virus live i :
  Forall (Forall (fun x => x = 0)) live ->
  Forall (fun x => x = 0)
    (front_row p deltaT deltaEE deltaER deltaEI Virus live i).
Proof.
  intros H. unfold front_row, chain_first, chain_next. cbv zeta.
  repeat (apply Forall_app; split);
    try (apply Forall_map_seq; intros j);
    try (constructor; [ | constructor]);
    rewrite ?(at_zeros live _ _ H), ?(slice_sum_zeros live _ _ _ H);
    unfold Rdiv; ring.
Qed.

Lemma expP_row_zeros p deltaT deltaEE deltaER deltaEI Virus live i :
  Forall (Forall (fun x => x = 0)) live ->
  Forall (fun x => x = 0)
    (expP_row p deltaT deltaEE deltaER deltaEI Virus live i).
Proof.
  intros H. unfold expP_row. cbv zeta.
  apply Forall_app. split; [apply front_row_zeros, H | ].
  constructor; [ | constructor].
  rewrite ?(at_zeros live _ _ H). ring.
Qed.

Lemma gammaP_row_zeros p deltaT deltaEE deltaER deltaEI deltaP Virus live i :
  Forall (Forall (fun x => x = 0)) live ->
  Forall (fun x => x = 0)
    (gammaP_row p deltaT deltaEE deltaER deltaEI deltaP Virus live i).
Proof.
  intros H. unfold gammaP_row. cbv zeta.
  apply Forall_app. split; [apply front_row_zeros, H | ].
  apply Forall_app. split.
  - constructor; [ | constructor]. rewrite ?(at_zeros live _ _ H). ring.
  - apply Forall_map_seq. intros j. rewrite ?(at_zeros live _ _ H). ring.
Qed.

Lemma concat_rows_zeros (rowf : nat -> list R) a n :
  (forall i, Forall (fun x => x = 0) (rowf i)) ->
  Forall (fun x => x = 0) (concat (map rowf (seq a n))).
Proof.
  intros H. revert a. induction n as [ | n IH]; intros a; simpl.
  - constructor.
  - apply Forall_app. split; [apply H | apply IH].
Qed.

(** X7.  The empty culture stays empty: on the all-zero state vector of its
    layout each right-hand side returns the all-zero derivative, at every
    time and for all rates. *)
Theorem rhs_zero_state (p : _Par) (t : R) :
  stages_ok p -> scales_ok p ->
  _ode_expP (repeat 0 (_nT p * (_nEE p + _nER p + _nEI p + 2) + 2)) t p
  = (p, Returned (repeat 0 (_nT p * (_nEE p + _nER p + _nEI p + 2) + 2)))
  /\ _ode_gammaP
       (repeat 0 (_nT p * (1 + _nEE p + _nER p + _nEI p + _nP p) + 2)) t p
     = (p, Returned
             (repeat 0 (_nT p * (1 + _nEE p + _nER p + _nEI p + _nP p) + 2))).
Proof.
  intros Hst Hsc. pose proof Hst as (HnT & HnEE & HnER & HnEI & HnP).
  split.
  - set (k := (_nT p * (_nEE p + _nER p + _nEI p + 2) + 2)%nat).
    assert (Hlay : layout_exp p (repeat 0 k))
      by (unfold layout_exp; apply repeat_length).
    destruct (expP_returns_same_length p (repeat 0 k) t Hst Hsc Hlay)
      as (d & Hd & Hlen).
    rewrite Hd. f_equal. f_equal.
    rewrite repeat_length in Hlen. rewrite <- Hlen.
    apply all_zero_repeat.
    rewrite (_ode_expP_closed p _ t Hst Hsc Hlay) in Hd.
    injection Hd as <-.
    unfold expP_closed, expP_with. cbv zeta.
    pose proof (live_zeros (_nT p) (_nEE p + _nER p + _nEI p + 2) k) as HL.
    apply Forall_app. split.
    + apply concat_rows_zeros. intros i. apply expP_row_zeros, HL.
    + rewrite clamp_zeros, !nth_repeat.
      rewrite !(sum_block_zeros _ _ _ HL), (sum_col_zeros _ _ HL),
        (slice_sum_zeros _ _ _ _ HL), (at_zeros _ _ _ HL).
      constructor; [ring | ]. constructor; [ring | constructor].
  - set (k := (_nT p * (1 + _nEE p + _nER p + _nEI p + _nP p) + 2)%nat).
    assert (Hlay : layout_gamma p (repeat 0 k))
      by (unfold layout_gamma; apply repeat_length).
    destruct (gammaP_returns_same_length p (repeat 0 k) t Hst Hsc Hlay)
      as (d & Hd & Hlen).
    rewrite Hd. f_equal. f_equal.
    rewrite repeat_length in Hlen. rewrite <- Hlen.
    apply all_zero_repeat.
    rewrite (_ode_gammaP_closed p _ t Hst Hsc Hlay) in Hd.
    injection Hd as <-.
    unfold gammaP_closed, gammaP_with. cbv zeta.
    pose proof (live_zeros (_nT p) (1 + _nEE p + _nER p + _nEI p + _nP p) k)
      as HL.
    apply Forall_app. split.
    + apply concat_rows_zeros. intros i. apply gammaP_row_zeros, HL.
    + rewrite clamp_zeros, !nth_repeat.
      rewrite !(sum_block_zeros _ _ _ HL), (sum_col_zeros _ _ HL),
        !(slice_sum_zeros _ _ _ _ HL).
      constructor; [ring | ]. constructor; [ring | constructor].
Qed.

Lemma rhs_zero_state_witness :
  _ode_expP [0; 0; 0; 0; 0; 0; 0] 3 Par1
  = (Par1, Returned [0; 0; 0; 0; 0; 0; 0])
  /\ _ode_gammaP [0; 0; 0; 0; 0; 0; 0] 3 Par1
     = (Par1, Returned [0; 0; 0; 0; 0; 0; 0]).
Proof.
  exact (rhs_zero_state Par1 3 Par1_stages Par1_scales).
Defined.
(** ** The virus forcing *)

Lemma exp_le_1 x : x <= 0 -> 0 < exp x <= 1.
Proof.
  intros Hx. split; [apply exp_pos | ].
  destruct Hx as [Hx | ->]; [ | rewrite exp_0; lra].
  pose proof (exp_increasing x 0 Hx) as H. rewrite exp_0 in H. lra.
Qed.

(** X8.  The virus concentration that either right-hand side uses stays
    between 0 and [V0] at every time (for [V0 >= 0] and a clearance rate
    [c >= 0]); it is exactly [V0] at t = 0, and from t = 24 on the one-day
    dilution, when configured, multiplies it by 0.25. *)
Theorem virus_bounded (p : _Par) (t : R) :
  0 <= V0 p -> 0 <= c p -> _onset_time p <> 0 ->
  exists v,
    virus_at t p = (p, Returned v)
    /\ 0 <= v <= V0 p
    /\ (t = 0 -> v = V0 p)
    /\ (24 <= t ->
        v = (if Req_dec_T (onedaydilution p) 0 then 1 else 0.25)
            * (V0 p * exp (- c p * t))).
Proof.
  intros HV Hc Hon.
  exists (virus p t). split; [apply virus_at_ok, Hon | ].
  unfold virus.
  assert (Hsq : 0 < 2 * _onset_time p ^ 2).
  { assert (0 < _onset_time p * _onset_time p)
      by (apply Rsqr_pos_lt; exact Hon).
    simpl. lra. }
  destruct (Rlt_dec t 0) as [Hneg | Hpos].
  - assert (He : - t * t / (2 * _onset_time p ^ 2) <= 0).
    { pose proof (Rinv_0_lt_compat _ Hsq) as Hinv.
      unfold Rdiv. nra. }
    destruct (exp_le_1 _ He) as [E1 E2].
    split; [nra | ]. split; intros; lra.
  - assert (He : - c p * t <= 0) by nra.
    destruct (exp_le_1 _ He) as [E1 E2].
    destruct (Rlt_dec t 24) as [H24 | H24].
    + split; [nra | ]. split; [ | intros; lra].
      intros ->. rewrite Rmult_0_r, exp_0. lra.
    + destruct (Req_dec_T (onedaydilution p) 0).
      * split; [nra | ]. split; intros; lra.
      * split; [nra | ]. split; intros; lra.
Qed.

Lemma virus_bounded_witness :
  exists v,
    virus_at 0 Par0 = (Par0, Returned v)
    /\ 0 <= v <= V0 Par0
    /\ (0 = 0 -> v = V0 Par0)
    /\ (24 <= 0 ->
        v = (if Req_dec_T (onedaydilution Par0) 0 then 1 else 0.25)
            * (V0 Par0 * exp (- c Par0 * 0))).
Proof.
  apply (virus_bounded Par0 0); simpl; lra.
Defined.
(** ** [getsummarydata]: shape and bounds *)

(** The loop over the time points is a map over the rows of [X], as long as
    [X] has a non-empty row for every time point. *)
Lemma summary_rows_map p ntimes X :
  (ntimes <= length X)%nat -> Forall (fun r => r <> []) X ->
  summary_rows p ntimes X
  = Returned (map (summary_row p) (firstn ntimes X)).
Proof.
  revert X. induction ntimes as [ | k IH]; intros X Hlen HX; [reflexivity | ].
  destruct X as [ | Xi X']; [simpl in Hlen; lia | ].
  inversion HX as [ | ? ? Hne HX']; subst.
  simpl. destruct Xi as [ | x Xi]; [contradiction | ].
  rewrite IH by (simpl in Hlen; lia || assumption). reflexivity.
Qed.

Lemma summary_rows_short p ntimes X :
  (length X < ntimes)%nat -> summary_rows p ntimes X = Raised IndexError.
Proof.
  revert X. induction ntimes as [ | k IH]; intros X Hlen; [lia | ].
  destruct X as [ | Xi X']; [reflexivity | ].
  simpl. destruct Xi as [ | x Xi]; [reflexivity | ].
  rewrite IH by (simpl in Hlen; lia). reflexivity.
Qed.

Lemma getsummarydata_rows p times X :
  (length times <= length X)%nat -> Forall (fun r => r <> []) X ->
  exists XX,
    getsummarydata times X p = (p, Returned XX)
    /\ XX = map (summary_row p) (firstn (length times) X)
    /\ length XX = length times.
Proof.
  intros Hlen HX. eexists. split.
  - unfold getsummarydata. rewrite summary_rows_map by assumption.
    reflexivity.
  - split; [reflexivity | ]. rewrite length_map, length_firstn. lia.
Qed.

(** X9.  [getsummarydata] returns one row of four entries per time point,
    each computed from the state row of the same index alone, when the
    trajectory has a (non-empty) row for every time point; with fewer rows
    than time points it raises [IndexError]. *)
Theorem getsummarydata_shape (p : _Par) (times : list R) (X : list (list R)) :
  ((length times <= length X)%nat -> Forall (fun r => r <> []) X ->
   exists XX,
     getsummarydata times X p = (p, Returned XX)
     /\ XX = map (summary_row p) (firstn (length times) X)
     /\ length XX = length times
     /\ Forall (fun r => length r = 4%nat) XX)
  /\ ((length X < length times)%nat ->
      getsummarydata times X p = (p, Raised IndexError)).
Proof.
  split.
  - intros Hlen HX. eexists. split.
    + unfold getsummarydata. rewrite summary_rows_map by assumption.
      reflexivity.
    + split; [reflexivity | ]. split.
      * rewrite length_map, length_firstn. lia.
      * apply Forall_forall. intros r Hr. apply in_map_iff in Hr.
        destruct Hr as (Xi & <- & _). reflexivity.
  - intros Hlen. unfold getsummarydata.
    rewrite summary_rows_short by assumption. reflexivity.
Qed.

Lemma getsummarydata_shape_witness :
  (exists XX,
     getsummarydata [0; 1] [[1; 2; 3]; [4; 5; 6]] Par1 = (Par1, Returned XX)
     /\ XX = map (summary_row Par1) (firstn 2 [[1; 2; 3]; [4; 5; 6]])
     /\ length XX = 2%nat
     /\ Forall (fun r => length r = 4%nat) XX)
  /\ getsummarydata [0; 1; 2] [[1; 2; 3]; [4; 5; 6]] Par1
     = (Par1, Raised IndexError).
Proof.
  destruct (getsummarydata_shape Par1 [0; 1] [[1; 2; 3]; [4; 5; 6]])
    as [Hok _].
  destruct (getsummarydata_shape Par1 [0; 1; 2] [[1; 2; 3]; [4; 5; 6]])
    as [_ Hshort].
  split.
  - apply Hok; [simpl; lia | repeat constructor; discriminate].
  - apply Hshort. simpl. lia.
Defined.

(** Sums of parts of a nonnegative list. *)
Lemma Rsum_firstn_le (l : list R) k : nonneg l -> 0 <= Rsum (firstn k l) <= Rsum l.
Proof.
  intros H.
  pose proof (Rsum_nonneg _ (Forall_firstn _ k _ H)) as H1.
  pose proof (Rsum_nonneg _ (Forall_skipn _ k _ H)) as H2.
  rewrite <- (firstn_skipn k l) at 3. rewrite Rsum_app. lra.
Qed.

Lemma Rsum_skipn_le (l : list R) k : nonneg l -> 0 <= Rsum (skipn k l) <= Rsum l.
Proof.
  intros H.
  pose proof (Rsum_nonneg _ (Forall_firstn _ k _ H)) as H1.
  pose proof (Rsum_nonneg _ (Forall_skipn _ k _ H)) as H2.
  rewrite <- (firstn_skipn k l) at 3. rewrite Rsum_app. lra.
Qed.

Lemma Rsum_skipn_mono (l : list R) k k' :
  nonneg l -> (k <= k')%nat -> Rsum (skipn k' l) <= Rsum (skipn k l).
Proof.
  intros H Hk.
  replace k' with ((k' - k) + k)%nat by lia.
  rewrite <- skipn_skipn.
  apply Rsum_skipn_le. apply Forall_skipn, H.
Qed.

Lemma Rsum_slice_sub (l : list R) x y x' y' :
  nonneg l -> (x <= x')%nat -> (y' <= y)%nat ->
  Rsum (slice x' y' l) <= Rsum (slice x y l).
Proof.
  intros H Hx Hy. unfold slice.
  apply Rle_trans with (Rsum (skipn x (firstn y' l))).
  - apply Rsum_skipn_mono; [apply Forall_firstn, H | exact Hx].
  - replace (firstn y' l) with (firstn y' (firstn y l))
      by (rewrite firstn_firstn, Nat.min_l by lia; reflexivity).
    rewrite skipn_firstn_comm.
    apply Rsum_firstn_le. apply Forall_skipn, Forall_firstn, H.
Qed.

Lemma Rsum_firstn_add (l : list R) x y :
  Rsum (firstn (x + y) l) = Rsum (firstn x l) + Rsum (slice x (x + y) l).
Proof.
  unfold slice.
  rewrite <- (firstn_skipn x (firstn (x + y) l)) at 1.
  rewrite Rsum_app, firstn_firstn, Nat.min_l by lia. reflexivity.
Qed.

(** Windows of width [b] at offset [a] in consecutive blocks of width [w]. *)
Lemma windows_le (l : list R) w a b n :
  nonneg l -> (a + b <= w)%nat ->
  0 <= Sig (fun j => Rsum (slice (j * w + a) (j * w + a + b) l)) 0 n
    <= Rsum (firstn (n * w) l).
Proof.
  intros H Hab. induction n as [ | n IH].
  - rewrite Sig_0. simpl. lra.
  - rewrite Sig_snoc. simpl (0 + n)%nat.
    replace (S n * w)%nat with (n * w + w)%nat by lia.
    rewrite Rsum_firstn_add.
    pose proof (Rsum_slice_sub l (n * w) (n * w + w) (n * w + a)
                  (n * w + a + b) H ltac:(lia) ltac:(lia)) as Hs.
    pose proof (Rsum_nonneg _ (Forall_slice _ (n * w + a) (n * w + a + b) _ H))
      as Hp.
    lra.
Qed.

Lemma for_sum (g : nat -> R) a n x :
  for_ (seq a n) (fun j acc => acc + g j) x = x + Sig g a n.
Proof.
  unfold for_. revert a x. induction n as [ | n IH]; intros a x; simpl.
  - rewrite Sig_0. lra.
  - rewrite IH, Sig_S. lra.
Qed.

Lemma clip0_nonneg x : 0 <= x -> clip0 x = x.
Proof. intros H. unfold clip0. destruct (Rlt_dec x 0); [lra | reflexivity]. Qed.

(** One row of the summary of a nonnegative state of the right layout. *)
Lemma summary_row_bounds p Xi :
  nonneg Xi ->
  length Xi = (_nT p * (1 + _nEE p + _nER p + _nEI p
                        + (if py_eq_str (deathtype p) "gamma"
                           then _nP p else 1)) + 2)%nat ->
  exists tot dead f2 f3,
    summary_row p Xi = [Fin tot; Fin dead; f2; Fin f3]
    /\ tot = Rsum Xi
    /\ 0 <= dead <= tot
    /\ 0 <= f3 <= 1
    /\ (0 < tot -> exists f, f2 = Fin f /\ 0 <= f <= 1)
    /\ (tot = 0 -> f2 = NaN).
Proof.
  intros Hnn Hlen. unfold summary_row. cbv zeta.
  set (nP := if py_eq_str (deathtype p) "gamma" then _nP p else 1%nat) in *.
  set (ncolL := (1 + _nEE p + _nER p + _nEI p + nP)%nat) in *.
  set (ncolE := (_nEE p + _nER p + _nEI p)%nat).
  rewrite for_sum, Rplus_0_l.
  set (liveinf := Sig _ 0 (_nT p)).
  assert (Hlive : 0 <= liveinf <= Rsum (firstn (_nT p * ncolL) Xi)).
  { unfold liveinf.
    rewrite (Sig_ext _ (fun j => Rsum (slice (j * ncolL + (1 + ncolE))
                                         (j * ncolL + (1 + ncolE) + nP) Xi))).
    - apply windows_le; [exact Hnn | unfold ncolL, ncolE; lia].
    - intros j _. f_equal. f_equal. lia. }
  assert (Htot : 0 <= Rsum Xi) by (apply Rsum_nonneg, Hnn).
  assert (Hsplit : Rsum Xi = Rsum (firstn (_nT p * ncolL) Xi)
                             + Rsum (skipn (length Xi - 2) Xi)).
  { replace (length Xi - 2)%nat with (_nT p * ncolL)%nat by lia.
    rewrite <- Rsum_app, firstn_skipn. reflexivity. }
  assert (Hdead : 0 <= Rsum (skipn (length Xi - 2) Xi))
    by (apply Rsum_nonneg, Forall_skipn, Hnn).
  assert (Hlast : 0 <= nth (length Xi - 1) Xi 0
                  <= Rsum (skipn (length Xi - 2) Xi)).
  { split; [apply nth_nonneg, Hnn | ].
    assert (Hs : skipn (length Xi - 2) Xi
                 = [nth (length Xi - 2) Xi 0; nth (length Xi - 1) Xi 0]).
    { assert (Hl2 : length (skipn (length Xi - 2) Xi) = 2%nat)
        by (rewrite length_skipn; lia).
      destruct (skipn (length Xi - 2) Xi) as [ | u [ | v [ | ? ?]]] eqn:E;
        try discriminate.
      pose proof (nth_skipn (length Xi - 2) Xi 0 0) as N0.
      pose proof (nth_skipn (length Xi - 2) Xi 1 0) as N1.
      rewrite E in N0, N1. simpl in N0, N1.
      replace (length Xi - 2 + 0)%nat with (length Xi - 2)%nat in N0 by lia.
      replace (length Xi - 2 + 1)%nat with (length Xi - 1)%nat in N1 by lia.
      rewrite <- N0, <- N1. reflexivity. }
    rewrite Hs. simpl.
    pose proof (nth_nonneg Xi (length Xi - 2) Hnn). lra. }
  rewrite !clip0_nonneg by (tauto || assumption).
  set (deadinf := nth (length Xi - 1) Xi 0) in *.
  eexists _, _, _, _. split; [reflexivity | ].
  split; [reflexivity | ]. split; [lra | ]. split.
  - destruct (Rlt_dec 0 (liveinf + deadinf)) as [Hpos | _]; [ | lra].
    split.
    + apply Rmult_le_pos; [tauto | left; apply Rinv_0_lt_compat, Hpos].
    + apply Rmult_le_reg_r with (liveinf + deadinf); [exact Hpos | ].
      unfold Rdiv. rewrite Rmult_assoc, Rinv_l by lra. lra.
  - split.
    + intros Hpos. unfold np_div.
      destruct (Req_dec_T (Rsum Xi) 0) as [E | _]; [lra | ].
      eexists. split; [reflexivity | ]. split.
      * apply Rmult_le_pos; [lra | left; apply Rinv_0_lt_compat, Hpos].
      * apply Rmult_le_reg_r with (Rsum Xi); [exact Hpos | ].
        unfold Rdiv. rewrite Rmult_assoc, Rinv_l by lra. lra.
    + intros Hz. unfold np_div.
      destruct (Req_dec_T (Rsum Xi) 0) as [_ | E]; [ | contradiction].
      destruct (Req_dec_T (deadinf + liveinf) 0) as [_ | E];
        [reflexivity | exfalso; apply E; lra].
Qed.

Lemma in_firstn_in {A} (x : A) k l : In x (firstn k l) -> In x l.
Proof.
  revert l. induction k as [ | k IH]; intros [ | y l] H; simpl in *;
    try contradiction.
  destruct H as [H | H]; [left; exact H | right; apply IH, H].
Qed.

(** X10.  On a trajectory of nonnegative states of the layout in use, every
    summary row is [total, dead, infected fraction, dead fraction of
    infected] with 0 <= dead <= total and the dead fraction in [0, 1]; the
    infected fraction is a number in [0, 1] when the total is positive, and
    [nan] when the total is 0. *)
Theorem getsummarydata_bounds (p : _Par) (times : list R) (X : list (list R)) :
  (length times <= length X)%nat ->
  Forall (fun Xi =>
            nonneg Xi
            /\ length Xi
               = (_nT p * (1 + _nEE p + _nER p + _nEI p
                           + (if py_eq_str (deathtype p) "gamma"
                              then _nP p else 1)) + 2)%nat) X ->
  exists XX,
    getsummarydata times X p = (p, Returned XX)
    /\ length XX = length times
    /\ Forall (fun r =>
                 exists tot dead f2 f3,
                   r = [Fin tot; Fin dead; f2; Fin f3]
                   /\ 0 <= dead <= tot
                   /\ 0 <= f3 <= 1
                   /\ (0 < tot -> exists f, f2 = Fin f /\ 0 <= f <= 1)
                   /\ (tot = 0 -> f2 = NaN)) XX.
Proof.
  intros Hlen HX.
  assert (Hne : Forall (fun r : list R => r <> []) X).
  { apply Forall_forall. intros r Hr. rewrite Forall_forall in HX.
    destruct (HX r Hr) as [_ Hl]. intros ->. simpl in Hl. lia. }
  destruct (getsummarydata_rows p times X Hlen Hne) as (XX & Hrun & HXX & Hl).
  exists XX. split; [exact Hrun | ]. split; [exact Hl | ].
  subst XX. apply Forall_forall. intros r Hr.
  apply in_map_iff in Hr. destruct Hr as (Xi & <- & Hin).
  rewrite Forall_forall in HX.
  destruct (HX Xi (in_firstn_in _ _ _ Hin)) as [Hnn Hlay].
  destruct (summary_row_bounds p Xi Hnn Hlay)
    as (tot & dead & f2 & f3 & E & _ & H1 & H2 & H3 & H4).
  exists tot, dead, f2, f3. tauto.
Qed.

Lemma getsummarydata_bounds_witness :
  exists XX,
    getsummarydata [0] [[2; 1; 0; 3; 1; 5; 4]] Par1 = (Par1, Returned XX)
    /\ length XX = 1%nat
    /\ Forall (fun r =>
                 exists tot dead f2 f3,
                   r = [Fin tot; Fin dead; f2; Fin f3]
                   /\ 0 <= dead <= tot
                   /\ 0 <= f3 <= 1
                   /\ (0 < tot -> exists f, f2 = Fin f /\ 0 <= f <= 1)
                   /\ (tot = 0 -> f2 = NaN)) XX.
Proof.
  apply (getsummarydata_bounds Par1 [0] [[2; 1; 0; 3; 1; 5; 4]]).
  - simpl. lia.
  - constructor; [ | constructor]. split.
    + unfold nonneg. repeat constructor; lra.
    + reflexivity.
Defined.
Lemma slice_tail_zeros (l : list R) a b :
  (1 <= a)%nat -> Forall (fun x => x = 0) (tl l) -> Rsum (slice a b l) = 0.
Proof.
  intros Ha Hl. apply Rsum_zeros. unfold slice.
  destruct a as [ | a]; [lia | ].
  destruct l as [ | x l]; [destruct b; simpl; constructor | ].
  destruct b as [ | b]; [simpl; constructor | ].
  simpl. apply Forall_skipn, Forall_firstn, Hl.
Qed.

(** X11.  The summary of the initial state: with a positive initial
    population, the row computed from the vector of [getICs] is total
    [N], dead 0, infected fraction 0 and dead fraction of infected 0. *)
Theorem summary_of_initial_state (p : _Par) (t : R) :
  (1 <= _nT p)%nat -> 0 < N p ->
  exists X0,
    getICs p = (p, Returned X0)
    /\ getsummarydata [t] [X0] p
       = (p, Returned [[Fin (N p); Fin 0; Fin 0; Fin 0]]).
Proof.
  intros HnT HN. eexists. split; [apply getICs_value | ].
  set (np := if py_eq_str (deathtype p) "gamma" then _nP p else 1%nat).
  set (k := (_nT p * (1 + _nEE p + _nER p + _nEI p + np))%nat).
  assert (Hk : (1 <= k)%nat) by (unfold k; nia).
  unfold getsummarydata. cbn [length summary_rows].
  unfold summary_row. cbv zeta. fold np.
  assert (Hlen : length (N p :: repeat 0 (k + 1)) = (k + 2)%nat)
    by (simpl; rewrite repeat_length; lia).
  rewrite Hlen.
  assert (Hsum : Rsum (N p :: repeat 0 (k + 1)) = N p).
  { rewrite Rsum_cons, (Rsum_zeros _ (zeros_Forall _)). lra. }
  assert (Htl : Forall (fun x => x = 0) (tl (N p :: repeat 0 (k + 1))))
    by (simpl; apply zeros_Forall).
  assert (Hdead : Rsum (skipn (k + 2 - 2) (N p :: repeat 0 (k + 1))) = 0).
  { replace (k + 2 - 2)%nat with (S (k - 1)) by lia. simpl.
    apply Rsum_zeros, Forall_skipn, zeros_Forall. }
  assert (Hlast : nth (k + 2 - 1) (N p :: repeat 0 (k + 1)) 0 = 0).
  { replace (k + 2 - 1)%nat with (S k) by lia. simpl. apply nth_repeat. }
  rewrite Hsum, Hdead, Hlast, for_sum.
  rewrite (Sig_ext _ (fun _ => 0)), Sig_zero
    by (intros j _; apply slice_tail_zeros; [lia | exact Htl]).
  rewrite clip0_zero, (clip0_nonneg (N p)) by lra.
  unfold np_div.
  destruct (Req_dec_T (N p) 0) as [E | _]; [lra | ].
  destruct (Rlt_dec 0 (0 + 0 + 0)) as [E | _]; [lra | ].
  repeat f_equal. unfold Rdiv. ring.
Qed.

Lemma summary_of_initial_state_witness :
  exists X0,
    getICs Par0 = (Par0, Returned X0)
    /\ getsummarydata [-24] [X0] Par0
       = (Par0, Returned [[Fin (N Par0); Fin 0; Fin 0; Fin 0]]).
Proof.
  apply (summary_of_initial_state Par0 (-24)); simpl; [lia | lra].
Defined.
(** ** [checkpars]: when it returns and what it leaves *)

Lemma moment_sigma_sq tau n :
  (1 <= n)%nat -> moment_sigma tau n ^ 2 * INR n = tau ^ 2.
Proof.
  intros Hn. unfold moment_sigma.
  rewrite pow2_sqrt by (apply sq_over_n_nonneg, Hn).
  field. apply INR_stage_neq, Hn.
Qed.

(** X12.  [checkpars] returns exactly when the four sigmas it divides by are
    non-zero and the mode is 'exp', or 'gamma' with a non-zero sigmaP; and
    when it returns, every stage count is at least 1 and every pair
    satisfies the moment condition sigma^2 * n = tau^2 of an n-stage
    chain. *)
Theorem checkpars_returns_iff (p : _Par) :
  (snd (checkpars p) = Returned tt
   <-> sigmaT p <> 0 /\ sigmaEE p <> 0 /\ sigmaER p <> 0 /\ sigmaEI p <> 0
       /\ (deathtype p = PyStr "exp"
           \/ (deathtype p = PyStr "gamma" /\ sigmaP p <> 0)))
  /\ (snd (checkpars p) = Returned tt ->
      let p' := fst (checkpars p) in
      stages_ok p'
      /\ sigmaT p' ^ 2 * INR (_nT p') = tauT p' ^ 2
      /\ sigmaEE p' ^ 2 * INR (_nEE p') = tauEE p' ^ 2
      /\ sigmaER p' ^ 2 * INR (_nER p') = tauER p' ^ 2
      /\ sigmaEI p' ^ 2 * INR (_nEI p') = tauEI p' ^ 2
      /\ sigmaP p' ^ 2 * INR (_nP p') = tauP p' ^ 2).
Proof.
  assert (Hnz : snd (checkpars p) = Returned tt ->
                sigmaT p <> 0 /\ sigmaEE p <> 0 /\ sigmaER p <> 0
                /\ sigmaEI p <> 0).
  { intros Hret.
    destruct (Req_dec_T (sigmaT p) 0) as [E | HT];
      [destruct (checkpars_zero_sigma p) as (q & Hq & _);
       [tauto | rewrite Hq in Hret; discriminate] | ].
    destruct (Req_dec_T (sigmaEE p) 0) as [E | HEE];
      [destruct (checkpars_zero_sigma p) as (q & Hq & _);
       [tauto | rewrite Hq in Hret; discriminate] | ].
    destruct (Req_dec_T (sigmaER p) 0) as [E | HER];
      [destruct (checkpars_zero_sigma p) as (q & Hq & _);
       [tauto | rewrite Hq in Hret; discriminate] | ].
    destruct (Req_dec_T (sigmaEI p) 0) as [E | HEI];
      [destruct (checkpars_zero_sigma p) as (q & Hq & _);
       [tauto | rewrite Hq in Hret; discriminate] | ].
    tauto. }
  split.
  - split.
    + intros Hret. destruct (Hnz Hret) as (HT & HEE & HER & HEI).
      repeat (split; [assumption | ]).
      rewrite checkpars_checked in Hret by assumption.
      unfold checked in Hret.
      destruct (py_eq_str (deathtype p) "exp") eqn:Hexp;
        [left; apply py_eq_str_true, Hexp | ].
      destruct (py_eq_str (deathtype p) "gamma") eqn:Hgam;
        [ | discriminate].
      right. split; [apply py_eq_str_true, Hgam | ].
      destruct (Req_dec_T (sigmaP p) 0); [discriminate | assumption].
    + intros (HT & HEE & HER & HEI & Hmode).
      rewrite checkpars_checked by assumption. unfold checked.
      destruct Hmode as [Hd | [Hd HP]]; rewrite Hd; simpl py_eq_str;
        cbv iota; [reflexivity | ].
      destruct (Req_dec_T (sigmaP p) 0); [contradiction | reflexivity].
  - intros Hret p'. subst p'.
    destruct (Hnz Hret) as (HT & HEE & HER & HEI).
    rewrite checkpars_checked in Hret |- * by assumption.
    unfold checked in Hret |- *.
    pose proof stage_count_pos as Hpos.
    destruct (py_eq_str (deathtype p) "exp").
    + unfold stages_ok, after_four, after_EI, after_ER, after_EE, after_T.
      gfields.
      repeat split; try apply Hpos; try (apply moment_sigma_sq, Hpos);
        try lia.
      change (INR 1) with 1. ring.
    + destruct (py_eq_str (deathtype p) "gamma"); [ | discriminate].
      destruct (Req_dec_T (sigmaP p) 0); [discriminate | ].
      unfold stages_ok, after_P, after_four, after_EI, after_ER, after_EE,
        after_T.
      gfields.
      repeat split; try apply Hpos; apply moment_sigma_sq, Hpos.
Qed.

Lemma checkpars_returns_iff_witness :
  let p' := fst (checkpars Par0) in
  stages_ok p'
  /\ sigmaT p' ^ 2 * INR (_nT p') = tauT p' ^ 2
  /\ sigmaEE p' ^ 2 * INR (_nEE p') = tauEE p' ^ 2
  /\ sigmaER p' ^ 2 * INR (_nER p') = tauER p' ^ 2
  /\ sigmaEI p' ^ 2 * INR (_nEI p') = tauEI p' ^ 2
  /\ sigmaP p' ^ 2 * INR (_nP p') = tauP p' ^ 2.
Proof.
  destruct (checkpars_returns_iff Par0) as [[_ Hif] Hpost].
  apply Hpost. apply Hif. simpl. repeat split; try lra.
  left. reflexivity.
Defined.
(** ** [checkpars]: how the stage count follows the ratio tau/sigma *)

(** The fields that the four derivations leave, whatever the mode. *)
Lemma checkpars_four_fields (p : _Par) :
  sigmaT p <> 0 -> sigmaEE p <> 0 -> sigmaER p <> 0 -> sigmaEI p <> 0 ->
  let p' := fst (checkpars p) in
  (_nT p' = stage_count (tauT p) (sigmaT p)
   /\ sigmaT p' = moment_sigma (tauT p) (stage_count (tauT p) (sigmaT p)))
  /\ (_nEE p' = stage_count (tauEE p) (sigmaEE p)
      /\ sigmaEE p'
         = moment_sigma (tauEE p) (stage_count (tauEE p) (sigmaEE p)))
  /\ (_nER p' = stage_count (tauER p) (sigmaER p)
      /\ sigmaER p'
         = moment_sigma (tauER p) (stage_count (tauER p) (sigmaER p)))
  /\ (_nEI p' = stage_count (tauEI p) (sigmaEI p)
      /\ sigmaEI p'
         = moment_sigma (tauEI p) (stage_count (tauEI p) (sigmaEI p))).
Proof.
  intros HT HEE HER HEI p'. subst p'.
  rewrite checkpars_checked by assumption.
  unfold checked.
  destruct (py_eq_str (deathtype p) "exp");
    [ | destruct (py_eq_str (deathtype p) "gamma");
        [ destruct (Req_dec_T (sigmaP p) 0) | ] ];
    unfold_after; gfields; repeat split; reflexivity.
Qed.

Lemma py_round_bounds x :
  0 <= x -> x - / 2 < IZR (py_round x) <= x + / 2.
Proof.
  intros Hx. unfold py_round.
  destruct (Rle_dec 0 x) as [_ | H]; [ | contradiction].
  destruct (base_Int_part (x + / 2)) as [H1 H2]. lra.
Qed.

Lemma ratio_sq_pos tau sigma : 0 < tau -> 0 < sigma -> 0 < (tau / sigma) ^ 2.
Proof.
  intros Ht Hs. apply pow_lt. apply Rdiv_lt_0_compat; assumption.
Qed.

(** A ratio below 3/2 rounds to at most one stage. *)
Lemma stage_count_one tau sigma :
  0 < tau -> 0 < sigma -> (tau / sigma) ^ 2 < 3 / 2 ->
  stage_count tau sigma = 1%nat.
Proof.
  intros Ht Hs Hx. unfold stage_count.
  pose proof (ratio_sq_pos tau sigma Ht Hs) as Hpos.
  destruct (py_round_bounds ((tau / sigma) ^ 2)) as [_ Hup]; [lra | ].
  assert (Hz : (py_round ((tau / sigma) ^ 2) < 2)%Z)
    by (apply lt_IZR; lra).
  rewrite Z.max_l by lia. reflexivity.
Qed.

(** From a ratio of 1/2 on, the stage count is the rounded ratio. *)
Lemma stage_count_rounds tau sigma :
  0 < tau -> 0 < sigma -> / 2 <= (tau / sigma) ^ 2 ->
  INR (stage_count tau sigma) = IZR (py_round ((tau / sigma) ^ 2)).
Proof.
  intros Ht Hs Hx. unfold stage_count.
  destruct (py_round_bounds ((tau / sigma) ^ 2)) as [Hlo _]; [lra | ].
  assert (Hz : (0 < py_round ((tau / sigma) ^ 2))%Z)
    by (apply lt_IZR; lra).
  rewrite Z.max_r by lia.
  rewrite INR_IZR_INZ, Z2Nat.id by lia. reflexivity.
Qed.

Lemma moment_sigma_one tau : 0 < tau -> moment_sigma tau 1 = tau.
Proof.
  intros Ht. unfold moment_sigma. change (INR 1) with 1.
  replace (tau ^ 2 / 1) with (tau ^ 2) by field.
  apply sqrt_pow2. lra.
Qed.

(** X13.  A standard deviation at or above the mean cannot be matched: for
    each of the four pairs with 0 < tau <= sigma, [checkpars] sets one stage
    and overwrites sigma with tau. *)
Theorem checkpars_wide_sigma (p : _Par) :
  0 < tauT p -> 0 < sigmaT p -> 0 < tauEE p -> 0 < sigmaEE p ->
  0 < tauER p -> 0 < sigmaER p -> 0 < tauEI p -> 0 < sigmaEI p ->
  let p' := fst (checkpars p) in
  (tauT p <= sigmaT p -> _nT p' = 1%nat /\ sigmaT p' = tauT p)
  /\ (tauEE p <= sigmaEE p -> _nEE p' = 1%nat /\ sigmaEE p' = tauEE p)
  /\ (tauER p <= sigmaER p -> _nER p' = 1%nat /\ sigmaER p' = tauER p)
  /\ (tauEI p <= sigmaEI p -> _nEI p' = 1%nat /\ sigmaEI p' = tauEI p).
Proof.
  intros HtT HsT HtEE HsEE HtER HsER HtEI HsEI p'.
  destruct (checkpars_four_fields p) as ((T1 & T2) & (E1 & E2) & (R1 & R2)
                                         & (I1 & I2)); try lra.
  fold p' in T1, T2, E1, E2, R1, R2, I1, I2.
  assert (Hone : forall tau sigma, 0 < tau -> 0 < sigma -> tau <= sigma ->
            stage_count tau sigma = 1%nat).
  { intros tau sigma Ht Hs Hle. apply stage_count_one; try assumption.
    assert (Hr : 0 < tau / sigma <= 1).
    { split; [apply Rdiv_lt_0_compat; assumption | ].
      apply Rmult_le_reg_r with sigma; [exact Hs | ].
      unfold Rdiv. rewrite Rmult_assoc, Rinv_l by lra. lra. }
    simpl. nra. }
  split; [intros Hle; split
         | split; [intros Hle; split
                  | split; intros Hle; split]].
  - rewrite T1. apply Hone; assumption.
  - rewrite T2, Hone by assumption. apply moment_sigma_one, HtT.
  - rewrite E1. apply Hone; assumption.
  - rewrite E2, Hone by assumption. apply moment_sigma_one, HtEE.
  - rewrite R1. apply Hone; assumption.
  - rewrite R2, Hone by assumption. apply moment_sigma_one, HtER.
  - rewrite I1. apply Hone; assumption.
  - rewrite I2, Hone by assumption. apply moment_sigma_one, HtEI.
Qed.

Lemma checkpars_wide_sigma_witness :
  _nT (fst (checkpars (setattr name.sigmaT 9 Par0))) = 1%nat
  /\ sigmaT (fst (checkpars (setattr name.sigmaT 9 Par0))) = 6.
Proof.
  destruct (checkpars_wide_sigma (setattr name.sigmaT 9 Par0))
    as (HT & _); try (simpl; lra).
  apply HT. simpl. lra.
Defined.

(** A pair whose ratio squared is a whole number [k >= 1]. *)
Lemma stage_count_exact tau sigma k :
  0 < tau -> 0 < sigma -> (1 <= k)%nat -> tau ^ 2 = INR k * sigma ^ 2 ->
  stage_count tau sigma = k /\ moment_sigma tau k = sigma.
Proof.
  intros Ht Hs Hk Heq.
  assert (Hk0 : INR k <> 0) by (apply INR_stage_neq, Hk).
  assert (Hx : (tau / sigma) ^ 2 = INR k).
  { replace ((tau / sigma) ^ 2) with (tau ^ 2 / sigma ^ 2) by (field; lra).
    rewrite Heq. field. lra. }
  split.
  - unfold stage_count. rewrite Hx, py_round_INR. lia.
  - unfold moment_sigma. rewrite Heq.
    replace (INR k * sigma ^ 2 / INR k) with (sigma ^ 2) by (field; exact Hk0).
    apply sqrt_pow2. lra.
Qed.

(** X14.  A pair that already fits a whole number of stages is left alone,
    whatever the other pairs are: with the four sigmas non-zero (so that the
    four derivations run), for each pair of T, EE, ER, EI with tau > 0,
    sigma > 0 and tau^2 = k * sigma^2 for a whole number k >= 1,
    [checkpars] sets k stages and writes back the sigma that was
    configured. *)
Theorem checkpars_exact_ratio (p : _Par) (kT kEE kER kEI : nat) :
  sigmaT p <> 0 -> sigmaEE p <> 0 -> sigmaER p <> 0 -> sigmaEI p <> 0 ->
  let p' := fst (checkpars p) in
  (0 < tauT p -> 0 < sigmaT p ->
   (1 <= kT)%nat -> tauT p ^ 2 = INR kT * sigmaT p ^ 2 ->
   _nT p' = kT /\ sigmaT p' = sigmaT p)
  /\ (0 < tauEE p -> 0 < sigmaEE p ->
      (1 <= kEE)%nat -> tauEE p ^ 2 = INR kEE * sigmaEE p ^ 2 ->
      _nEE p' = kEE /\ sigmaEE p' = sigmaEE p)
  /\ (0 < tauER p -> 0 < sigmaER p ->
      (1 <= kER)%nat -> tauER p ^ 2 = INR kER * sigmaER p ^ 2 ->
      _nER p' = kER /\ sigmaER p' = sigmaER p)
  /\ (0 < tauEI p -> 0 < sigmaEI p ->
      (1 <= kEI)%nat -> tauEI p ^ 2 = INR kEI * sigmaEI p ^ 2 ->
      _nEI p' = kEI /\ sigmaEI p' = sigmaEI p).
Proof.
  intros HsT HsEE HsER HsEI p'.
  destruct (checkpars_four_fields p HsT HsEE HsER HsEI)
    as ((T1 & T2) & (E1 & E2) & (R1 & R2) & (I1 & I2)).
  fold p' in T1, T2, E1, E2, R1, R2, I1, I2.
  split; [ | split; [ | split]]; intros Ht Hs Hk He;
    destruct (stage_count_exact _ _ _ Ht Hs Hk He) as [A1 A2].
  - rewrite T1, T2, A1, A2. split; reflexivity.
  - rewrite E1, E2, A1, A2. split; reflexivity.
  - rewrite R1, R2, A1, A2. split; reflexivity.
  - rewrite I1, I2, A1, A2. split; reflexivity.
Qed.

(** The T pair of the class defaults fits four stages; the EE pair, with
    sigma 2.9, fits no whole number. *)
Lemma checkpars_exact_ratio_witness :
  let p' := fst (checkpars (setattr name.sigmaEE 2.9 Par0)) in
  _nT p' = 4%nat /\ sigmaT p' = 3.
Proof.
  destruct (checkpars_exact_ratio (setattr name.sigmaEE 2.9 Par0) 4 1 4 4)
    as (HT & _); try (simpl; lra).
  apply HT; simpl; try lra. lia.
Defined.

(** X15.  The stage count is the nearest whole number to (tau/sigma)^2,
    whatever the other pairs are: with the four sigmas non-zero, for each
    pair of T, EE, ER, EI with tau > 0, sigma > 0 and a ratio squared of at
    least 1/2, the count that [checkpars] sets differs from (tau/sigma)^2
    by at most 1/2. *)
Theorem checkpars_nearest_stage_count (p : _Par) :
  sigmaT p <> 0 -> sigmaEE p <> 0 -> sigmaER p <> 0 -> sigmaEI p <> 0 ->
  let p' := fst (checkpars p) in
  (0 < tauT p -> 0 < sigmaT p -> / 2 <= (tauT p / sigmaT p) ^ 2 ->
   Rabs (INR (_nT p') - (tauT p / sigmaT p) ^ 2) <= / 2)
  /\ (0 < tauEE p -> 0 < sigmaEE p -> / 2 <= (tauEE p / sigmaEE p) ^ 2 ->
      Rabs (INR (_nEE p') - (tauEE p / sigmaEE p) ^ 2) <= / 2)
  /\ (0 < tauER p -> 0 < sigmaER p -> / 2 <= (tauER p / sigmaER p) ^ 2 ->
      Rabs (INR (_nER p') - (tauER p / sigmaER p) ^ 2) <= / 2)
  /\ (0 < tauEI p -> 0 < sigmaEI p -> / 2 <= (tauEI p / sigmaEI p) ^ 2 ->
      Rabs (INR (_nEI p') - (tauEI p / sigmaEI p) ^ 2) <= / 2).
Proof.
  intros HsT HsEE HsER HsEI p'.
  destruct (checkpars_four_fields p HsT HsEE HsER HsEI)
    as ((T1 & _) & (E1 & _) & (R1 & _) & (I1 & _)).
  fold p' in T1, E1, R1, I1.
  assert (Hnear : forall tau sigma, 0 < tau -> 0 < sigma ->
            / 2 <= (tau / sigma) ^ 2 ->
            Rabs (INR (stage_count tau sigma) - (tau / sigma) ^ 2) <= / 2).
  { intros tau sigma Ht Hs Hr.
    rewrite stage_count_rounds by assumption.
    destruct (py_round_bounds ((tau / sigma) ^ 2)) as [Hlo Hup]; [lra | ].
    apply Rabs_le. lra. }
  rewrite T1, E1, R1, I1.
  split; [ | split; [ | split]]; intros Ht Hs Hr; apply Hnear; assumption.
Qed.

(** The EE pair of the class defaults, next to a T pair whose sigma (9) is
    too wide for the bound to hold. *)
Lemma checkpars_nearest_stage_count_witness :
  let p := setattr name.sigmaT 9 Par0 in
  Rabs (INR (_nEE (fst (checkpars p))) - (tauEE p / sigmaEE p) ^ 2) <= / 2.
Proof.
  destruct (checkpars_nearest_stage_count (setattr name.sigmaT 9 Par0))
    as (_ & HEE & _); try (simpl; lra).
  apply HEE; simpl; lra.
Defined.
(** ** [setpars]: a failure is not rolled back *)




(** ** The drug action of the exponential variant *)

(** X17.  A drug does nothing before its action time: at a time before both
    action times, the exponential right-hand side has the same outcome
    whatever later values the two action times are given. *)
Theorem expP_before_drug_action (p : _Par) (X : list R) (t e r : R) :
  t < EFAV_time p -> t < RALT_time p -> t < e -> t < r ->
  snd (_ode_expP X t (setattr name.RALT_time r (setattr name.EFAV_time e p)))
  = snd (_ode_expP X t p).
Proof.
  intros H1 H2 H3 H4.
  cbv beta delta [_ode_expP bind get fdiv virus_at live_of np_finite_rows
                    dead_entry ret raise].
  gfields.
  destruct (Rlt_dec t (EFAV_time p)) as [_ | C]; [ | contradiction].
  destruct (Rlt_dec t (RALT_time p)) as [_ | C]; [ | contradiction].
  destruct (Rlt_dec t e) as [_ | C]; [ | contradiction].
  destruct (Rlt_dec t r) as [_ | C]; [ | contradiction].
  repeat match goal with
         | |- context [if ?cnd then _ else _] => destruct cnd; gfields
         end; reflexivity.
Qed.

Lemma expP_before_drug_action_witness :
  snd (_ode_expP [2; 1; 0; 3; 1; 5; 4] (-1)
         (setattr name.RALT_time 7 (setattr name.EFAV_time 5 Par1)))
  = snd (_ode_expP [2; 1; 0; 3; 1; 5; 4] (-1) Par1).
Proof.
  apply (expP_before_drug_action Par1 [2; 1; 0; 3; 1; 5; 4] (-1) 5 7);
    simpl; lra.
Defined.

Lemma drug_rate_at_action n tau t onset :
  drug_rate n tau t t onset = INR n / tau.
Proof.
  unfold drug_rate. destruct (Rlt_dec t t) as [H | _]; [lra | ].
  replace (- (t - t) ^ 2 / (2 * onset ^ 2)) with 0
    by (unfold Rdiv; ring).
  rewrite exp_0. ring.
Qed.

(** X18.  The drug action sets in without a jump: at a time equal to both
    action times the Gaussian factor is 1, and the exponential right-hand
    side returns the derivative it returns when the action times lie in the
    future. *)
Theorem expP_at_drug_action (p : _Par) (X : list R) (t e r : R) :
  stages_ok p -> scales_ok p -> layout_exp p X ->
  EFAV_time p = t -> RALT_time p = t -> t < e -> t < r ->
  let p' := setattr name.RALT_time r (setattr name.EFAV_time e p) in
  exists d, _ode_expP X t p = (p, Returned d)
            /\ _ode_expP X t p' = (p', Returned d).
Proof.
  intros Hst Hsc Hlay HE HR He Hr p'.
  exists (expP_closed p X t). split; [apply _ode_expP_closed; assumption | ].
  rewrite (_ode_expP_closed p' X t); [ | exact Hst | exact Hsc | exact Hlay].
  f_equal. f_equal.
  unfold expP_closed. subst p'. gfields.
  rewrite HE, HR, !drug_rate_at_action.
  rewrite !drug_rate_before by assumption.
  reflexivity.
Qed.

Lemma expP_at_drug_action_witness :
  exists d,
    _ode_expP [2; 1; 0; 3; 1; 5; 4] 0 Par1 = (Par1, Returned d)
    /\ _ode_expP [2; 1; 0; 3; 1; 5; 4] 0
         (setattr name.RALT_time 7 (setattr name.EFAV_time 5 Par1))
       = (setattr name.RALT_time 7 (setattr name.EFAV_time 5 Par1),
          Returned d).
Proof.
  apply (expP_at_drug_action Par1 [2; 1; 0; 3; 1; 5; 4] 0 5 7);
    try reflexivity; try (simpl; lra).
  - exact Par1_stages.
  - exact Par1_scales.
Defined.
(** ** The right-hand sides are homogeneous in the state *)

Lemma scale_zeros a k : map (Rmult a) (repeat 0 k) = repeat 0 k.
Proof.
  induction k as [ | k IH]; simpl; [reflexivity | ].
  rewrite IH, Rmult_0_r. reflexivity.
Qed.

Lemma clamp_scale a X : 0 <= a -> clamp (map (Rmult a) X) = map (Rmult a) (clamp X).
Proof.
  intros Ha. unfold clamp. rewrite !map_map. apply map_ext. intros x.
  destruct (Rlt_dec (a * x) 0) as [H1 | H1], (Rlt_dec x 0) as [H2 | H2];
    try ring; try reflexivity.
  - exfalso. nra.
  - assert (a * x = 0) by nra. lra.
Qed.

Lemma reshape_map (f : R -> R) nrow ncol l :
  reshape nrow ncol (map f l) = map (map f) (reshape nrow ncol l).
Proof.
  revert l. induction nrow as [ | k IH]; intros l; simpl; [reflexivity | ].
  rewrite firstn_map, skipn_map, IH. reflexivity.
Qed.

Lemma live_array_scale a nT ncol X :
  0 <= a ->
  live_array nT ncol (map (Rmult a) X)
  = map (map (Rmult a)) (live_array nT ncol X).
Proof.
  intros Ha. unfold live_array. simpl map.
  rewrite scale_zeros, clamp_scale, length_map by exact Ha.
  rewrite firstn_map, reshape_map. reflexivity.
Qed.

Lemma nth_scale a (l : list R) k : nth k (map (Rmult a) l) 0 = a * nth k l 0.
Proof.
  rewrite <- (Rmult_0_r a) at 1. apply map_nth.
Qed.

Lemma row_scale a live i :
  row (map (map (Rmult a)) live) i = map (Rmult a) (row live i).
Proof.
  unfold row. change (@nil R) with (map (Rmult a) []) at 1. apply map_nth.
Qed.

Lemma at_scale a live i j : at_ (map (map (Rmult a)) live) i j = a * at_ live i j.
Proof. unfold at_. rewrite row_scale. apply nth_scale. Qed.

Lemma Rsum_scale a l : Rsum (map (Rmult a) l) = a * Rsum l.
Proof.
  induction l as [ | x l IH]; simpl; [ring | ]. rewrite IH. ring.
Qed.

Lemma slice_map {A B} (f : A -> B) a b l :
  slice a b (map f l) = map f (slice a b l).
Proof. unfold slice. rewrite firstn_map, skipn_map. reflexivity. Qed.

Lemma slice_sum_scale a live i x y :
  Rsum (slice x y (row (map (map (Rmult a)) live) i))
  = a * Rsum (slice x y (row live i)).
Proof. rewrite row_scale, slice_map. apply Rsum_scale. Qed.

Lemma sum_block_scale a live x y :
  sum_block (map (map (Rmult a)) live) x y = a * sum_block live x y.
Proof.
  unfold sum_block. rewrite <- Rsum_scale. f_equal.
  destruct live as [ | z rows]; [reflexivity | ]. simpl tl.
  induction rows as [ | r rows IH]; simpl; [reflexivity | ].
  rewrite map_app, slice_map, IH. reflexivity.
Qed.

Lemma sum_col_scale a live k :
  sum_col (map (map (Rmult a)) live) k = a * sum_col live k.
Proof.
  unfold sum_col. rewrite <- Rsum_scale. f_equal.
  destruct live as [ | z rows]; [reflexivity | ]. simpl tl.
  rewrite !map_map. apply map_ext. intros r. apply nth_scale.
Qed.

Lemma front_row_scale a p deltaT deltaEE deltaER deltaEI Virus live i :
  front_row p deltaT deltaEE deltaER deltaEI Virus
    (map (map (Rmult a)) live) i
  = map (Rmult a) (front_row p deltaT deltaEE deltaER deltaEI Virus live i).
Proof.
  unfold front_row, chain_first, chain_next. cbv zeta.
  rewrite !map_app, !map_map. cbn [map].
  repeat (apply f_equal2;
          [first [ apply map_ext; intros j | apply f_equal2; [ | reflexivity] ];
           rewrite ?at_scale, ?slice_sum_scale; unfold Rdiv; ring | ]).
  apply map_ext. intros j. rewrite ?at_scale. ring.
Qed.

Lemma expP_row_scale a p deltaT deltaEE deltaER deltaEI Virus live i :
  expP_row p deltaT deltaEE deltaER deltaEI Virus (map (map (Rmult a)) live) i
  = map (Rmult a) (expP_row p deltaT deltaEE deltaER deltaEI Virus live i).
Proof.
  unfold expP_row. cbv zeta. rewrite map_app, front_row_scale. cbn [map].
  apply f_equal2; [reflexivity | ].
  apply f_equal2; [ | reflexivity]. rewrite ?at_scale. ring.
Qed.

Lemma gammaP_row_scale a p deltaT deltaEE deltaER deltaEI deltaP Virus live i :
  gammaP_row p deltaT deltaEE deltaER deltaEI deltaP Virus
    (map (map (Rmult a)) live) i
  = map (Rmult a)
      (gammaP_row p deltaT deltaEE deltaER deltaEI deltaP Virus live i).
Proof.
  unfold gammaP_row. cbv zeta. rewrite !map_app, front_row_scale, map_map.
  cbn [map].
  apply f_equal2; [reflexivity | ].
  apply f_equal2.
  - apply f_equal2; [ | reflexivity]. rewrite ?at_scale. ring.
  - apply map_ext. intros j. rewrite ?at_scale. ring.
Qed.

Lemma concat_map_scale a (rowf rowg : nat -> list R) idx :
  (forall i, rowf i = map (Rmult a) (rowg i)) ->
  concat (map rowf idx) = map (Rmult a) (concat (map rowg idx)).
Proof.
  intros H. induction idx as [ | i idx IH]; simpl; [reflexivity | ].
  rewrite map_app, H, IH. reflexivity.
Qed.

Lemma expP_with_scale a p deltaT deltaEE deltaER deltaEI Virus X :
  0 <= a ->
  expP_with p deltaT deltaEE deltaER deltaEI Virus (map (Rmult a) X)
  = map (Rmult a) (expP_with p deltaT deltaEE deltaER deltaEI Virus X).
Proof.
  intros Ha. unfold expP_with. cbv zeta.
  rewrite live_array_scale, clamp_scale, length_map by exact Ha.
  rewrite map_app. cbn [map].
  apply f_equal2.
  - apply concat_map_scale. intros i. apply expP_row_scale.
  - rewrite !sum_block_scale, sum_col_scale, slice_sum_scale, at_scale,
      !nth_scale.
    apply f_equal2; [ring | ]. apply f_equal2; [ring | reflexivity].
Qed.

Lemma gammaP_with_scale a p deltaT deltaEE deltaER deltaEI deltaP Virus X :
  0 <= a ->
  gammaP_with p deltaT deltaEE deltaER deltaEI deltaP Virus (map (Rmult a) X)
  = map (Rmult a)
      (gammaP_with p deltaT deltaEE deltaER deltaEI deltaP Virus X).
Proof.
  intros Ha. unfold gammaP_with. cbv zeta.
  rewrite live_array_scale, clamp_scale, length_map by exact Ha.
  rewrite map_app. cbn [map].
  apply f_equal2.
  - apply concat_map_scale. intros i. apply gammaP_row_scale.
  - rewrite !sum_block_scale, sum_col_scale, !slice_sum_scale, !nth_scale.
    apply f_equal2; [ring | ]. apply f_equal2; [ring | reflexivity].
Qed.

(** X19.  Each right-hand side is homogeneous in the state: scaling every
    entry of the state vector by a factor a >= 0 scales every entry of the
    derivative by a (the infection term divides by the parameter [N], not by
    the current population). *)
Theorem rhs_homogeneous (p : _Par) (X : list R) (t a : R) :
  stages_ok p -> scales_ok p -> 0 <= a ->
  (layout_exp p X ->
   exists d, _ode_expP X t p = (p, Returned d)
             /\ _ode_expP (map (Rmult a) X) t p
                = (p, Returned (map (Rmult a) d)))
  /\ (layout_gamma p X ->
      exists d, _ode_gammaP X t p = (p, Returned d)
                /\ _ode_gammaP (map (Rmult a) X) t p
                   = (p, Returned (map (Rmult a) d))).
Proof.
  intros Hst Hsc Ha. split; intros Hlay.
  - exists (expP_closed p X t). split; [apply _ode_expP_closed; assumption | ].
    rewrite _ode_expP_closed;
      [ | exact Hst | exact Hsc
        | unfold layout_exp in *; rewrite length_map; exact Hlay].
    unfold expP_closed. rewrite expP_with_scale by exact Ha. reflexivity.
  - exists (gammaP_closed p X t).
    split; [apply _ode_gammaP_closed; assumption | ].
    rewrite _ode_gammaP_closed;
      [ | exact Hst | exact Hsc
        | unfold layout_gamma in *; rewrite length_map; exact Hlay].
    unfold gammaP_closed. rewrite gammaP_with_scale by exact Ha. reflexivity.
Qed.

Lemma rhs_homogeneous_witness :
  (exists d, _ode_expP [2; 1; 0; 3; 1; 5; 4] 1 Par1 = (Par1, Returned d)
             /\ _ode_expP (map (Rmult 3) [2; 1; 0; 3; 1; 5; 4]) 1 Par1
                = (Par1, Returned (map (Rmult 3) d)))
  /\ (exists d, _ode_gammaP [2; 1; 0; 3; 1; 5; 4] 1 Par1 = (Par1, Returned d)
                /\ _ode_gammaP (map (Rmult 3) [2; 1; 0; 3; 1; 5; 4]) 1 Par1
                   = (Par1, Returned (map (Rmult 3) d))).
Proof.
  destruct (rhs_homogeneous Par1 [2; 1; 0; 3; 1; 5; 4] 1 3) as [He Hg].
  - exact Par1_stages.
  - exact Par1_scales.
  - lra.
  - split; [apply He | apply Hg]; reflexivity.
Defined.
(** ** The two embeddings agree

    Without rounding, [checkpars_fl] is [checkpars] on the attributes that
    it reads and writes. *)

Lemma Int_part_IZR (k : Z) : Int_part (IZR k) = k.
Proof.
  unfold Int_part.
  rewrite <- (tech_up (IZR k) (k + 1)).
  - lia.
  - rewrite plus_IZR. lra.
  - rewrite plus_IZR. lra.
Qed.

Lemma stage_of_real (rnd : R -> R) (w : R) :
  stage_of (real_arith rnd) w = Returned (Z.max 1 (py_round w)).
Proof.
  unfold stage_of. cbn [real_arith a_round a_gt_one a_int].
  destruct (Rlt_dec 1 (IZR (py_round w))) as [H | H].
  - f_equal. unfold py_int.
    assert (Hk : (1 < py_round w)%Z) by (apply lt_IZR; exact H).
    destruct (Rle_dec 0 (IZR (py_round w))) as [_ | C]; [ | lra].
    rewrite Int_part_IZR. lia.
  - f_equal. apply Rnot_lt_le in H. apply le_IZR in H. lia.
Qed.

Lemma derive_exact (t sg : R) (n0 : Z) :
  sg <> 0 ->
  derive exact_arith (mk_lifetime t sg n0)
  = (mk_lifetime t (moment_sigma t (stage_count t sg))
       (Z.of_nat (stage_count t sg)), Returned tt).
Proof.
  intros Hs. unfold derive, stage_count_fl. cbn [tau sigma stages].
  unfold exact_arith at 1 2. cbn [real_arith a_div a_sq and_then].
  destruct (Req_dec_T sg 0) as [E | _]; [contradiction | ].
  cbn [and_then]. fold exact_arith. unfold exact_arith at 1. rewrite stage_of_real.
  set (n := Z.max 1 (py_round ((t / sg) ^ 2))).
  assert (Hn : (1 <= n)%Z) by (unfold n; lia).
  assert (Hc : stage_count t sg = Z.to_nat n) by reflexivity.
  assert (HnR : 0 < IZR n) by (apply IZR_lt with (n := 0%Z); lia).
  unfold moment_sigma_fl, exact_arith.
  cbn [real_arith a_div a_sq a_sqrt a_of_int and_then].
  destruct (Req_dec_T (IZR n) 0) as [E | _]; [lra | ].
  cbn [and_then].
  assert (Hq : 0 <= t ^ 2 / IZR n).
  { apply Rmult_le_pos; [apply pow2_ge_0 | ].
    left. apply Rinv_0_lt_compat, HnR. }
  destruct (Rlt_dec (t ^ 2 / IZR n) 0) as [C | _]; [lra | ].
  rewrite Hc, Z2Nat.id by lia. unfold moment_sigma.
  rewrite INR_IZR_INZ, Z2Nat.id by lia. reflexivity.
Qed.

Lemma derive_exact_zero (t : R) (n0 : Z) :
  derive exact_arith (mk_lifetime t 0 n0)
  = (mk_lifetime t 0 n0, Raised ZeroDivisionError).
Proof.
  unfold derive, stage_count_fl, exact_arith. cbn [tau sigma real_arith a_div].
  destruct (Req_dec_T 0 0) as [_ | C]; [reflexivity | ].
  exfalso. apply C. reflexivity.
Qed.

Lemma checkpars_fl_exact (p : _Par) :
  sigmaT p <> 0 -> sigmaEE p <> 0 -> sigmaER p <> 0 -> sigmaEI p <> 0 ->
  checkpars_fl exact_arith (lifetimes_of p)
  = (lifetimes_of (fst (checkpars p)), snd (checkpars p)).
Proof.
  intros HT HEE HER HEI.
  rewrite checkpars_checked by assumption.
  unfold checkpars_fl, then_, on_phase, lifetimes_of.
  cbn [life set_life lifeT lifeEE lifeER lifeEI lifeP mode].
  rewrite derive_exact by assumption.
  cbn [life set_life lifeT lifeEE lifeER lifeEI lifeP mode].
  rewrite derive_exact by assumption.
  cbn [life set_life lifeT lifeEE lifeER lifeEI lifeP mode].
  rewrite derive_exact by assumption.
  cbn [life set_life lifeT lifeEE lifeER lifeEI lifeP mode].
  rewrite derive_exact by assumption.
  cbn [life set_life lifeT lifeEE lifeER lifeEI lifeP mode tau].
  unfold checked.
  destruct (py_eq_str (deathtype p) "exp").
  - unfold_after. gfields. reflexivity.
  - destruct (py_eq_str (deathtype p) "gamma").
    + destruct (Req_dec_T (sigmaP p) 0) as [E | E].
      * rewrite E, derive_exact_zero. unfold_after. gfields.
        rewrite E. reflexivity.
      * rewrite derive_exact by assumption. unfold_after. gfields.
        reflexivity.
    + unfold_after. gfields. reflexivity.
Qed.
(** ** [checkpars] in rounded arithmetic: a second run *)

Lemma eps_bounds : 0 < eps <= / 1000.
Proof. unfold eps. split; lra. Qed.

Lemma close_pos x y :
  0 < x -> Rabs (y - x) <= eps * Rabs x ->
  x * (1 - eps) <= y <= x * (1 + eps).
Proof.
  intros Hx H. rewrite (Rabs_right x) in H by lra.
  unfold Rabs in H. destruct (Rcase_abs (y - x)); lra.
Qed.

Lemma accurate_pos {F} (val : F -> R) o x :
  accurate val o x -> 0 < x ->
  exists y, o = Returned y /\ x * (1 - eps) <= val y <= x * (1 + eps).
Proof.
  intros (y & Hy & Hc) Hx. exists y. split; [exact Hy | ].
  apply close_pos; assumption.
Qed.

Lemma normal_pos x : / 2 ^ 1022 <= x -> x <= 2 ^ 1023 -> normal x.
Proof.
  intros H1 H2. unfold normal. rewrite Rabs_right; [lra | ].
  assert (0 < / 2 ^ 1022) by (apply Rinv_0_lt_compat, pow_lt; lra). lra.
Qed.

Lemma div_between a b x y :
  0 < y -> a * y <= x <= b * y -> a <= x / y <= b.
Proof.
  intros Hy [H1 H2].
  split; apply Rmult_le_reg_r with y; try assumption;
    unfold Rdiv; rewrite Rmult_assoc, Rinv_l by lra; lra.
Qed.

Lemma sq_between a b x : 0 <= a -> a <= x <= b -> a ^ 2 <= x ^ 2 <= b ^ 2.
Proof.
  intros Ha [H1 H2]. split; apply pow_incr; lra.
Qed.

Lemma sq_le_inv x y : 0 <= x -> 0 <= y -> x ^ 2 <= y ^ 2 -> x <= y.
Proof.
  intros Hx Hy H. apply Rsqr_incr_0; try assumption.
  unfold Rsqr. lra.
Qed.

Lemma sqrt_between a b x :
  0 <= a -> 0 <= b -> a ^ 2 <= x <= b ^ 2 -> a <= sqrt x <= b.
Proof.
  intros Ha Hb [H1 H2].
  assert (Hx : 0 <= x) by (pose proof (pow2_ge_0 a); lra).
  pose proof (sqrt_pos x) as Hs.
  pose proof (pow2_sqrt x Hx) as Hsq.
  split; apply sq_le_inv; try assumption; lra.
Qed.
Section StandardModel.

Context {F : Type} (A : arith F) (val : F -> R).
Hypothesis SM : standard_model A val.

(** A float within 1/2 of a whole number [n >= 1] gives the count [n]. *)
Lemma stage_of_near (w : F) (n : Z) :
  0 < val w -> normal (val w) -> (1 <= n)%Z ->
  Rabs (val w - IZR n) < / 2 ->
  stage_of A w = Returned n.
Proof.
  intros Hw Hn Hn1 Hc.
  rewrite (sm_stage A val SM) by assumption. f_equal.
  destruct (py_round_bounds (val w)) as [L U]; [lra | ].
  apply Rabs_def2 in Hc. destruct Hc as [Hc1 Hc2].
  assert (H1 : (py_round (val w) < n + 1)%Z).
  { apply lt_IZR. rewrite plus_IZR. lra. }
  assert (H2 : (n - 1 < py_round (val w))%Z).
  { apply lt_IZR. rewrite minus_IZR. lra. }
  lia.
Qed.

(** Line 101 on a lifetime in range: at most 2^47 stages. *)
Lemma stage_count_fl_returns (t sg : F) :
  / 2 ^ 200 <= val t <= 2 ^ 200 -> / 2 ^ 200 <= val sg <= 2 ^ 200 ->
  val t <= 2 ^ 23 * val sg ->
  exists n, stage_count_fl A t sg = Returned n /\ (1 <= n <= 2 ^ 47)%Z.
Proof.
  intros [Ht1 Ht2] [Hs1 Hs2] Hr.
  assert (Hlo : 0 < / 2 ^ 200) by (apply Rinv_0_lt_compat, pow_lt; lra).
  assert (Ht : 0 < val t) by lra.
  assert (Hs : 0 < val sg) by lra.
  destruct (div_between (/ 2 ^ 400) (2 ^ 23) (val t) (val sg) Hs) as [Hq1 Hq2];
    [split; lra | ].
  assert (Hq0 : 0 < / 2 ^ 400) by (apply Rinv_0_lt_compat, pow_lt; lra).
  assert (Hnq : normal (val t / val sg)) by (apply normal_pos; lra).
  destruct (accurate_pos val _ _ (sm_div A val SM t sg Ht Hs Hnq))
    as (q & Eq & Hq); [lra | ].
  unfold eps in Hq.
  assert (HQ : / 2 ^ 400 * (1 - / 2 ^ 52) <= val q <= 2 ^ 23 * (1 + / 2 ^ 52))
    by lra.
  assert (Hqpos : 0 < val q) by lra.
  assert (Ha : 0 <= / 2 ^ 400 * (1 - / 2 ^ 52)) by lra.
  destruct (sq_between _ _ _ Ha HQ) as [Hqq1 Hqq2].
  assert (Hnw : normal (val q ^ 2)) by (apply normal_pos; lra).
  destruct (accurate_pos val _ _ (sm_sq A val SM q Hqpos Hnw))
    as (w & Ew & Hw); [lra | ].
  unfold eps in Hw.
  assert (Hwpos : 0 < val w) by lra.
  assert (Hwn : normal (val w)) by (apply normal_pos; lra).
  exists (Z.max 1 (py_round (val w))). split.
  - unfold stage_count_fl. rewrite Eq. simpl. rewrite Ew. simpl.
    apply (sm_stage A val SM); assumption.
  - split; [lia | ].
    destruct (py_round_bounds (val w)) as [_ U]; [lra | ].
    apply Z.max_lub; [lia | ].
    apply le_IZR. change (2 ^ 47)%Z with 140737488355328%Z. lra.
Qed.


(** Line 102 on a mean in range and a count of at most 2^47: the sigma it
    returns has n * sigma^2 within four roundings of tau^2. *)
Lemma moment_sigma_fl_returns (t : F) (n : Z) :
  / 2 ^ 200 <= val t <= 2 ^ 200 -> (1 <= n <= 2 ^ 47)%Z ->
  exists sg, moment_sigma_fl A t n = Returned sg
    /\ 0 < val sg
    /\ val t ^ 2 * (1 - eps) ^ 4 <= IZR n * val sg ^ 2
       <= val t ^ 2 * (1 + eps) ^ 4.
Proof.
  intros [Ht1 Ht2] [Hn1 Hn2].
  assert (Hlo : 0 < / 2 ^ 200) by (apply Rinv_0_lt_compat, pow_lt; lra).
  assert (Ht : 0 < val t) by lra.
  assert (HnR : 1 <= IZR n <= 2 ^ 47).
  { split; [apply IZR_le with (n := 1%Z); lia | ].
    apply IZR_le in Hn2. change (2 ^ 47)%Z with 140737488355328%Z in Hn2.
    lra. }
  (* tau ** 2 *)
  assert (Hb : 0 <= / 2 ^ 200) by lra.
  destruct (sq_between _ _ _ Hb (conj Ht1 Ht2)) as [Htt1 Htt2].
  assert (Hn2t : normal (val t ^ 2)) by (apply normal_pos; lra).
  destruct (accurate_pos val _ _ (sm_sq A val SM t Ht Hn2t))
    as (t2 & Et2 & Ht2b); [lra | ].
  unfold eps in Ht2b.
  assert (Ht2pos : 0 < val t2) by lra.
  (* ... / n *)
  assert (Hof : val (a_of_int A n) = IZR n)
    by (apply (sm_of_int A val SM); lia).
  set (y := val t2 / IZR n).
  assert (Hy : y * IZR n = val t2) by (unfold y; field; lra).
  destruct (div_between (/ 2 ^ 448) (2 ^ 401) (val t2) (IZR n)) as [Hy1 Hy2];
    [lra | split; lra | ].
  fold y in Hy1, Hy2.
  assert (Hy0 : 0 < / 2 ^ 448) by (apply Rinv_0_lt_compat, pow_lt; lra).
  assert (Hnv : normal (val t2 / val (a_of_int A n)))
    by (rewrite Hof; fold y; apply normal_pos; lra).
  destruct (accurate_pos val _ _ (sm_div A val SM t2 (a_of_int A n) Ht2pos
              ltac:(rewrite Hof; lra) Hnv)) as (v & Ev & Hv);
    [rewrite Hof; fold y; lra | ].
  rewrite Hof in Hv. fold y in Hv. unfold eps in Hv.
  assert (Hvpos : 0 < val v) by lra.
  (* math.sqrt *)
  assert (Hsb : / 2 ^ 225 <= sqrt (val v) <= 2 ^ 201).
  { apply sqrt_between.
    - assert (0 < / 2 ^ 225) by (apply Rinv_0_lt_compat, pow_lt; lra). lra.
    - lra.
    - split; lra. }
  assert (Hs0 : 0 < / 2 ^ 225) by (apply Rinv_0_lt_compat, pow_lt; lra).
  assert (Hns : normal (sqrt (val v))) by (apply normal_pos; lra).
  destruct (accurate_pos val _ _ (sm_sqrt A val SM v Hvpos Hns))
    as (sg & Esg & Hsg); [lra | ].
  unfold eps in Hsg.
  exists sg. split; [ | split].
  - unfold moment_sigma_fl. rewrite Et2. simpl. rewrite Ev. simpl. exact Esg.
  - lra.
  - assert (Hr : 0 <= sqrt (val v) * (1 - / 2 ^ 52)) by lra.
    destruct (sq_between _ _ _ Hr Hsg) as [Hq1 Hq2].
    rewrite Rpow_mult_distr in Hq1, Hq2.
    rewrite pow2_sqrt in Hq1, Hq2 by lra.
    unfold eps.
    assert (Hm1 : IZR n * (val v * (1 - / 2 ^ 52) ^ 2) <= IZR n * val sg ^ 2)
      by (apply Rmult_le_compat_l; lra).
    assert (Hm2 : IZR n * val sg ^ 2 <= IZR n * (val v * (1 + / 2 ^ 52) ^ 2))
      by (apply Rmult_le_compat_l; lra).
    assert (Hm3 : IZR n * (y * (1 - / 2 ^ 52)) <= IZR n * val v)
      by (apply Rmult_le_compat_l; lra).
    assert (Hm4 : IZR n * val v <= IZR n * (y * (1 + / 2 ^ 52)))
      by (apply Rmult_le_compat_l; lra).
    replace (IZR n * (y * (1 - / 2 ^ 52)))
      with (val t2 * (1 - / 2 ^ 52)) in Hm3 by (rewrite <- Hy; ring).
    replace (IZR n * (y * (1 + / 2 ^ 52)))
      with (val t2 * (1 + / 2 ^ 52)) in Hm4 by (rewrite <- Hy; ring).
    replace (IZR n * (val v * (1 - / 2 ^ 52) ^ 2))
      with (IZR n * val v * (1 - / 2 ^ 52) ^ 2) in Hm1 by ring.
    replace (IZR n * (val v * (1 + / 2 ^ 52) ^ 2))
      with (IZR n * val v * (1 + / 2 ^ 52) ^ 2) in Hm2 by ring.
    set (nv := IZR n * val v) in *.
    set (ns := IZR n * val sg ^ 2) in *.
    set (tt2 := val t ^ 2) in *.
    split; lra.
Qed.


(** Line 101 on the sigma that line 102 wrote: the same count. *)
Lemma stage_count_fl_fixed (t sg : F) (n : Z) :
  / 2 ^ 200 <= val t <= 2 ^ 200 -> (1 <= n <= 2 ^ 47)%Z ->
  0 < val sg ->
  val t ^ 2 * (1 - eps) ^ 4 <= IZR n * val sg ^ 2
    <= val t ^ 2 * (1 + eps) ^ 4 ->
  stage_count_fl A t sg = Returned n.
Proof.
  intros [Ht1 Ht2] [Hn1 Hn2] Hs [Hb1 Hb2]. unfold eps in Hb1, Hb2.
  assert (Hlo : 0 < / 2 ^ 200) by (apply Rinv_0_lt_compat, pow_lt; lra).
  assert (Ht : 0 < val t) by lra.
  assert (HnR : 1 <= IZR n <= 2 ^ 47).
  { split; [apply IZR_le with (n := 1%Z); lia | ].
    apply IZR_le in Hn2. change (2 ^ 47)%Z with 140737488355328%Z in Hn2.
    lra. }
  assert (Htt : 0 < val t ^ 2) by (apply pow_lt; exact Ht).
  assert (Hss : 0 < val sg ^ 2) by (apply pow_lt; exact Hs).
  (* tau / sigma *)
  assert (Hlow : / 2 * val sg <= val t).
  { apply sq_le_inv; [lra | lra | ].
    rewrite Rpow_mult_distr.
    assert (val sg ^ 2 <= IZR n * val sg ^ 2) by nra.
    lra. }
  assert (Hupp : val t <= 2 ^ 24 * val sg).
  { apply sq_le_inv; [lra | lra | ].
    rewrite Rpow_mult_distr.
    assert (IZR n * val sg ^ 2 <= 2 ^ 47 * val sg ^ 2)
      by (apply Rmult_le_compat_r; lra).
    lra. }
  destruct (div_between (/ 2) (2 ^ 24) (val t) (val sg) Hs) as [Hr1 Hr2];
    [split; lra | ].
  set (rq := val t / val sg) in *.
  assert (Hnq : normal rq) by (apply normal_pos; lra).
  destruct (accurate_pos val _ _ (sm_div A val SM t sg Ht Hs Hnq))
    as (q & Eq & Hq); [fold rq; lra | ].
  fold rq in Hq. unfold eps in Hq.
  assert (Hqpos : 0 < val q) by lra.
  (* ... ** 2 *)
  assert (Ha : 0 <= rq * (1 - / 2 ^ 52)) by lra.
  destruct (sq_between _ _ _ Ha Hq) as [Hqq1 Hqq2].
  rewrite Rpow_mult_distr in Hqq1, Hqq2.
  assert (Hc : 0 <= / 2) by lra.
  destruct (sq_between _ _ _ Hc (conj Hr1 Hr2)) as [Hx1 Hx2].
  set (X := rq ^ 2) in *.
  assert (HX : X * val sg ^ 2 = val t ^ 2).
  { unfold X, rq. field. lra. }
  assert (HXn1 : X * (1 - / 2 ^ 52) ^ 4 <= IZR n).
  { apply Rmult_le_reg_r with (val sg ^ 2); [exact Hss | ].
    replace (X * (1 - / 2 ^ 52) ^ 4 * val sg ^ 2)
      with (val t ^ 2 * (1 - / 2 ^ 52) ^ 4) by (rewrite <- HX; ring).
    exact Hb1. }
  assert (HXn2 : IZR n <= X * (1 + / 2 ^ 52) ^ 4).
  { apply Rmult_le_reg_r with (val sg ^ 2); [exact Hss | ].
    replace (X * (1 + / 2 ^ 52) ^ 4 * val sg ^ 2)
      with (val t ^ 2 * (1 + / 2 ^ 52) ^ 4) by (rewrite <- HX; ring).
    exact Hb2. }
  assert (Hnw : normal (val q ^ 2)) by (apply normal_pos; lra).
  destruct (accurate_pos val _ _ (sm_sq A val SM q Hqpos Hnw))
    as (w & Ew & Hw); [lra | ].
  unfold eps in Hw.
  unfold stage_count_fl. rewrite Eq. simpl. rewrite Ew. simpl.
  apply stage_of_near.
  - lra.
  - apply normal_pos; lra.
  - lia.
  - set (Q2 := val q ^ 2) in *. apply Rabs_def1; lra.
Qed.

End StandardModel.
(** ** Rounding to 53 digits meets the standard model *)

Lemma ulp53_bounds x : 0 < x -> 0 < ulp53 x <= x * / 2 ^ 52.
Proof.
  intros Hx. unfold ulp53, Rpower. split; [apply exp_pos | ].
  pose proof ln_lt_2 as Hln2.
  destruct (base_Int_part (ln x / ln 2)) as [Hfl _]. fold (ilog2 x) in Hfl.
  rewrite minus_IZR.
  replace ((IZR (ilog2 x) - 52) * ln 2)
    with (IZR (ilog2 x) * ln 2 + - (INR 52 * ln 2)) by (simpl; ring).
  rewrite exp_plus, exp_Ropp.
  fold (Rpower 2 (INR 52)). rewrite Rpower_pow by lra.
  assert (Hle : IZR (ilog2 x) * ln 2 <= ln x).
  { apply Rmult_le_reg_r with (/ ln 2); [apply Rinv_0_lt_compat; lra | ].
    rewrite Rmult_assoc, Rinv_r by lra. unfold Rdiv in Hfl. lra. }
  assert (He : exp (IZR (ilog2 x) * ln 2) <= x).
  { rewrite <- (exp_ln x Hx) at 2.
    destruct Hle as [Hlt | Heq]; [left; apply exp_increasing, Hlt | ].
    rewrite Heq. right. reflexivity. }
  apply Rmult_le_compat_r; [ | exact He].
  left. apply Rinv_0_lt_compat, pow_lt. lra.
Qed.

Lemma rnd53_close x : 0 < x -> Rabs (rnd53 x - x) <= eps * Rabs x.
Proof.
  intros Hx. destruct (ulp53_bounds x Hx) as [Hu1 Hu2].
  unfold rnd53. set (u := ulp53 x) in *.
  assert (Hy : 0 <= x / u) by (left; apply Rdiv_lt_0_compat; assumption).
  destruct (py_round_bounds (x / u) Hy) as [L U].
  replace (IZR (py_round (x / u)) * u - x)
    with ((IZR (py_round (x / u)) - x / u) * u) by (field; lra).
  rewrite Rabs_mult, (Rabs_right u), (Rabs_right x) by lra.
  assert (Hd : Rabs (IZR (py_round (x / u)) - x / u) <= / 2)
    by (apply Rabs_le; lra).
  unfold eps.
  apply Rle_trans with (/ 2 * u).
  - apply Rmult_le_compat_r; lra.
  - lra.
Qed.

Lemma real_arith_standard (rnd : R -> R) :
  (forall x, 0 < x -> Rabs (rnd x - x) <= eps * Rabs x) ->
  standard_model (real_arith rnd) (fun x => x).
Proof.
  intros Hr. constructor; cbn [real_arith a_div a_sq a_sqrt a_of_int].
  - intros x y Hx Hy _. exists (rnd (x / y)). split.
    + destruct (Req_dec_T y 0); [lra | reflexivity].
    + apply Hr, Rdiv_lt_0_compat; assumption.
  - intros x Hx _. exists (rnd (x ^ 2)). split; [reflexivity | ].
    apply Hr, pow_lt, Hx.
  - intros x Hx _. exists (rnd (sqrt x)). split.
    + destruct (Rlt_dec x 0); [lra | reflexivity].
    + apply Hr, sqrt_lt_R0, Hx.
  - intros x Hx _. apply stage_of_real.
  - intros n _. reflexivity.
Qed.
(** ** The two runs *)

(** Lifetimes of an updated state. *)
Ltac phases :=
  cbn [life set_life lifeT lifeEE lifeER lifeEI lifeP mode].

(** The two lines of a phase, run twice on a lifetime in range. *)
Lemma derive_twice {F} (A : arith F) (val : F -> R) (l : lifetime F) :
  standard_model A val -> in_range val l ->
  exists l1,
    derive A l = (l1, Returned tt) /\ derive A l1 = (l1, Returned tt)
    /\ tau l1 = tau l.
Proof.
  intros SM (Ht & Hs & Hr).
  destruct (stage_count_fl_returns A val SM _ _ Ht Hs Hr) as (n & En & Hn).
  destruct (moment_sigma_fl_returns A val SM _ _ Ht Hn)
    as (sg & Esg & Hpos & Hb).
  exists (mk_lifetime (tau l) sg n). split; [ | split].
  - unfold derive. rewrite En, Esg. reflexivity.
  - unfold derive. cbn [tau sigma stages].
    rewrite (stage_count_fl_fixed A val SM _ _ _ Ht Hn Hpos Hb), Esg.
    reflexivity.
  - reflexivity.
Qed.

Lemma py_eq_str_gamma_not_exp v :
  py_eq_str v "gamma" = true -> py_eq_str v "exp" = false.
Proof.
  destruct v as [st | z | x]; simpl; try discriminate.
  intros H. apply String.eqb_eq in H. subst st. reflexivity.
Qed.

(** C5, as amended.  On any float arithmetic that meets the standard model
    (division, square and square root within one unit in the last place,
    as IEEE binary64 gives them in its normal range), and for lifetimes in
    range (every tau and sigma of T, EE, ER, EI, and of P in gamma mode,
    between 2^-200 and 2^200 with tau/sigma at most 2^23): [checkpars]
    returns, no tau is changed, and a second run from the state it left
    returns that same state: the same stage count and the same adjusted
    sigma for every phase. *)
Theorem checkpars_rerun_in_range {F : Type} (A : arith F) (val : F -> R)
    (p : lifetimes F) :
  standard_model A val ->
  in_range val (lifeT p) -> in_range val (lifeEE p) ->
  in_range val (lifeER p) -> in_range val (lifeEI p) ->
  (py_eq_str (mode p) "exp" = true
   \/ (py_eq_str (mode p) "gamma" = true /\ in_range val (lifeP p))) ->
  exists p1,
    checkpars_fl A p = (p1, Returned tt)
    /\ checkpars_fl A p1 = (p1, Returned tt)
    /\ (forall ph, tau (life ph p1) = tau (life ph p)).
Proof.
  intros SM HT HEE HER HEI Hmode.
  destruct p as [lT lEE lER lEI lP m].
  cbn [lifeT lifeEE lifeER lifeEI lifeP mode] in *.
  destruct (derive_twice A val lT SM HT) as (lT1 & T1 & T2 & T3).
  destruct (derive_twice A val lEE SM HEE) as (lEE1 & E1 & E2 & E3).
  destruct (derive_twice A val lER SM HER) as (lER1 & R1 & R2 & R3).
  destruct (derive_twice A val lEI SM HEI) as (lEI1 & I1 & I2 & I3).
  destruct Hmode as [Hexp | [Hgamma HP]].
  - exists (mk_lifetimes lT1 lEE1 lER1 lEI1
              (mk_lifetime (tau lP) (tau lP) 1) m).
    split; [ | split].
    + unfold checkpars_fl, then_, on_phase. phases.
      rewrite T1. phases. rewrite E1. phases. rewrite R1. phases.
      rewrite I1. phases. rewrite Hexp. reflexivity.
    + unfold checkpars_fl, then_, on_phase. phases.
      rewrite T2. phases. rewrite E2. phases. rewrite R2. phases.
      rewrite I2. phases. rewrite Hexp. reflexivity.
    + intros [ | | | | ]; phases; cbn [tau]; assumption || reflexivity.
  - destruct (derive_twice A val lP SM HP) as (lP1 & P1 & P2 & P3).
    pose proof (py_eq_str_gamma_not_exp m Hgamma) as Hne.
    exists (mk_lifetimes lT1 lEE1 lER1 lEI1 lP1 m).
    split; [ | split].
    + unfold checkpars_fl, then_, on_phase. phases.
      rewrite T1. phases. rewrite E1. phases. rewrite R1. phases.
      rewrite I1. phases. rewrite Hne, Hgamma. phases.
      rewrite P1. reflexivity.
    + unfold checkpars_fl, then_, on_phase. phases.
      rewrite T2. phases. rewrite E2. phases. rewrite R2. phases.
      rewrite I2. phases. rewrite Hne, Hgamma. phases.
      rewrite P2. reflexivity.
    + intros [ | | | | ]; phases; assumption.
Qed.

Lemma checkpars_rerun_in_range_witness :
  exists p1,
    checkpars_fl rounded53 (class_lifetimes IZR (PyStr "gamma"))
    = (p1, Returned tt)
    /\ checkpars_fl rounded53 p1 = (p1, Returned tt)
    /\ (forall ph, tau (life ph p1)
                   = tau (life ph (class_lifetimes IZR (PyStr "gamma")))).
Proof.
  assert (Hr : in_range (fun x : R => x) (mk_lifetime 6 3 4))
    by (unfold in_range; simpl; lra).
  apply (checkpars_rerun_in_range rounded53 (fun x => x)
           (class_lifetimes IZR (PyStr "gamma"))); try exact Hr.
  - apply real_arith_standard, rnd53_close.
  - right. split; [reflexivity | exact Hr].
Defined.

(** C5, counterexample.  In binary64, after
    [setpars(tauT=186.4, sigmaT=3.14e-6)] has assigned the two doubles,
    the first run of [checkpars] sets 3523972574952332 stages
    ((tau/sigma)**2 is 3523972574952331.5) and the second run, from the
    sigma the first one wrote, 3523972574952333. *)
Lemma checkpars_rerun_counterexample :
  let p := set_life phT
             (mk_lifetime (b64 6558366957358285 (-45))
                          (b64 7414115378105343 (-71)) 4)
             (class_lifetimes b64_of_Z (PyStr "exp")) in
  let r1 := checkpars_fl binary64 p in
  let r2 := checkpars_fl binary64 (fst r1) in
  snd r1 = Returned tt /\ snd r2 = Returned tt
  /\ stages (lifeT (fst r1)) = 3523972574952332%Z
  /\ stages (lifeT (fst r2)) = 3523972574952333%Z
  /\ fst r2 <> fst r1.
Proof.
  vm_compute. repeat split; try reflexivity.
  intros H. discriminate H.
Qed.

(** Below the range, a square underflows: with tau = sigma = 1e-200 the
    first run writes sigma = 0.0 and the second run raises. *)
Lemma checkpars_rerun_underflow :
  let tiny := b64 6894565328877484 (-717) in
  let p := set_life phT (mk_lifetime tiny tiny 4)
             (class_lifetimes b64_of_Z (PyStr "exp")) in
  let r1 := checkpars_fl binary64 p in
  snd r1 = Returned tt
  /\ snd (checkpars_fl binary64 (fst r1)) = Raised ZeroDivisionError.
Proof.
  vm_compute. split; reflexivity.
Qed.

(** Inside the range the second run of binary64 changes nothing, as on
    tau = 0.7, sigma = 0.3 (five stages), where every operation rounds. *)
Lemma checkpars_rerun_binary64_example :
  let p := set_life phT
             (mk_lifetime (b64 6305039478318694 (-53))
                          (b64 5404319552844595 (-54)) 4)
             (class_lifetimes b64_of_Z (PyStr "gamma")) in
  let r1 := checkpars_fl binary64 p in
  snd r1 = Returned tt
  /\ stages (lifeT (fst r1)) = 5%Z
  /\ checkpars_fl binary64 (fst r1) = r1.
Proof.
  vm_compute. repeat split; reflexivity.
Qed.
